(** * KpcaResult: storage of distributed kernel PCA results

    A shallow embedding of [mlpack::distributed_kpca::KpcaResult]
    (kpca_result.h): the three projection-bound matrices, the
    eigendecomposition fields, and the operations [Init], [SetZero],
    [Export], [Print], [serialize] and [set_eigendecomposition_results].

    Conventions of the embedding.
    - [arma::mat] is a record of its row count, column count and its
      column-major memory; [at(r, c)] addresses [mem[r + c * n_rows]] and
      performs no bounds check, so an access beyond the allocated memory
      is [Undefined].
    - [double] arithmetic is embedded once, over the interface [Scalar].
      Two instances are given: [binary64] (Rocq's primitive IEEE 754
      floats, which is what the program runs on) and [R] (exact
      arithmetic).  The order properties of the bounds are proved on
      both.
    - Effects are explicit: functions that can index out of range or use a
      null stream return an [outcome]; the file system touched by [Print]
      is a finite map from paths to contents.
    - An argument passed by reference is the object the reference is
      bound to, which may be a member of the result itself: the accessors
      hand out references to the members [set_eigendecomposition_results]
      writes.
    - [std::sort] is a parameter of the embedding, constrained by its
      contract; concrete inputs are run with a transcription of the
      [std::sort] of libstdc++.

    The file also embeds [mlpackMain] and [DSModel] of
    decision_stump_main.cpp (the decision stump program), over the
    library functions they call. *)

From Stdlib Require Import ZArith Reals Lra Lia.
From Stdlib Require Import PrimFloat SpecFloat FloatOps FloatAxioms.
From stdpp Require Import base list strings gmap.

(** ** Scalars *)

(** The operations the code applies to [double] values. *)
Class Scalar (T : Type) := {
  s_zero : T;
  s_add : T -> T -> T;
  s_sub : T -> T -> T;
  s_mul : T -> T -> T;
  s_sqrt : T -> T;
  (** [operator>] *)
  s_gt : T -> T -> Prop;
}.

Declare Scope scalar_scope.
Delimit Scope scalar_scope with S.
Infix "+" := s_add : scalar_scope.
Infix "-" := s_sub : scalar_scope.
Infix "*" := s_mul : scalar_scope.

(** IEEE 754 binary64, the [double] of the program. *)
#[export] Instance binary64 : Scalar PrimFloat.float := {
  s_zero := PrimFloat.zero;
  s_add := PrimFloat.add;
  s_sub := PrimFloat.sub;
  s_mul := PrimFloat.mul;
  s_sqrt := PrimFloat.sqrt;
  s_gt x y := PrimFloat.ltb y x = true;
}.

(** Exact real arithmetic. *)
#[export] Instance exact : Scalar R := {
  s_zero := 0%R;
  s_add := Rplus;
  s_sub := Rminus;
  s_mul := Rmult;
  s_sqrt := R_sqrt.sqrt;
  s_gt := Rgt;
}.

(** ** Outcomes *)

(** Errors a caller could be handed.  The first three are the taxonomy
    the specification names: kpca_result.h declares no error type and none
    of its functions raises one of them; the constructors exist so that
    statements about raised errors can be written.  The last is what a
    Boost input archive throws on malformed input. *)
Inductive error : Type :=
  | DimensionMismatch
  | IOError (path : string)
  | InvalidConfiguration
  | ArchiveException.

(** Result of running a member function: normal completion, a raised
    error, or undefined behaviour (an unchecked access outside allocated
    memory, a null [FILE*] handed to stdio). *)
Inductive outcome (A : Type) : Type :=
  | Ok (a : A)
  | Raise (e : error)
  | Undefined.
Arguments Ok {A} a.
Arguments Raise {A} e.
Arguments Undefined {A}.

#[export] Instance outcome_ret : MRet outcome := fun A a => Ok a.
#[export] Instance outcome_bind : MBind outcome := fun A B f m =>
  match m with
  | Ok a => f a
  | Raise e => Raise e
  | Undefined => Undefined
  end.

#[export] Instance outcome_fmap : FMap outcome := fun A B f m =>
  match m with
  | Ok a => Ok (f a)
  | Raise e => Raise e
  | Undefined => Undefined
  end.

(** An unchecked C++ access: defined exactly when the cell exists. *)
Definition checked {A} (o : option A) : outcome A :=
  match o with
  | Some a => Ok a
  | None => Undefined
  end.

(** [for (unsigned int j = 0; j < n; j++) body(j)], threading the state. *)
Fixpoint for_loop_from {S : Type} (start n : nat)
    (body : nat -> S -> outcome S) (s : S) : outcome S :=
  match n with
  | O => Ok s
  | Datatypes.S n' => s' ← body start s; for_loop_from (Datatypes.S start) n' body s'
  end.

Definition for_loop {S : Type} (n : nat) (body : nat -> S -> outcome S)
    (s : S) : outcome S :=
  for_loop_from 0 n body s.

(** ** Dense matrices and vectors *)

(** [arma::Mat<eT>]: dimensions and column-major memory. *)
Record Mat (T : Type) : Type := mkMat {
  n_rows : nat;
  n_cols : nat;
  mem : list T;
}.
Arguments mkMat {T} n_rows n_cols mem.
Arguments n_rows {T} m.
Arguments n_cols {T} m.
Arguments mem {T} m.

(** [arma::vec]: the memory of a column; [n_elem] is its length. *)
Abbreviation Vec T := (list T) (only parsing).

(** The invariant Armadillo keeps: [n_elem = n_rows * n_cols]. *)
Definition mat_wf {T} (m : Mat T) : Prop :=
  length (mem m) = n_rows m * n_cols m.

(** Same dimensions. *)
Definition same_shape {T} (a b : Mat T) : Prop :=
  n_rows a = n_rows b /\ n_cols a = n_cols b.

Section Matrices.
Context {T : Type} `{Scalar T}.

(** Contents of freshly allocated memory: unspecified. *)
Variable uninit : nat -> T.

(** A default-constructed matrix is empty. *)
Definition mat_empty : Mat T := mkMat 0 0 [].

(** [m.at(r, c)] as an rvalue. *)
Definition mat_at (m : Mat T) (r c : nat) : outcome T :=
  checked (mem m !! (r + c * n_rows m)).

(** [m.at(r, c) = v]. *)
Definition mat_set (m : Mat T) (r c : nat) (v : T) : outcome (Mat T) :=
  if decide (r + c * n_rows m < length (mem m))
  then Ok (mkMat (n_rows m) (n_cols m) (<[r + c * n_rows m := v]> (mem m)))
  else Undefined.

(** [m.set_size(r, c)]: Armadillo keeps the memory when the number of
    elements stays the same and takes fresh memory otherwise; it
    initialises nothing. *)
Definition mat_set_size (r c : nat) (m : Mat T) : Mat T :=
  if decide (r * c = length (mem m))
  then mkMat r c (mem m)
  else mkMat r c (uninit <$> seq 0 (r * c)).

(** [m.zeros()]: every element becomes zero, the size stays. *)
Definition mat_zeros (m : Mat T) : Mat T :=
  mkMat (n_rows m) (n_cols m) (replicate (length (mem m)) s_zero).

(** [v.set_size(n)], likewise. *)
Definition vec_set_size (n : nat) (v : Vec T) : Vec T :=
  if decide (n = length v) then v else uninit <$> seq 0 n.

(** [v[i] = x]. *)
Definition vec_set (v : Vec T) (i : nat) (x : T) : outcome (Vec T) :=
  if decide (i < length v) then Ok (<[i := x]> v) else Undefined.
End Matrices.

(** ** The result object *)

Record KpcaResult (T : Type) : Type := mkKpcaResult {
  kpca_projections_l_ : Mat T;
  kpca_projections_ : Mat T;
  kpca_projections_u_ : Mat T;
  kernel_eigenvalues_ : Vec T;
  covariance_eigenvectors_ : Mat T;
  reference_projections_ : Mat T;
  kpca_components_ : Mat T;
}.
Arguments mkKpcaResult {T}.
Arguments kpca_projections_l_ {T} k.
Arguments kpca_projections_ {T} k.
Arguments kpca_projections_u_ {T} k.
Arguments kernel_eigenvalues_ {T} k.
Arguments covariance_eigenvectors_ {T} k.
Arguments reference_projections_ {T} k.
Arguments kpca_components_ {T} k.

(** [int] arguments reach [set_size] as [arma::uword], a 32-bit unsigned
    word: the conversion wraps modulo [2^32]. *)
Definition uword_of_int (z : Z) : nat := Z.to_nat (z mod 2 ^ 32).

(** The values an [int] holds. *)
Definition int_range (z : Z) : Prop := (- 2 ^ 31 <= z < 2 ^ 31)%Z.

Section Result.
Context {T : Type} `{Scalar T}.
Variable uninit : nat -> T.

Definition with_bounds (r : KpcaResult T) (l c u : Mat T) : KpcaResult T :=
  mkKpcaResult l c u (kernel_eigenvalues_ r) (covariance_eigenvectors_ r)
    (reference_projections_ r) (kpca_components_ r).

Definition with_eigen (r : KpcaResult T) (vals : Vec T) (vecs : Mat T)
    : KpcaResult T :=
  mkKpcaResult (kpca_projections_l_ r) (kpca_projections_ r)
    (kpca_projections_u_ r) vals vecs
    (reference_projections_ r) (kpca_components_ r).

Definition SetZero (r : KpcaResult T) : KpcaResult T :=
  with_bounds r
    (mat_zeros (kpca_projections_l_ r))
    (mat_zeros (kpca_projections_ r))
    (mat_zeros (kpca_projections_u_ r)).

(** The default constructor: members default-constructed, then
    [SetZero()]. *)
Definition KpcaResult_new : KpcaResult T :=
  SetZero (mkKpcaResult mat_empty mat_empty mat_empty [] mat_empty
             mat_empty mat_empty).

Definition Init (num_components num_reference_points query_points : Z)
    (r : KpcaResult T) : KpcaResult T :=
  let rows := uword_of_int num_components in
  let cols := uword_of_int query_points in
  SetZero
    (with_bounds r
       (mat_set_size uninit rows cols (kpca_projections_l_ r))
       (mat_set_size uninit rows cols (kpca_projections_ r))
       (mat_set_size uninit rows cols (kpca_projections_u_ r))).
End Result.

(** ** The kernel-sum statistics read by [Export] *)

(** Modelled from the spec: [core::monte_carlo::MeanVariancePair]
    (core/monte_carlo/mean_variance_pair_matrix.h is not among the
    sources).  One statistic holds the sample mean and the variance of the
    mean estimator; [Export] reads both through accessors. *)
Record MeanVariancePair (T : Type) : Type := mkMeanVariancePair {
  sample_mean : T;
  sample_mean_variance : T;
}.
Arguments mkMeanVariancePair {T}.
Arguments sample_mean {T} m.
Arguments sample_mean_variance {T} m.

(** Modelled from the spec: [core::monte_carlo::MeanVariancePairMatrix],
    a container addressable by (component, query-point) pairs, with its
    own extent.  [get(k, i)] is unchecked: outside the extent it is
    [Undefined]. *)
Record MeanVariancePairMatrix (T : Type) : Type := mkMeanVariancePairMatrix {
  mv_n_rows : nat;
  mv_n_cols : nat;
  mv_entry : nat -> nat -> MeanVariancePair T;
}.
Arguments mkMeanVariancePairMatrix {T}.
Arguments mv_n_rows {T} m.
Arguments mv_n_cols {T} m.
Arguments mv_entry {T} m.

Definition mv_in_extent {T} (ks : MeanVariancePairMatrix T) (k i : nat) : Prop :=
  k < mv_n_rows ks /\ i < mv_n_cols ks.

Definition mv_get {T} (ks : MeanVariancePairMatrix T) (k i : nat)
    : outcome (MeanVariancePair T) :=
  if decide (mv_in_extent ks k i) then Ok (mv_entry ks k i) else Undefined.

(** ** Export *)

Section ExportDefs.
Context {T : Type} `{Scalar T}.
Local Open Scope scalar_scope.

(** The state threaded through the loops of [Export]: the object being
    filled, and a ghost log of the (component, query-point) pairs at
    which [kernel_sum.get] has been called, in call order. *)
Definition export_state : Type := (KpcaResult T * list (nat * nat))%type.

(** The bounds as the specification writes them, for a statistic [p]:
    deviation, lower, center and upper. *)
Definition deviation_of (num_standard_deviations : T) (p : MeanVariancePair T) : T :=
  num_standard_deviations * s_sqrt (sample_mean_variance p).

Definition lower_of (num_standard_deviations mult_const correction_term_in : T)
    (p : MeanVariancePair T) : T :=
  (sample_mean p - correction_term_in
     - deviation_of num_standard_deviations p) * mult_const.

Definition center_of (mult_const correction_term_in : T)
    (p : MeanVariancePair T) : T :=
  (sample_mean p - correction_term_in) * mult_const.

Definition upper_of (num_standard_deviations mult_const correction_term_in : T)
    (p : MeanVariancePair T) : T :=
  (sample_mean p - correction_term_in
     + deviation_of num_standard_deviations p) * mult_const.

(** The body of the inner loop: four calls of [kernel_sum.get(k, i)] and
    three unchecked stores. *)
Definition Export_body (num_standard_deviations mult_const correction_term_in : T)
    (kernel_sum : MeanVariancePairMatrix T) (i k : nat) (st : export_state)
    : outcome export_state :=
  let '(r, reads) := st in
  p0 ← mv_get kernel_sum k i;
  let deviation := num_standard_deviations * s_sqrt (sample_mean_variance p0) in
  p1 ← mv_get kernel_sum k i;
  l ← mat_set (kpca_projections_l_ r) k i
        ((sample_mean p1 - correction_term_in - deviation) * mult_const);
  p2 ← mv_get kernel_sum k i;
  c ← mat_set (kpca_projections_ r) k i
        ((sample_mean p2 - correction_term_in) * mult_const);
  p3 ← mv_get kernel_sum k i;
  u ← mat_set (kpca_projections_u_ r) k i
        ((sample_mean p3 - correction_term_in + deviation) * mult_const);
  Ok (with_bounds r l c u, reads ++ [(k, i); (k, i); (k, i); (k, i)]).

(** [Export] with its ghost log.  The loop bounds are the dimensions of
    [kpca_projections_]; the stores never change them. *)
Definition Export_logged (num_standard_deviations mult_const correction_term_in : T)
    (kernel_sum : MeanVariancePairMatrix T) (r : KpcaResult T)
    : outcome export_state :=
  for_loop (n_cols (kpca_projections_ r)) (fun i st =>
    for_loop (n_rows (kpca_projections_ r)) (fun k st =>
      Export_body num_standard_deviations mult_const correction_term_in
        kernel_sum i k st) st) (r, []).

Definition Export (num_standard_deviations mult_const correction_term_in : T)
    (kernel_sum : MeanVariancePairMatrix T) (r : KpcaResult T)
    : outcome (KpcaResult T) :=
  fst <$> Export_logged num_standard_deviations mult_const correction_term_in
            kernel_sum r.

(** The pairs of a [rows x cols] extent in the order the loops visit them. *)
Definition extent_pairs (rows cols : nat) : list (nat * nat) :=
  i ← seq 0 cols; k ← seq 0 rows; [(k, i)].
End ExportDefs.

(** ** Accessors *)

(** A C++ reference to a member of an object: what is read through it, and
    what an assignment through it leaves of the object. *)
Record Ref (O A : Type) : Type := mkRef {
  ref_read : O -> A;
  ref_assign : A -> O -> O;
}.
Arguments mkRef {O A}.
Arguments ref_read {O A} r o.
Arguments ref_assign {O A} r a o.

Section Accessors.
Context {T : Type}.

Definition reference_projections : Ref (KpcaResult T) (Mat T) :=
  mkRef reference_projections_ (fun m r =>
    mkKpcaResult (kpca_projections_l_ r) (kpca_projections_ r)
      (kpca_projections_u_ r) (kernel_eigenvalues_ r)
      (covariance_eigenvectors_ r) m (kpca_components_ r)).

Definition kpca_components : Ref (KpcaResult T) (Mat T) :=
  mkRef kpca_components_ (fun m r =>
    mkKpcaResult (kpca_projections_l_ r) (kpca_projections_ r)
      (kpca_projections_u_ r) (kernel_eigenvalues_ r)
      (covariance_eigenvectors_ r) (reference_projections_ r) m).

Definition kernel_eigenvalues : Ref (KpcaResult T) (Vec T) :=
  mkRef kernel_eigenvalues_ (fun v r =>
    mkKpcaResult (kpca_projections_l_ r) (kpca_projections_ r)
      (kpca_projections_u_ r) v
      (covariance_eigenvectors_ r) (reference_projections_ r)
      (kpca_components_ r)).

Definition covariance_eigenvectors : Ref (KpcaResult T) (Mat T) :=
  mkRef covariance_eigenvectors_ (fun m r =>
    mkKpcaResult (kpca_projections_l_ r) (kpca_projections_ r)
      (kpca_projections_u_ r) (kernel_eigenvalues_ r)
      m (reference_projections_ r) (kpca_components_ r)).
End Accessors.

(** ** Arguments passed by reference

    [set_eigendecomposition_results] takes both arguments by reference to
    const, and the accessors hand out references to the very members it
    writes.  An argument is therefore embedded as the object the reference
    is bound to: an object of its own, or a member of the result the
    function is called on.  A read through the reference reads that object
    as it stands at the time of the read.  (A member the function does not
    write, [reference_projections_] or [kpca_components_], reads like an
    object of its own.) *)

(** What a [const arma::vec &] is bound to. *)
Inductive vec_ref (T : Type) : Type :=
  | vec_object (v : Vec T)
  | vec_member_kernel_eigenvalues.
Arguments vec_object {T} v.
Arguments vec_member_kernel_eigenvalues {T}.

(** What a [const arma::mat &] is bound to.  [arma::vec] derives from
    [arma::mat], so the reference also binds to the eigenvalue member. *)
Inductive mat_ref (T : Type) : Type :=
  | mat_object (m : Mat T)
  | mat_member_covariance_eigenvectors
  | mat_member_kernel_eigenvalues.
Arguments mat_object {T} m.
Arguments mat_member_covariance_eigenvectors {T}.
Arguments mat_member_kernel_eigenvalues {T}.

(** An [arma::vec] seen as the matrix it is: one column. *)
Definition vec_as_mat {T} (v : Vec T) : Mat T := mkMat (length v) 1 v.

Definition read_vec {T} (a : vec_ref T) (r : KpcaResult T) : Vec T :=
  match a with
  | vec_object v => v
  | vec_member_kernel_eigenvalues => ref_read kernel_eigenvalues r
  end.

Definition read_mat {T} (b : mat_ref T) (r : KpcaResult T) : Mat T :=
  match b with
  | mat_object m => m
  | mat_member_covariance_eigenvectors => ref_read covariance_eigenvectors r
  | mat_member_kernel_eigenvalues => vec_as_mat (ref_read kernel_eigenvalues r)
  end.

(** ** Eigendecomposition results *)

(** What [std::sort(first, last, comp)] guarantees about the sequence it
    leaves behind: a rearrangement of the input in which no element
    precedes one that [comp] orders before it.  The order of elements that
    [comp] does not distinguish is left open. *)
Definition std_sort_post {A} (comp : A -> A -> Prop) (input output : list A)
    : Prop :=
  input ≡ₚ output /\
  forall a b x y, a < b -> output !! a = Some x -> output !! b = Some y ->
    ~ comp y x.

(** A sort is stable on an input when elements that [comp] does not
    distinguish keep their input order. *)
Definition stable_on {A} (comp : A -> A -> Prop) (input output : list A)
    : Prop :=
  forall a b x y, a < b -> input !! a = Some x -> input !! b = Some y ->
    ~ comp x y -> ~ comp y x ->
    exists a' b', a' < b' /\ output !! a' = Some x /\ output !! b' = Some y.

Section Eigen.
Context {T : Type} `{Scalar T}.
Variable uninit : nat -> T.

(** [std::sort] as instantiated at the call site; the algorithm belongs
    to the C++ standard library.  The call sorts the vector in place and
    returns, or is undefined. *)
Variable std_sort : list (nat * T) -> outcome (list (nat * T)).

(** The comparator passed to [std::sort]:
    [bind(&pair::second, _1) > bind(&pair::second, _2)]. *)
Definition eigen_comp (a b : nat * T) : Prop := s_gt a.2 b.2.

(** The vector of (index, eigenvalue) pairs: [n_elem] value-initialised
    pairs, then one assignment per index.  (The index is stored as [int];
    vector lengths stay below [2^31].) *)
Definition indexed_eigenvalues (kernel_eigenvalues_in : Vec T)
    : outcome (list (nat * T)) :=
  for_loop (length kernel_eigenvalues_in) (fun i sorted_eigenvalues =>
    x ← checked (kernel_eigenvalues_in !! i);
    if decide (i < length sorted_eigenvalues)
    then Ok (<[i := (i, x)]> sorted_eigenvalues)
    else Undefined)
    (replicate (length kernel_eigenvalues_in) (0, s_zero)).

(** The state threaded through the function is the object it is called
    on.  [kernel_eigenvalues_in] is read for the last time before the
    first member is written (lines 158-164), so it is read once;
    [covariance_eigenvectors_in] is read after each of the two [set_size]
    calls and inside the loops, each time as the object it is bound to
    stands.  The bounds of the two loops are its [n_cols] and [n_rows],
    which the stores of the loops do not change. *)
Definition set_eigendecomposition_results
    (kernel_eigenvalues_in : vec_ref T) (covariance_eigenvectors_in : mat_ref T)
    (r : KpcaResult T) : outcome (KpcaResult T) :=
  pairs ← indexed_eigenvalues (read_vec kernel_eigenvalues_in r);
  sorted_eigenvalues ← std_sort pairs;
  let r :=
    with_eigen r
      (vec_set_size uninit (n_cols (read_mat covariance_eigenvectors_in r))
         (kernel_eigenvalues_ r))
      (covariance_eigenvectors_ r) in
  let r :=
    with_eigen r (kernel_eigenvalues_ r)
      (mat_set_size uninit (n_rows (read_mat covariance_eigenvectors_in r))
         (n_cols (read_mat covariance_eigenvectors_in r))
         (covariance_eigenvectors_ r)) in
  for_loop (n_cols (read_mat covariance_eigenvectors_in r)) (fun i r =>
    p ← checked (sorted_eigenvalues !! i);
    vals ← vec_set (kernel_eigenvalues_ r) i p.2;
    let r := with_eigen r vals (covariance_eigenvectors_ r) in
    for_loop (n_rows (read_mat covariance_eigenvectors_in r)) (fun j r =>
      q ← checked (sorted_eigenvalues !! i);
      x ← mat_at (read_mat covariance_eigenvectors_in r) j q.1;
      vecs ← mat_set (covariance_eigenvectors_ r) j i x;
      Ok (with_eigen r (kernel_eigenvalues_ r) vecs)) r) r.

End Eigen.

(** ** std::sort as libstdc++ implements it

    The C++ standard leaves the order of equivalent elements open; what a
    program does with tied eigenvalues is decided by the library it is
    built with.  To run the code on concrete inputs, [std::sort] is
    transcribed from libstdc++ (bits/stl_algo.h and bits/stl_heap.h of
    GCC 12): an introspective sort, which partitions around a median of
    three while a range holds more than 16 elements, falls back to a heap
    sort when the depth limit is used up, and finishes with an insertion
    sort.

    The range is the whole vector and an iterator is a position in it;
    dereferencing outside the vector is undefined.  The functions whose
    names start with [__unguarded] rely on a sentinel to stop, as in the
    library. *)
Module libstdcxx.
Section Sort.
Context {A : Type}.

(** The comparison object, [__comp(x, y)]. *)
Variable __comp : A -> A -> bool.

(** [*i] as an rvalue, and [*i = x]. *)
Definition deref (v : list A) (i : nat) : outcome A := checked (v !! i).

Definition assign (v : list A) (i : nat) (x : A) : outcome (list A) :=
  if decide (i < length v) then Ok (<[i := x]> v) else Undefined.

(** [std::iter_swap(a, b)]. *)
Definition iter_swap (a b : nat) (v : list A) : outcome (list A) :=
  x ← deref v a; y ← deref v b; v ← assign v a y; assign v b x.

(** Swaps the median of [*a], [*b], [*c] to [*result]. *)
Definition __move_median_to_first (result a b c : nat) (v : list A)
    : outcome (list A) :=
  xa ← deref v a; xb ← deref v b; xc ← deref v c;
  if __comp xa xb then
    if __comp xb xc then iter_swap result b v
    else if __comp xa xc then iter_swap result c v
    else iter_swap result a v
  else if __comp xa xc then iter_swap result a v
  else if __comp xb xc then iter_swap result c v
  else iter_swap result b v.

(** The loop of [__unguarded_linear_insert]: [next] is [last - 1];
    decrementing an iterator at the start of the vector is undefined. *)
Fixpoint __unguarded_linear_insert_loop (val : A) (last : nat) (v : list A)
    : outcome (list A) :=
  match last with
  | 0 => Undefined
  | S next =>
      x ← deref v next;
      if __comp val x
      then v ← assign v last x; __unguarded_linear_insert_loop val next v
      else assign v last val
  end.

Definition __unguarded_linear_insert (last : nat) (v : list A)
    : outcome (list A) :=
  val ← deref v last; __unguarded_linear_insert_loop val last v.

(** [std::move_backward(first, last, d_last)]: the elements of
    [first, last) are moved, last one first, to the range that ends at
    [d_last]. *)
Definition move_backward (first last d_last : nat) (v : list A)
    : outcome (list A) :=
  for_loop (last - first) (fun k v =>
    x ← deref v (last - 1 - k); assign v (d_last - 1 - k) x) v.

Definition __insertion_sort (first last : nat) (v : list A)
    : outcome (list A) :=
  if decide (first = last) then Ok v
  else
    for_loop (last - (first + 1)) (fun k v =>
      let i := first + 1 + k in
      xi ← deref v i; xfirst ← deref v first;
      if __comp xi xfirst
      then v ← move_backward first i (i + 1) v; assign v first xi
      else __unguarded_linear_insert i v) v.

Definition __unguarded_insertion_sort (first last : nat) (v : list A)
    : outcome (list A) :=
  for_loop (last - first) (fun k v => __unguarded_linear_insert (first + k) v) v.

Definition _S_threshold : nat := 16.

Definition __final_insertion_sort (first last : nat) (v : list A)
    : outcome (list A) :=
  if decide (_S_threshold < last - first)
  then
    v ← __insertion_sort first (first + _S_threshold) v;
    __unguarded_insertion_sort (first + _S_threshold) last v
  else __insertion_sort first last v.

(** [while (__comp(__first, __pivot)) ++__first;] over the elements from
    [first] on: running off the end of the vector is undefined. *)
Fixpoint scan_up (pivot : A) (from_first : list A) (first : nat) : outcome nat :=
  match from_first with
  | [] => Undefined
  | x :: rest => if __comp x pivot then scan_up pivot rest (S first) else Ok first
  end.

(** [while (__comp(__pivot, __last)) --__last;]. *)
Fixpoint scan_down (pivot : A) (v : list A) (last : nat) : outcome nat :=
  x ← deref v last;
  if __comp pivot x
  then match last with
       | 0 => Undefined
       | S last' => scan_down pivot v last'
       end
  else Ok last.

(** The [while (true)] loop of [__unguarded_partition].  Every round
    moves [last] down by at least one, so [rounds], taken as the initial
    [last], is never used up. *)
Fixpoint __unguarded_partition_loop (rounds : nat) (first last pivot : nat)
    (v : list A) : outcome (nat * list A) :=
  match rounds with
  | 0 => Undefined
  | S rounds =>
      p ← deref v pivot;
      first ← scan_up p (drop first v) first;
      match last with
      | 0 => Undefined
      | S last =>
          p ← deref v pivot;
          last ← scan_down p v last;
          if decide (first < last)
          then v ← iter_swap first last v;
               __unguarded_partition_loop rounds (S first) last pivot v
          else Ok (first, v)
      end
  end.

Definition __unguarded_partition (first last pivot : nat) (v : list A)
    : outcome (nat * list A) :=
  __unguarded_partition_loop last first last pivot v.

Definition __unguarded_partition_pivot (first last : nat) (v : list A)
    : outcome (nat * list A) :=
  let mid := first + (last - first) / 2 in
  v ← __move_median_to_first first (first + 1) mid (last - 1) v;
  __unguarded_partition (first + 1) last first v.

(** *** The heap sort of bits/stl_heap.h

    Distances are signed ([ptrdiff_t]); division truncates. *)

(** The loop of [__push_heap]; the hole moves up at every round. *)
Fixpoint __push_heap_loop (rounds : nat) (first : nat) (holeIndex topIndex : Z)
    (value : A) (v : list A) : outcome (list A) :=
  let parent := ((holeIndex - 1) ÷ 2)%Z in
  match rounds with
  | 0 => Undefined
  | S rounds =>
      if decide (topIndex < holeIndex)%Z
      then
        x ← deref v (first + Z.to_nat parent);
        if __comp x value
        then v ← assign v (first + Z.to_nat holeIndex) x;
             __push_heap_loop rounds first parent topIndex value v
        else assign v (first + Z.to_nat holeIndex) value
      else assign v (first + Z.to_nat holeIndex) value
  end.

Definition __push_heap (first : nat) (holeIndex topIndex : Z) (value : A)
    (v : list A) : outcome (list A) :=
  __push_heap_loop (S (Z.to_nat holeIndex)) first holeIndex topIndex value v.

(** The first loop of [__adjust_heap]; the state is [holeIndex],
    [secondChild] and the vector. *)
Fixpoint __adjust_heap_loop (rounds : nat) (first : nat) (len : Z)
    (holeIndex secondChild : Z) (v : list A) : outcome (Z * Z * list A) :=
  match rounds with
  | 0 => Undefined
  | S rounds =>
      if decide (secondChild < (len - 1) ÷ 2)%Z
      then
        let secondChild := (2 * (secondChild + 1))%Z in
        x ← deref v (first + Z.to_nat secondChild);
        y ← deref v (first + Z.to_nat (secondChild - 1));
        let secondChild := if __comp x y then (secondChild - 1)%Z else secondChild in
        z ← deref v (first + Z.to_nat secondChild);
        v ← assign v (first + Z.to_nat holeIndex) z;
        __adjust_heap_loop rounds first len secondChild secondChild v
      else Ok (holeIndex, secondChild, v)
  end.

Definition __adjust_heap (first : nat) (holeIndex len : Z) (value : A)
    (v : list A) : outcome (list A) :=
  let topIndex := holeIndex in
  '(holeIndex, secondChild, v) ←
    __adjust_heap_loop (S (Z.to_nat len)) first len holeIndex holeIndex v;
  '(holeIndex, v) ←
    (if decide (Z.land len 1 = 0 /\ secondChild = (len - 2) ÷ 2)%Z
     then
       let secondChild := (2 * (secondChild + 1))%Z in
       x ← deref v (first + Z.to_nat (secondChild - 1));
       v ← assign v (first + Z.to_nat holeIndex) x;
       Ok ((secondChild - 1)%Z, v)
     else Ok (holeIndex, v));
  __push_heap first holeIndex topIndex value v.

Definition __pop_heap (first last result : nat) (v : list A)
    : outcome (list A) :=
  value ← deref v result;
  x ← deref v first;
  v ← assign v result x;
  __adjust_heap first 0 (Z.of_nat last - Z.of_nat first) value v.

Definition __make_heap (first last : nat) (v : list A) : outcome (list A) :=
  if decide (Z.of_nat last - Z.of_nat first < 2)%Z then Ok v
  else
    let len := (Z.of_nat last - Z.of_nat first)%Z in
    let parent := ((len - 2) ÷ 2)%Z in
    for_loop (S (Z.to_nat parent)) (fun k v =>
      let parent := (parent - Z.of_nat k)%Z in
      value ← deref v (first + Z.to_nat parent);
      __adjust_heap first parent len value v) v.

Definition __sort_heap (first last : nat) (v : list A) : outcome (list A) :=
  for_loop (last - first - 1) (fun k v =>
    let last := last - 1 - k in
    __pop_heap first last last v) v.

Definition __heap_select (first middle last : nat) (v : list A)
    : outcome (list A) :=
  v ← __make_heap first middle v;
  for_loop (last - middle) (fun k v =>
    let i := middle + k in
    xi ← deref v i; xfirst ← deref v first;
    if __comp xi xfirst then __pop_heap first middle i v else Ok v) v.

Definition __partial_sort (first middle last : nat) (v : list A)
    : outcome (list A) :=
  v ← __heap_select first middle last v;
  __sort_heap first middle v.

(** *** The sort itself *)

(** Each round of the [while] loop and each recursive call lowers
    [depth_limit] by one. *)
Fixpoint __introsort_loop (depth_limit : nat) (first last : nat) (v : list A)
    : outcome (list A) :=
  if decide (_S_threshold < last - first)
  then
    match depth_limit with
    | 0 => __partial_sort first last last v
    | S depth_limit =>
        '(cut, v) ← __unguarded_partition_pivot first last v;
        v ← __introsort_loop depth_limit cut last v;
        __introsort_loop depth_limit first cut v
    end
  else Ok v.

Definition __sort (first last : nat) (v : list A) : outcome (list A) :=
  if decide (first <> last)
  then
    v ← __introsort_loop (Nat.log2 (last - first) * 2) first last v;
    __final_insertion_sort first last v
  else Ok v.

(** [std::sort(v.begin(), v.end(), comp)]. *)
Definition sort (v : list A) : outcome (list A) := __sort 0 (length v) v.
End Sort.
End libstdcxx.

(** The comparator of the call site on binary64, as a function. *)
Definition eigen_comp_binary64 (a b : nat * float) : bool :=
  PrimFloat.ltb b.2 a.2.

(** The program built with libstdc++. *)
Definition std_sort_libstdcxx (sorted_eigenvalues : list (nat * float))
    : outcome (list (nat * float)) :=
  libstdcxx.sort eigen_comp_binary64 sorted_eigenvalues.

(** ** Serialization *)

(** What [serialize] needs of a Boost archive: [ar & x] for a matrix and
    for a vector.  An output archive consumes the value; an input archive
    replaces it. *)
Class Archive (A T : Type) := {
  ar_mat : A -> Mat T -> outcome (A * Mat T);
  ar_vec : A -> Vec T -> outcome (A * Vec T);
}.

Definition serialize {A T} {archive : Archive A T} (ar : A) (version : nat)
    (r : KpcaResult T) : outcome (A * KpcaResult T) :=
  s0 ← ar_mat ar (kpca_projections_l_ r);
  s1 ← ar_mat s0.1 (kpca_projections_ r);
  s2 ← ar_mat s1.1 (kpca_projections_u_ r);
  s3 ← ar_vec s2.1 (kernel_eigenvalues_ r);
  s4 ← ar_mat s3.1 (covariance_eigenvectors_ r);
  Ok (s4.1, mkKpcaResult s0.2 s1.2 s2.2 s3.2 s4.2
              (reference_projections_ r) (kpca_components_ r)).

(** How a matrix or a vector is laid out in an archive is decided by the
    serialization library, not by kpca_result.h: the encoding is a
    parameter. *)
Record Codec (I T : Type) : Type := mkCodec {
  save_mat : Mat T -> list I;
  load_mat : list I -> option (Mat T * list I);
  save_vec : Vec T -> list I;
  load_vec : list I -> option (Vec T * list I);
}.
Arguments mkCodec {I T}.
Arguments save_mat {I T} c.
Arguments load_mat {I T} c.
Arguments save_vec {I T} c.
Arguments load_vec {I T} c.

(** Reading back what was written, whatever follows it in the archive. *)
Definition codec_roundtrip {I T} (cd : Codec I T) : Prop :=
  (forall m rest, mat_wf m ->
     load_mat cd (save_mat cd m ++ rest) = Some (m, rest)) /\
  (forall v rest, load_vec cd (save_vec cd v ++ rest) = Some (v, rest)).

(** An output archive: the items written so far. *)
Record oarchive (I : Type) : Type := mkOarchive { written : list I }.
Arguments mkOarchive {I}.
Arguments written {I} o.

(** An input archive: the items not yet read. *)
Record iarchive (I : Type) : Type := mkIarchive { pending : list I }.
Arguments mkIarchive {I}.
Arguments pending {I} i.

Definition oarchive_Archive {I T} (cd : Codec I T) : Archive (oarchive I) T := {|
  ar_mat ar m := Ok (mkOarchive (written ar ++ save_mat cd m), m);
  ar_vec ar v := Ok (mkOarchive (written ar ++ save_vec cd v), v);
|}.

Definition iarchive_Archive {I T} (cd : Codec I T) : Archive (iarchive I) T := {|
  ar_mat ar _ :=
    match load_mat cd (pending ar) with
    | Some (m, rest) => Ok (mkIarchive rest, m)
    | None => Raise ArchiveException
    end;
  ar_vec ar _ :=
    match load_vec cd (pending ar) with
    | Some (v, rest) => Ok (mkIarchive rest, v)
    | None => Raise ArchiveException
    end;
|}.

(** Modelled from the spec: the self-describing dense encoding of the
    wire format (the Boost/Armadillo glue is not among the sources): row
    count, column count, then the values; a vector is its length, then the
    values. *)
Inductive wire_item (T : Type) : Type :=
  | WSize (n : nat)
  | WValue (x : T).
Arguments WSize {T} n.
Arguments WValue {T} x.

Fixpoint read_values {T} (n : nat) (items : list (wire_item T))
    : option (list T * list (wire_item T)) :=
  match n with
  | O => Some ([], items)
  | S n' =>
      match items with
      | WValue x :: items' =>
          match read_values n' items' with
          | Some (xs, rest) => Some (x :: xs, rest)
          | None => None
          end
      | _ => None
      end
  end.

Definition wire_codec (T : Type) : Codec (wire_item T) T := {|
  save_mat m := WSize (n_rows m) :: WSize (n_cols m) :: (WValue <$> mem m);
  load_mat items :=
    match items with
    | WSize r :: WSize c :: items' =>
        match read_values (r * c) items' with
        | Some (xs, rest) => Some (mkMat r c xs, rest)
        | None => None
        end
    | _ => None
    end;
  save_vec v := WSize (length v) :: (WValue <$> v);
  load_vec items :=
    match items with
    | WSize n :: items' => read_values n items'
    | _ => None
    end;
|}.

(** ** Print *)

(** The part of the file system [Print] touches: the contents of the
    files, and which paths [fopen(path, "w+")] is able to open. *)
Record FileSystem : Type := mkFileSystem {
  fs_files : gmap string string;
  fs_can_open : string -> bool;
}.

(** A [FILE*]: the path it was opened on, or [NULL]. *)
Definition FILE : Type := option string.

(** [fopen(name, "w+")]: creates or truncates the file; [NULL] when the
    path cannot be opened. *)
Definition fopen_w (name : string) (fs : FileSystem) : FILE * FileSystem :=
  if fs_can_open fs name
  then (Some name, mkFileSystem (<[name := ""]> (fs_files fs)) (fs_can_open fs))
  else (None, fs).

(** [fprintf(stream, ...)] with the formatted text; a null stream is
    undefined behaviour. *)
Definition fprintf (stream : FILE) (text : string) (fs : FileSystem)
    : outcome FileSystem :=
  match stream with
  | Some name =>
      Ok (mkFileSystem
            (<[name := default "" (fs_files fs !! name) +:+ text]> (fs_files fs))
            (fs_can_open fs))
  | None => Undefined
  end.

(** [fclose(stream)]; a null stream is undefined behaviour. *)
Definition fclose (stream : FILE) (fs : FileSystem) : outcome FileSystem :=
  match stream with
  | Some _ => Ok fs
  | None => Undefined
  end.

Definition newline : string := String (Ascii.ascii_of_nat 10) "".

Section PrintDefs.
Context {T : Type}.

(** The text [printf] produces for ["%g"]; it belongs to the C library. *)
Variable format_g : T -> string.

(** One matrix written column by column: each cell followed by a space,
    each column by a line break. *)
Definition print_columns (stream : FILE) (m : Mat T) (fs : FileSystem)
    : outcome FileSystem :=
  for_loop (n_cols m) (fun i fs =>
    fs' ← for_loop (n_rows m) (fun j fs =>
            x ← mat_at m j i;
            fprintf stream (format_g x +:+ " ") fs) fs;
    fprintf stream newline fs') fs.

Definition Print (kpca_components_file_name kpca_projections_file_name : string)
    (r : KpcaResult T) (fs : FileSystem) : outcome FileSystem :=
  let '(file_output, fs) := fopen_w kpca_projections_file_name fs in
  fs ← print_columns file_output (kpca_projections_ r) fs;
  fs ← fclose file_output fs;
  let '(file_output, fs) := fopen_w kpca_components_file_name fs in
  fs ← print_columns file_output (kpca_components_ r) fs;
  fclose file_output fs.
End PrintDefs.

(** ** Preconditions and invariants used in the statements *)

Section Conditions.
Context {T : Type} `{Scalar T}.

(** The state [Init] and the constructor establish for the three bound
    matrices: each well formed, all of one shape. *)
Definition bounds_wf (r : KpcaResult T) : Prop :=
  mat_wf (kpca_projections_l_ r) /\ mat_wf (kpca_projections_ r) /\
  mat_wf (kpca_projections_u_ r) /\
  same_shape (kpca_projections_l_ r) (kpca_projections_ r) /\
  same_shape (kpca_projections_u_ r) (kpca_projections_ r).

(** The container has an entry at every pair of the result's extent. *)
Definition covers (kernel_sum : MeanVariancePairMatrix T) (r : KpcaResult T)
    : Prop :=
  forall k i, k < n_rows (kpca_projections_ r) ->
    i < n_cols (kpca_projections_ r) -> mv_in_extent kernel_sum k i.

(** Same dimensions and same amount of memory. *)
Definition same_layout (a b : Mat T) : Prop :=
  n_rows a = n_rows b /\ n_cols a = n_cols b /\
  length (mem a) = length (mem b).

(** Each pair of a list four times over: the log of one loop iteration
    per pair. *)
Definition four_reads (pairs : list (nat * nat)) : list (nat * nat) :=
  p ← pairs; [p; p; p; p].

(** The invariant of the loops of [Export] when columns below [i] are
    complete and column [i] is filled below row [k]. *)
Definition export_inv (num_standard_deviations mult_const correction_term_in : T)
    (kernel_sum : MeanVariancePairMatrix T) (r0 : KpcaResult T)
    (i k : nat) (st : export_state) : Prop :=
  let rows := n_rows (kpca_projections_ r0) in
  same_layout (kpca_projections_l_ st.1) (kpca_projections_l_ r0) /\
  same_layout (kpca_projections_ st.1) (kpca_projections_ r0) /\
  same_layout (kpca_projections_u_ st.1) (kpca_projections_u_ r0) /\
  kernel_eigenvalues_ st.1 = kernel_eigenvalues_ r0 /\
  covariance_eigenvectors_ st.1 = covariance_eigenvectors_ r0 /\
  reference_projections_ st.1 = reference_projections_ r0 /\
  kpca_components_ st.1 = kpca_components_ r0 /\
  (forall k' i', k' < rows -> i' < i \/ (i' = i /\ k' < k) ->
     mem (kpca_projections_l_ st.1) !! (k' + i' * rows)
       = Some (lower_of num_standard_deviations mult_const correction_term_in
                 (mv_entry kernel_sum k' i')) /\
     mem (kpca_projections_ st.1) !! (k' + i' * rows)
       = Some (center_of mult_const correction_term_in
                 (mv_entry kernel_sum k' i')) /\
     mem (kpca_projections_u_ st.1) !! (k' + i' * rows)
       = Some (upper_of num_standard_deviations mult_const correction_term_in
                 (mv_entry kernel_sum k' i'))) /\
  st.2 = four_reads (extent_pairs rows i ++ ((fun k' => (k', i)) <$> seq 0 k)).
End Conditions.

(** The variances [Export] reads are nonnegative. *)
Definition variances_nonneg (kernel_sum : MeanVariancePairMatrix R)
    (r : KpcaResult R) : Prop :=
  forall k i, k < n_rows (kpca_projections_ r) ->
    i < n_cols (kpca_projections_ r) ->
    (0 <= sample_mean_variance (mv_entry kernel_sum k i))%R.

(** The (original index, eigenvalue) pairs of an eigenvalue sequence. *)
Definition index_pairs {T} (kernel_eigenvalues_in : Vec T) : list (nat * T) :=
  imap (fun i x => (i, x)) kernel_eigenvalues_in.

(** Column [c'] of [m'] holds what column [c] of [m] holds, row by row. *)
Definition column_copied {T} (m : Mat T) (c : nat) (m' : Mat T) (c' : nat)
    : Prop :=
  forall j, j < n_rows m ->
    exists x, mat_at m j c = Ok x /\ mat_at m' j c' = Ok x.

(** The text of a matrix as [Print] lays it out: the cells of a column
    each followed by a space, each column followed by a line break. *)
Definition column_text {T} (format_g : T -> string) (m : Mat T) (i : nat)
    : string :=
  foldr (fun j text =>
           from_option (fun x => format_g x +:+ " ") ""
             (mem m !! (j + i * n_rows m)) +:+ text)
    newline (seq 0 (n_rows m)).

Definition matrix_text {T} (format_g : T -> string) (m : Mat T) : string :=
  foldr (fun i text => column_text format_g m i +:+ text) ""
    (seq 0 (n_cols m)).

(** Relative to [fs0], the file system [fs] differs at most in the file
    [name], which holds [content]. *)
Definition file_is (fs0 : FileSystem) (name content : string)
    (fs : FileSystem) : Prop :=
  fs_can_open fs = fs_can_open fs0 /\
  fs_files fs !! name = Some content /\
  forall other, other <> name -> fs_files fs !! other = fs_files fs0 !! other.

(** ** The scenario of the specification *)

(** Two components, one query point: the statistic at component 0 and the
    statistic at component 1. *)
Definition two_component_stats {T} (mean0 variance0 mean1 variance1 : T)
    : MeanVariancePairMatrix T :=
  mkMeanVariancePairMatrix 2 1 (fun k _ =>
    match k with
    | 0 => mkMeanVariancePair mean0 variance0
    | _ => mkMeanVariancePair mean1 variance1
    end).

(** The eigen scenario of the specification: eigenvalues [3, 9, 1] with
    eigenvector columns [v0 = (10, 11)], [v1 = (20, 21)], [v2 = (30, 31)]. *)
Definition three_eigenvalues : Vec float := [3; 9; 1]%float.

Definition three_eigenvectors : Mat float :=
  mkMat 2 3 [10; 11; 20; 21; 30; 31]%float.

(** Two equal eigenvalues, with eigenvector columns [v0 = (1)], [v1 = (2)]. *)
Definition tied_eigenvalues : Vec float := [5; 5]%float.

Definition tied_eigenvectors : Mat float := mkMat 1 2 [1; 2]%float.

(** A tie around a larger eigenvalue, columns [(1)], [(2)], [(3)]. *)
Definition split_tie_eigenvalues : Vec float := [3; 9; 3]%float.

Definition split_tie_eigenvectors : Mat float := mkMat 1 3 [1; 2; 3]%float.

(** A populated result: the bounds of the specification's scenario, an
    eigendecomposition, reference projections and components. *)
Definition populated_result : KpcaResult float :=
  (mkKpcaResult (mkMat 2 1 [6; 18]) (mkMat 2 1 [10; 20]) (mkMat 2 1 [14; 22])
     [9; 3] (mkMat 2 2 [20; 21; 10; 11])
     (mkMat 1 2 [7; 8]) (mkMat 2 1 [1; 0]))%float.

(** A file system in which nothing can be opened, and one in which
    everything can. *)
Definition closed_fs : FileSystem := mkFileSystem ∅ (fun _ => false).

Definition open_fs : FileSystem := mkFileSystem ∅ (fun _ => true).

(** Seventeen equal eigenvalues, with eigenvector columns
    [v0 = (100)], ..., [v16 = (116)]: one more than the 16 elements up to
    which libstdc++ sorts by insertion alone. *)
Definition seventeen_tied_eigenvalues : Vec float := replicate 17 5%float.

Definition seventeen_eigenvectors : Mat float :=
  mkMat 1 17 [100; 101; 102; 103; 104; 105; 106; 107; 108; 109; 110; 111;
              112; 113; 114; 115; 116]%float.

(** The order libstdc++ leaves the seventeen tied pairs in, by original
    index. *)
Definition seventeen_tied_order : list nat :=
  [8; 16; 15; 14; 13; 12; 11; 10; 9; 0; 7; 6; 5; 4; 3; 2; 1].

(** A result whose eigen fields hold the eigen scenario of the
    specification. *)
Definition eigen_scenario_result : KpcaResult float :=
  with_eigen KpcaResult_new three_eigenvalues three_eigenvectors.

(** ** Binary64 values as scaled integers

    The order properties of the bounds are also established on [binary64]
    itself, from the IEEE 754 specification of the primitive floats
    ([SpecFloat], [FloatAxioms]).  Every finite binary64 value is an
    integer multiple of [2^-1074]; the definitions below express rounding
    to nearest (ties to even) on those integers, so that comparing floats
    is comparing integers and rounding is a monotone function. *)

Section RoundingDefs.
Local Open Scope Z_scope.

(** Round to nearest, ties to even, of [M / 2^n]. *)
Definition rne (M n : Z) : Z :=
  if n <=? 0 then M
  else
    let q := M / 2 ^ n in
    match 2 * (M mod 2 ^ n) ?= 2 ^ n with
    | Lt => q
    | Eq => if Z.even q then q else q + 1
    | Gt => q + 1
    end.

(** Round to nearest, ties to even, of [M / N]. *)
Definition rne_grid (N M : Z) : Z :=
  let q := M / N in
  match 2 * (M mod N) ?= N with
  | Lt => q
  | Eq => if Z.even q then q else q + 1
  | Gt => q + 1
  end.

(** The exponent a positive mantissa [m] at exponent [e] is rounded at. *)
Definition E64 (m e : Z) : Z := Z.max (Zdigits2 m + e - 53) (-1074).

(** The float made of a rounded mantissa [m1] at exponent [E]. *)
Definition finish (s : bool) (m1 E : Z) : spec_float :=
  if m1 =? 0 then S754_zero s
  else if m1 =? 2 ^ 53 then
    if E + 1 <=? 971 then S754_finite s (2 ^ 52)%positive (E + 1)
    else S754_infinity s
  else
    if E <=? 971 then S754_finite s (Z.to_pos m1) E else S754_infinity s.

(** Every finite binary64 is an integer multiple of [2^-1074]; [cap]
    stands for infinity, above every finite float. *)
Definition cap : Z := 2 ^ 2098.

(** The value of a float in units of [2^-1074] (NaN is given 0; it is
    excluded wherever keys are compared). *)
Definition key (f : spec_float) : Z :=
  match f with
  | S754_zero _ => 0
  | S754_nan => 0
  | S754_infinity s => if s then - cap else cap
  | S754_finite s m e =>
      if s then - (Z.pos m * 2 ^ (e + 1074)) else Z.pos m * 2 ^ (e + 1074)
  end.

(** A magnitude with its sign bit. *)
Definition signed (s : bool) (k : Z) : Z := if s then - k else k.

(** Rounding of a positive value to binary64 precision, overflow aside:
    [V] is the exact value in units of [2^L]; the result is in units of
    [2^-1074]. *)
Definition KV (L V : Z) : Z :=
  let E := Z.max (Zdigits2 V + L - 53) (-1074) in
  rne V (E - L) * 2 ^ (E + 1074).

(** Rounding of a signed scaled value, overflow included. *)
Definition RK (L V : Z) : Z :=
  match V with
  | Z0 => 0
  | Zpos _ => Z.min (KV L V) cap
  | Zneg _ => - Z.min (KV L (- V)) cap
  end.

(** [f] is not NaN. *)
Definition not_nan (f : spec_float) : Prop := f <> S754_nan.

(** Sign bit clear, or a zero of either sign. *)
Definition nonneg (f : spec_float) : bool :=
  match f with
  | S754_zero _ => true
  | S754_finite false _ _ => true
  | S754_infinity false => true
  | _ => false
  end.

(** Sign bit set, or a zero of either sign. *)
Definition nonpos (f : spec_float) : bool :=
  match f with
  | S754_zero _ => true
  | S754_finite true _ _ => true
  | S754_infinity true => true
  | _ => false
  end.
End RoundingDefs.

(** [x] is a number: not NaN. *)
Definition is_number (x : float) : Prop := (x <=? x)%float = true.

(** [x <= y] on binary64, for values that are numbers: a comparison with
    NaN is false in IEEE 754, whatever the other side. *)
Definition le_binary64 (x y : float) : Prop :=
  is_number x -> is_number y -> (x <=? y)%float = true.

(** The variances [Export] reads are nonnegative, on binary64. *)
Definition variances_nonneg_binary64 (kernel_sum : MeanVariancePairMatrix float)
    (r : KpcaResult float) : Prop :=
  forall k i, k < n_rows (kpca_projections_ r) ->
    i < n_cols (kpca_projections_ r) ->
    (0 <=? sample_mean_variance (mv_entry kernel_sum k i))%float = true.

(** The three bound matrices of two results are the same. *)
Definition same_bounds {T} (r r' : KpcaResult T) : Prop :=
  kpca_projections_l_ r' = kpca_projections_l_ r /\
  kpca_projections_ r' = kpca_projections_ r /\
  kpca_projections_u_ r' = kpca_projections_u_ r.

(** The first two eigenvector columns of the eigen scenario, and the
    first one alone. *)
Definition two_eigenvectors : Mat float := mkMat 2 2 [10; 11; 20; 21]%float.

Definition one_eigenvector : Mat float := mkMat 2 1 [10; 11]%float.

(** The fields [serialize] passes to the archive are well formed. *)
Definition serialized_wf {T} (r : KpcaResult T) : Prop :=
  mat_wf (kpca_projections_l_ r) /\ mat_wf (kpca_projections_ r) /\
  mat_wf (kpca_projections_u_ r) /\ mat_wf (covariance_eigenvectors_ r).

(** Two results agree on the five fields [serialize] passes to the
    archive. *)
Definition same_serialized {T} (r1 r2 : KpcaResult T) : Prop :=
  kpca_projections_l_ r1 = kpca_projections_l_ r2 /\
  kpca_projections_ r1 = kpca_projections_ r2 /\
  kpca_projections_u_ r1 = kpca_projections_u_ r2 /\
  kernel_eigenvalues_ r1 = kernel_eigenvalues_ r2 /\
  covariance_eigenvectors_ r1 = covariance_eigenvectors_ r2.

(** A result saved on its own: the archive an output archive holds after
    [serialize], started empty. *)
Definition saved {I T} (cd : Codec I T) (version : nat) (r : KpcaResult T)
    : outcome (list I) :=
  out ← serialize (archive := oarchive_Archive cd) (mkOarchive []) version r;
  Ok (written out.1).

(** The text [Print] is expected to leave in the projections file after
    an [Export]: for every query point a line with the centers of its
    components, in order, each followed by a space. *)
Definition center_line {T} `{Scalar T} (format_g : T -> string)
    (mult_const correction_term_in : T) (kernel_sum : MeanVariancePairMatrix T)
    (components i : nat) : string :=
  foldr (fun k text =>
           (format_g (center_of mult_const correction_term_in
                        (mv_entry kernel_sum k i)) +:+ " ") +:+ text)
    newline (seq 0 components).

Definition center_text {T} `{Scalar T} (format_g : T -> string)
    (mult_const correction_term_in : T) (kernel_sum : MeanVariancePairMatrix T)
    (components query_points : nat) : string :=
  foldr (fun i text =>
           center_line format_g mult_const correction_term_in kernel_sum
             components i +:+ text)
    "" (seq 0 query_points).

Section RoundingKinds.
Local Open Scope Z_scope.

(** A zero or a finite nonzero float. *)
Definition finite_or_zero (f : spec_float) : bool :=
  match f with
  | S754_zero _ | S754_finite _ _ _ => true
  | _ => false
  end.
End RoundingKinds.

(** ** The decision stump program (decision_stump_main.cpp)

    [mlpackMain] validates its command-line parameters, trains a decision
    stump or loads one, classifies a test set if there is one, and stores
    the outputs that were asked for.  Training, classification and label
    normalisation belong to the library (decision_stump.hpp,
    normalize_labels.hpp and Armadillo are not among the sources): they
    are parameters of the embedding, and what is embedded is the control
    and data flow of [mlpackMain] around them. *)

(** What the program writes to the log streams and timers, other than
    the fatal message it may end with. *)
Inductive event : Type :=
  | Warn (message : string)
  | Info (message : string)
  | TimerStart (name : string)
  | TimerStop (name : string).

(** How a run ends: it returns; [Log::Fatal] ends it (the stream throws
    once the message is complete); or a library call does not return (an
    exception of its own, or undefined behaviour). *)
Inductive ending (A : Type) : Type :=
  | Returns (a : A)
  | Fatal (message : string)
  | Aborted.
Arguments Returns {A} a.
Arguments Fatal {A} message.
Arguments Aborted {A}.

(** A computation of the program: from the events so far to its ending
    and the events then. *)
Definition run (A : Type) : Type := list event -> ending A * list event.

#[export] Instance run_ret : MRet run := fun A a events => (Returns a, events).
#[export] Instance run_bind : MBind run := fun A B f m events =>
  match m events with
  | (Returns a, events') => f a events'
  | (Fatal message, events') => (Fatal message, events')
  | (Aborted, events') => (Aborted, events')
  end.

(** [Log::Warn << ...], [Log::Info << ...], [Timer::Start(...)],
    [Timer::Stop(...)]. *)
Definition emit (e : event) : run unit := fun events => (Returns tt, events ++ [e]).

(** [Log::Fatal << ... << endl]. *)
Definition fatal {A} (message : string) : run A := fun events => (Fatal message, events).

(** A library call: it returns a value or does not return. *)
Definition call {A} (result : option A) : run A := fun events =>
  match result with
  | Some a => (Returns a, events)
  | None => (Aborted, events)
  end.

(** [if (condition) action;] *)
Definition when (condition : bool) (action : run unit) : run unit :=
  if condition then action else mret tt.

(** [size_t] is a 64-bit unsigned word: conversions and arithmetic wrap. *)
Definition size_t_of_int (z : Z) : nat := Z.to_nat (z mod 2 ^ 64).

Definition size_t_pred (n : nat) : nat :=
  Z.to_nat ((Z.of_nat n - 1) mod 2 ^ 64).

Definition size_t_succ (n : nat) : nat :=
  Z.to_nat ((Z.of_nat n + 1) mod 2 ^ 64).

(** The library as [mlpackMain] uses it.  [Train] and [Classify] are
    members of [DecisionStump<>]; [row], [shed_row], [conv_to] and [max]
    are Armadillo's. *)
Record StumpLibrary (T : Type) : Type := mkStumpLibrary {
  DecisionStump : Type;
  (** [DecisionStump<>()] *)
  stump_default : DecisionStump;
  SplitDimension : DecisionStump -> nat;
  (** [stump.Train(data, labels, classes, bucketSize)]: the trained stump *)
  Train : DecisionStump -> Mat T -> list nat -> nat -> nat -> option DecisionStump;
  (** [stump.Classify(test, predictedLabels)]: the predicted labels *)
  Classify : DecisionStump -> Mat T -> option (list nat);
  (** [data::NormalizeLabels(labelsIn, labels, mappings)]: labels, mappings *)
  NormalizeLabels : list nat -> option (list nat * list nat);
  (** [data::RevertLabels(labels, mappings, labelsOut)] *)
  RevertLabels : list nat -> list nat -> option (list nat);
  (** [conv_to<Row<size_t>>::from(m.row(i))] *)
  row_as_labels : Mat T -> nat -> option (list nat);
  (** [m.shed_row(i)] *)
  shed_row : Mat T -> nat -> option (Mat T);
  (** [labels.max()] *)
  labels_max : list nat -> option nat;
  (** [stream << n] for a [size_t] *)
  show_size_t : nat -> string;
}.
Arguments DecisionStump {T} s.
Arguments stump_default {T} s.
Arguments SplitDimension {T} s _.
Arguments Train {T} s _ _ _ _ _.
Arguments Classify {T} s _ _.
Arguments NormalizeLabels {T} s _.
Arguments RevertLabels {T} s _ _.
Arguments row_as_labels {T} s _ _.
Arguments shed_row {T} s _ _.
Arguments labels_max {T} s _.
Arguments show_size_t {T} s _.

(** [DSModel]: the label mappings and the stump. *)
Record DSModel {T : Type} (lib : StumpLibrary T) : Type := mkDSModel {
  mappings : list nat;
  stump : DecisionStump lib;
}.
Arguments mkDSModel {T lib}.
Arguments mappings {T lib} d.
Arguments stump {T lib} d.

(** The parameters as [CLI] holds them when [mlpackMain] starts: an input
    parameter that was passed holds its value; for an output parameter
    what matters is whether it was passed ([CLI::HasParam]). *)
Record Params {T : Type} (lib : StumpLibrary T) : Type := mkParams {
  param_training : option (Mat T);
  param_labels : option (list nat);
  param_test : option (Mat T);
  param_input_model : option (DSModel lib);
  (** an [int], 6 unless passed *)
  param_bucket_size : Z;
  has_predictions : bool;
  has_output_model : bool;
}.
Arguments mkParams {T lib}.
Arguments param_training {T lib} p.
Arguments param_labels {T lib} p.
Arguments param_test {T lib} p.
Arguments param_input_model {T lib} p.
Arguments param_bucket_size {T lib} p.
Arguments has_predictions {T lib} p.
Arguments has_output_model {T lib} p.

(** The output parameters [mlpackMain] has assigned when it returns. *)
Record Outputs {T : Type} (lib : StumpLibrary T) : Type := mkOutputs {
  predictions : option (list nat);
  output_model : option (DSModel lib);
}.
Arguments mkOutputs {T lib}.
Arguments predictions {T lib} o.
Arguments output_model {T lib} o.

(** The fatal messages, up to the closing [endl]. *)
Definition both_given : string :=
  "Both --training_file and --input_model_file are specified, but a trained model cannot be retrained.  Only one of these options may be specified.".

Definition neither_given : string :=
  "Neither --training_file nor --input_model_file are given; one must be specified.".

Definition no_output : string :=
  "Neither --output_model_file nor --predictions_file are specified; no results will be saved!".

Definition too_few_dimensions {T} (lib : StumpLibrary T)
    (n_rows split_dimension : nat) : string :=
  "Test data dimensionality (" +:+ show_size_t lib n_rows +:+ ") "
    +:+ "is too low; the trained stump requires at least "
    +:+ show_size_t lib split_dimension +:+ " dimensions!".

Section Main.
Context {T : Type} (lib : StumpLibrary T).

(** Lines 128-164: train a new stump, or take the one that was passed. *)
Definition obtain_model (cli : Params lib) : run (DSModel lib) :=
  match param_training cli with
  | Some trainingData =>
      data ← match param_labels cli with
             | Some labelsIn => mret (trainingData, labelsIn)
             | None =>
                 emit (Info "Using the last dimension of training set as labels.");;
                 labelsIn ← call (row_as_labels lib trainingData
                                    (size_t_pred (n_rows trainingData)));
                 trainingData ← call (shed_row lib trainingData
                                        (size_t_pred (n_rows trainingData)));
                 mret (trainingData, labelsIn)
             end;
      normalized ← call (NormalizeLabels lib data.2);
      let bucketSize := size_t_of_int (param_bucket_size cli) in
      largest ← call (labels_max lib normalized.1);
      let classes := size_t_succ largest in
      emit (TimerStart "training");;
      trained ← call (Train lib (stump_default lib) data.1 normalized.1
                        classes bucketSize);
      emit (TimerStop "training");;
      mret (mkDSModel normalized.2 trained)
  | None => call (param_input_model cli)
  end.

(** Lines 166-191: classify the test set, if there is one. *)
Definition classify_test (cli : Params lib) (model : DSModel lib)
    : run (option (list nat)) :=
  match param_test cli with
  | Some testingData =>
      when (n_rows testingData <=? SplitDimension lib (stump model))
        (fatal (too_few_dimensions lib (n_rows testingData)
                  (SplitDimension lib (stump model))));;
      emit (TimerStart "testing");;
      predictedLabels ← call (Classify lib (stump model) testingData);
      emit (TimerStop "testing");;
      if has_predictions cli
      then actualLabels ← call (RevertLabels lib predictedLabels (mappings model));
           mret (Some actualLabels)
      else mret None
  | None => mret None
  end.

Definition mlpackMain (cli : Params lib) : run (Outputs lib) :=
  when (bool_decide (is_Some (param_training cli))
        && bool_decide (is_Some (param_input_model cli)))
    (fatal both_given);;
  when (negb (bool_decide (is_Some (param_training cli)))
        && negb (bool_decide (is_Some (param_input_model cli))))
    (fatal neither_given);;
  when (negb (has_output_model cli) && negb (has_predictions cli))
    (emit (Warn no_output));;
  model ← obtain_model cli;
  predicted ← classify_test cli model;
  mret (mkOutputs predicted
          (if has_output_model cli then Some model else None)).
End Main.

(** A stand-in library to run the program with, over integer data: a
    stump is its split dimension, training yields dimension 0, every
    point is classified 0, labels are left as they are, and rows are
    taken from column-major memory. *)
Definition toy_row (m : Mat nat) (i : nat) : option (list nat) :=
  if decide (i < n_rows m)
  then Some ((fun c => default 0 (mem m !! (i + c * n_rows m))) <$> seq 0 (n_cols m))
  else None.

Definition toy_shed_row (m : Mat nat) (i : nat) : option (Mat nat) :=
  if decide (i < n_rows m)
  then Some (mkMat (n_rows m - 1) (n_cols m)
               (c ← seq 0 (n_cols m); r ← seq 0 (n_rows m);
                if decide (r = i) then []
                else [default 0 (mem m !! (r + c * n_rows m))]))
  else None.

Definition toy_library : StumpLibrary nat := {|
  DecisionStump := nat;
  stump_default := 0;
  SplitDimension := fun s => s;
  Train := fun _ _ _ _ _ => Some 0;
  Classify := fun _ test => Some (replicate (n_cols test) 0);
  NormalizeLabels := fun labelsIn => Some (labelsIn, []);
  RevertLabels := fun labels _ => Some labels;
  row_as_labels := toy_row;
  shed_row := toy_shed_row;
  labels_max := fun labels => Some (foldr Nat.max 0 labels);
  show_size_t := fun _ => "n";
|}.

(** A stump that splits on dimension 1, with its label mappings. *)
Definition toy_model : DSModel toy_library :=
  mkDSModel (lib := toy_library) [7; 9] (1 : nat).

(** Parameters that pass a model and a test set. *)
Definition load_and_test (test : Mat nat) (predictions output_model : bool)
    : Params toy_library :=
  mkParams None None (Some test) (Some toy_model) 6 predictions output_model.

(** ** DSModel::serialize *)

(** What [DSModel::serialize] needs of a Boost archive: [ar & x] for the
    mappings (an [arma::Col<size_t>]) and for the stump, each wrapped in
    a name-value pair. *)
Class ModelArchive (A : Type) {T : Type} (lib : StumpLibrary T) := {
  ar_mappings : A -> string -> list nat -> outcome (A * list nat);
  ar_stump : A -> string -> DecisionStump lib -> outcome (A * DecisionStump lib);
}.

Definition DSModel_serialize {A T} {lib : StumpLibrary T}
    {archive : ModelArchive A lib} (ar : A) (version : nat)
    (model : DSModel lib) : outcome (A * DSModel lib) :=
  s0 ← ar_mappings ar "mappings" (mappings model);
  s1 ← ar_stump s0.1 "stump" (stump model);
  Ok (s1.1, mkDSModel s0.2 s1.2).

(** The encoding of the two members belongs to the serialization
    library and to the stump's own [serialize]: a parameter. *)
Record ModelCodec (I : Type) {T : Type} (lib : StumpLibrary T) : Type := mkModelCodec {
  save_mappings : string -> list nat -> list I;
  load_mappings : string -> list I -> option (list nat * list I);
  save_stump : string -> DecisionStump lib -> list I;
  load_stump : string -> list I -> option (DecisionStump lib * list I);
}.
Arguments mkModelCodec {I T lib}.
Arguments save_mappings {I T lib} m.
Arguments load_mappings {I T lib} m.
Arguments save_stump {I T lib} m.
Arguments load_stump {I T lib} m.

(** Reading back, under the name it was written with, what was written,
    whatever follows it in the archive. *)
Definition model_codec_roundtrip {I T} {lib : StumpLibrary T}
    (cd : ModelCodec I lib) : Prop :=
  (forall name v rest,
     load_mappings cd name (save_mappings cd name v ++ rest) = Some (v, rest)) /\
  (forall name s rest,
     load_stump cd name (save_stump cd name s ++ rest) = Some (s, rest)).

Definition oarchive_ModelArchive {I T} {lib : StumpLibrary T}
    (cd : ModelCodec I lib) : ModelArchive (oarchive I) lib := {|
  ar_mappings ar name v := Ok (mkOarchive (written ar ++ save_mappings cd name v), v);
  ar_stump ar name s := Ok (mkOarchive (written ar ++ save_stump cd name s), s);
|}.

Definition iarchive_ModelArchive {I T} {lib : StumpLibrary T}
    (cd : ModelCodec I lib) : ModelArchive (iarchive I) lib := {|
  ar_mappings ar name _ :=
    match load_mappings cd name (pending ar) with
    | Some (v, rest) => Ok (mkIarchive rest, v)
    | None => Raise ArchiveException
    end;
  ar_stump ar name _ :=
    match load_stump cd name (pending ar) with
    | Some (s, rest) => Ok (mkIarchive rest, s)
    | None => Raise ArchiveException
    end;
|}.

(** An encoding for the stand-in library: the name, the length, the
    labels; the name and the split dimension. *)
Inductive model_item : Type :=
  | MName (name : string)
  | MNumber (n : nat).

Fixpoint read_numbers (n : nat) (items : list model_item)
    : option (list nat * list model_item) :=
  match n with
  | O => Some ([], items)
  | S n' =>
      match items with
      | MNumber x :: items' =>
          match read_numbers n' items' with
          | Some (xs, rest) => Some (x :: xs, rest)
          | None => None
          end
      | _ => None
      end
  end.

Definition toy_codec : ModelCodec model_item toy_library :=
  mkModelCodec (lib := toy_library)
    (fun name v => MName name :: MNumber (length v) :: (MNumber <$> v))
    (fun name items =>
       match items with
       | MName name' :: MNumber n :: items' =>
           if decide (name' = name) then read_numbers n items' else None
       | _ => None
       end)
    (fun name (s : nat) => [MName name; MNumber s])
    (fun name items =>
       match items with
       | MName name' :: MNumber s :: rest =>
           if decide (name' = name) then Some (s, rest) else None
       | _ => None
       end).

(** * Properties *)

(** ** Outcomes and loops *)

Lemma bind_Ok {A B} (f : A -> outcome B) (a : A) : Ok a ≫= f = f a.
Proof. reflexivity. Qed.

Lemma bind_Ok_inv {A B} (f : A -> outcome B) (m : outcome A) (b : B) :
  m ≫= f = Ok b -> exists a, m = Ok a /\ f a = Ok b.
Proof. destruct m as [a| |]; cbn; intros Hm; try discriminate. eauto. Qed.

Lemma bind_Raise_inv {A B} (f : A -> outcome B) (m : outcome A) (e : error) :
  m ≫= f = Raise e -> m = Raise e \/ exists a, m = Ok a /\ f a = Raise e.
Proof.
  destruct m as [a|e'|]; cbn; intros Hm; try discriminate.
  - right. eauto.
  - left. congruence.
Qed.

Lemma checked_Ok_inv {A} (o : option A) (a : A) :
  checked o = Ok a -> o = Some a.
Proof. destruct o; cbn; congruence. Qed.

Lemma checked_no_raise {A} (o : option A) (e : error) : checked o <> Raise e.
Proof. destruct o; cbn; congruence. Qed.

Lemma for_loop_from_snoc {S} (body : nat -> S -> outcome S) (n start : nat) (s : S) :
  for_loop_from start (Datatypes.S n) body s
  = for_loop_from start n body s ≫= body (start + n).
Proof.
  revert start s. induction n as [|n IH]; intros start s.
  - cbn. rewrite Nat.add_0_r. destruct (body start s); reflexivity.
  - change (for_loop_from start (Datatypes.S (Datatypes.S n)) body s)
      with (body start s ≫= for_loop_from (Datatypes.S start) (Datatypes.S n) body).
    change (for_loop_from start (Datatypes.S n) body s)
      with (body start s ≫= for_loop_from (Datatypes.S start) n body).
    destruct (body start s) as [s'| |]; [|reflexivity..].
    rewrite !bind_Ok, IH. replace (Datatypes.S start + n) with (start + Datatypes.S n) by lia.
    reflexivity.
Qed.

Lemma for_loop_S {S} (body : nat -> S -> outcome S) (n : nat) (s : S) :
  for_loop (Datatypes.S n) body s = for_loop n body s ≫= body n.
Proof. unfold for_loop. rewrite for_loop_from_snoc. reflexivity. Qed.

(** The loop rule: an invariant kept by every iteration holds at exit, and
    the loop completes. *)
Lemma for_loop_rule {S} (Inv : nat -> S -> Prop) (body : nat -> S -> outcome S)
    (n : nat) (s : S) :
  Inv 0 s ->
  (forall j t, j < n -> Inv j t -> exists t', body j t = Ok t' /\ Inv (Datatypes.S j) t') ->
  exists t, for_loop n body s = Ok t /\ Inv n t.
Proof.
  intros H0 Hstep. induction n as [|n IH].
  - exists s. split; [reflexivity|assumption].
  - destruct IH as (t & Ht & Hinv).
    { intros j u Hj. apply Hstep. lia. }
    destruct (Hstep n t) as (t' & Hb & Hinv'); [lia|assumption|].
    exists t'. rewrite for_loop_S, Ht. split; assumption.
Qed.

(** A loop that completed ran every iteration to completion. *)
Lemma for_loop_Ok_inv {S} (body : nat -> S -> outcome S) (n : nat) (s t : S) :
  for_loop n body s = Ok t ->
  forall j, j < n ->
    exists u u', for_loop j body s = Ok u /\ body j u = Ok u'.
Proof.
  revert t. induction n as [|n IH]; intros t Hn j Hj; [lia|].
  rewrite for_loop_S in Hn. apply bind_Ok_inv in Hn as (u & Hu & Hb).
  destruct (decide (j = n)) as [->|Hne].
  - eauto.
  - apply (IH u Hu). lia.
Qed.

(** A loop raises only if its body does. *)
Lemma for_loop_no_raise {S} (body : nat -> S -> outcome S) (n : nat) (s : S) (e : error) :
  (forall j t, body j t <> Raise e) -> for_loop n body s <> Raise e.
Proof.
  intros Hbody. induction n as [|n IH]; [discriminate|].
  rewrite for_loop_S. intros Hr.
  apply bind_Raise_inv in Hr as [Hr|(u & _ & Hr)]; [auto|].
  exact (Hbody _ _ Hr).
Qed.

(** A property kept by every completed iteration holds when the loop
    completes. *)
Lemma for_loop_preserves {S} (P : S -> Prop) (body : nat -> S -> outcome S)
    (n : nat) (s t : S) :
  (forall j u u', body j u = Ok u' -> P u -> P u') ->
  for_loop n body s = Ok t -> P s -> P t.
Proof.
  intros Hbody. revert t. induction n as [|n IH]; intros t Hrun Hs.
  - injection Hrun as <-. exact Hs.
  - rewrite for_loop_S in Hrun. apply bind_Ok_inv in Hrun as (u & Hu & Hb).
    exact (Hbody n u t Hb (IH u Hu Hs)).
Qed.

(** A loop whose body cannot raise and cannot complete at some iteration
    is undefined. *)
Lemma for_loop_undefined {S} (body : nat -> S -> outcome S) (n j : nat) (s : S) :
  j < n -> (forall e i t, body i t <> Raise e) ->
  (forall t t', for_loop j body s = Ok t -> body j t <> Ok t') ->
  for_loop n body s = Undefined.
Proof.
  intros Hj Hraise Hstuck.
  destruct (for_loop n body s) as [t|e|] eqn:Hrun; [| |reflexivity].
  - destruct (for_loop_Ok_inv _ _ _ _ Hrun j Hj) as (u & u' & Hu & Hb).
    destruct (Hstuck u u' Hu Hb).
  - destruct (for_loop_no_raise body n s e (Hraise e) Hrun).
Qed.

(** The same, when iteration [j] cannot complete from the states an
    invariant of the loop allows. *)
Lemma for_loop_undefined_at {S} (Inv : S -> Prop)
    (body : nat -> S -> outcome S) (n j : nat) (s : S) :
  j < n -> (forall e i t, body i t <> Raise e) ->
  Inv s -> (forall i t t', body i t = Ok t' -> Inv t -> Inv t') ->
  (forall t t', Inv t -> body j t <> Ok t') ->
  for_loop n body s = Undefined.
Proof.
  intros Hj Hraise Hs Hkeep Hstuck.
  apply (for_loop_undefined body n j s Hj Hraise).
  intros t t' Hrun. apply Hstuck.
  exact (for_loop_preserves Inv body j s t Hkeep Hrun Hs).
Qed.

(** A loop over a part of the state.  When the body changes only the part
    [get] reads and [put] writes, the loop over the whole state is the
    loop over the part. *)
Lemma for_loop_lift {S P} (get : S -> P) (put : S -> P -> S)
    (body : nat -> P -> outcome P) (body' : nat -> S -> outcome S)
    (n : nat) (s : S) :
  (forall t, put t (get t) = t) ->
  (forall t p, get (put t p) = p) ->
  (forall t p q, put (put t p) q = put t q) ->
  (forall j t, body' j t = p ← body j (get t); Ok (put t p)) ->
  for_loop n body' s = p ← for_loop n body (get s); Ok (put s p).
Proof.
  intros Hgp Hpg Hpp Hbody. induction n as [|n IH].
  - cbn. rewrite Hgp. reflexivity.
  - rewrite !for_loop_S, IH.
    destruct (for_loop n body (get s)) as [p| |]; [|reflexivity..].
    rewrite !bind_Ok, Hbody, Hpg.
    destruct (body n p) as [q| |]; [|reflexivity..].
    rewrite !bind_Ok, Hpp. reflexivity.
Qed.

(** ** Init and SetZero *)

Section InitProps.
Context {T : Type} `{Scalar T}.

Lemma uword_of_int_nonneg (z : Z) :
  (0 <= z < 2 ^ 31)%Z -> uword_of_int z = Z.to_nat z.
Proof.
  intros Hz. unfold uword_of_int. rewrite Z.mod_small; [reflexivity|lia].
Qed.

Lemma mat_at_replicate (rows cols : nat) (x : T) (k i : nat) :
  k < rows -> i < cols ->
  mat_at (mkMat rows cols (replicate (rows * cols) x)) k i = Ok x.
Proof.
  intros Hk Hi. unfold mat_at. cbn [mem n_rows].
  rewrite lookup_replicate_2; [reflexivity|nia].
Qed.

(** Whether [set_size] kept the memory or took fresh memory, the matrix
    has the dimensions asked for and as many elements. *)
Lemma mat_set_size_layout (uninit : nat -> T) (rows cols : nat) (m : Mat T) :
  n_rows (mat_set_size uninit rows cols m) = rows /\
  n_cols (mat_set_size uninit rows cols m) = cols /\
  length (mem (mat_set_size uninit rows cols m)) = rows * cols.
Proof.
  unfold mat_set_size. destruct (decide _) as [Heq|Hne]; cbn [n_rows n_cols mem].
  - auto.
  - rewrite length_fmap, length_seq. auto.
Qed.

Lemma vec_set_size_length (uninit : nat -> T) (n : nat) (v : Vec T) :
  length (vec_set_size uninit n v) = n.
Proof.
  unfold vec_set_size. destruct (decide _) as [Heq|Hne]; [auto|].
  rewrite length_fmap, length_seq. reflexivity.
Qed.

Lemma mat_zeros_set_size (uninit : nat -> T) (rows cols : nat) (m : Mat T) :
  mat_zeros (mat_set_size uninit rows cols m)
  = mkMat rows cols (replicate (rows * cols) s_zero).
Proof.
  destruct (mat_set_size_layout uninit rows cols m) as (Hr & Hc & Hlen).
  unfold mat_zeros. rewrite Hr, Hc, Hlen. reflexivity.
Qed.

Lemma Init_unfold (uninit : nat -> T) (C R Q : Z) (r : KpcaResult T) :
  Init uninit C R Q r
  = with_bounds r
      (mkMat (uword_of_int C) (uword_of_int Q)
         (replicate (uword_of_int C * uword_of_int Q) s_zero))
      (mkMat (uword_of_int C) (uword_of_int Q)
         (replicate (uword_of_int C * uword_of_int Q) s_zero))
      (mkMat (uword_of_int C) (uword_of_int Q)
         (replicate (uword_of_int C * uword_of_int Q) s_zero)).
Proof.
  unfold Init, SetZero, with_bounds. cbn.
  rewrite !mat_zeros_set_size. reflexivity.
Qed.

(** C8. For nonnegative [int] dimensions [C], [R], [Q] and any prior
    state, after [Init(C, R, Q)] each of the three bound matrices has
    exactly [C] rows and [Q] columns, its memory holds [C * Q] elements
    and every entry is zero; the other members are untouched; and calling
    [Init] again with the same dimensions gives the same object
    (whatever the fresh memory held either time). *)
Theorem Init_shape_zero_idempotent (uninit uninit' : nat -> T)
    (C R Q : Z) (r : KpcaResult T) :
  (0 <= C < 2 ^ 31)%Z -> (0 <= R < 2 ^ 31)%Z -> (0 <= Q < 2 ^ 31)%Z ->
  let r' := Init uninit C R Q r in
  Forall (fun m =>
      n_rows m = Z.to_nat C /\ n_cols m = Z.to_nat Q /\ mat_wf m /\
      forall k i, k < Z.to_nat C -> i < Z.to_nat Q -> mat_at m k i = Ok s_zero)
    [kpca_projections_l_ r'; kpca_projections_ r'; kpca_projections_u_ r'] /\
  kernel_eigenvalues_ r' = kernel_eigenvalues_ r /\
  covariance_eigenvectors_ r' = covariance_eigenvectors_ r /\
  reference_projections_ r' = reference_projections_ r /\
  kpca_components_ r' = kpca_components_ r /\
  Init uninit' C R Q r' = r'.
Proof.
  intros HC HR HQ r'. subst r'. rewrite !Init_unfold.
  rewrite !(uword_of_int_nonneg C), !(uword_of_int_nonneg Q) by assumption.
  cbn [with_bounds kpca_projections_l_ kpca_projections_ kpca_projections_u_
       kernel_eigenvalues_ covariance_eigenvectors_ reference_projections_
       kpca_components_].
  split; [|repeat split].
  repeat constructor; cbn [n_rows n_cols mem];
    solve [ unfold mat_wf; cbn; apply length_replicate
          | intros k i Hk Hi; apply mat_at_replicate; assumption ].
Qed.

End InitProps.

(** C8, at [Init(2, 5, 3)] on a default-constructed object. *)
Lemma Init_shape_zero_idempotent_witness :
  let r' := Init (fun _ => PrimFloat.one) 2 5 3 KpcaResult_new in
  Forall (fun m =>
      n_rows m = 2 /\ n_cols m = 3 /\ mat_wf m /\
      forall k i, k < 2 -> i < 3 -> mat_at m k i = Ok PrimFloat.zero)
    [kpca_projections_l_ r'; kpca_projections_ r'; kpca_projections_u_ r'] /\
  Init (fun _ => PrimFloat.infinity) 2 5 3 r' = r'.
Proof.
  pose proof (Init_shape_zero_idempotent (fun _ => PrimFloat.one)
                (fun _ => PrimFloat.infinity) 2 5 3 KpcaResult_new
                ltac:(lia) ltac:(lia) ltac:(lia)) as (Hz & _ & _ & _ & _ & Hi).
  split; [exact Hz|exact Hi].
Defined.

(** ** Export *)

Section ExportProps.
Context {T : Type} `{Scalar T}.
Implicit Types (r : KpcaResult T) (kernel_sum : MeanVariancePairMatrix T).

Lemma mv_get_in kernel_sum (k i : nat) :
  mv_in_extent kernel_sum k i -> mv_get kernel_sum k i = Ok (mv_entry kernel_sum k i).
Proof. intros Hin. unfold mv_get. rewrite decide_True; [reflexivity|assumption]. Qed.

Lemma mv_get_Ok_inv kernel_sum (k i : nat) (p : MeanVariancePair T) :
  mv_get kernel_sum k i = Ok p -> mv_in_extent kernel_sum k i.
Proof. unfold mv_get. destruct (decide _); [auto|discriminate]. Qed.

Lemma mv_get_no_raise kernel_sum (k i : nat) (e : error) :
  mv_get kernel_sum k i <> Raise e.
Proof. unfold mv_get. destruct (decide _); discriminate. Qed.

Lemma mat_set_in (m : Mat T) (k i : nat) (v : T) :
  k + i * n_rows m < length (mem m) ->
  mat_set m k i v = Ok (mkMat (n_rows m) (n_cols m) (<[k + i * n_rows m := v]> (mem m))).
Proof. intros Hlt. unfold mat_set. rewrite decide_True; [reflexivity|assumption]. Qed.

Lemma mat_set_no_raise (m : Mat T) (k i : nat) (v : T) (e : error) :
  mat_set m k i v <> Raise e.
Proof. unfold mat_set. destruct (decide _); discriminate. Qed.

Lemma cell_index_lt (rows cols k i : nat) :
  k < rows -> i < cols -> k + i * rows < rows * cols.
Proof. nia. Qed.

Lemma cell_index_inj (rows k i k' i' : nat) :
  k < rows -> k' < rows -> k + i * rows = k' + i' * rows -> k = k' /\ i = i'.
Proof.
  intros Hk Hk' Heq.
  assert (Hrows : rows <> 0) by lia.
  pose proof (f_equal (fun n => n mod rows) Heq) as Hmod.
  pose proof (f_equal (fun n => n / rows) Heq) as Hdiv.
  cbn beta in Hmod, Hdiv.
  rewrite !Nat.Div0.mod_add, !Nat.mod_small in Hmod by assumption.
  rewrite !Nat.div_add, !Nat.div_small in Hdiv by assumption.
  split; [assumption|lia].
Qed.

Lemma extent_pairs_S (rows i : nat) :
  extent_pairs rows (S i)
  = extent_pairs rows i ++ ((fun k => (k, i)) <$> seq 0 rows).
Proof.
  unfold extent_pairs. rewrite seq_S, bind_app. cbn [mbind list_bind].
  rewrite app_nil_r. f_equal.
Qed.

Lemma export_inv_next_column (nsd mc corr : T) kernel_sum r0 (i : nat) (st : export_state) :
  export_inv nsd mc corr kernel_sum r0 i (n_rows (kpca_projections_ r0)) st ->
  export_inv nsd mc corr kernel_sum r0 (S i) 0 st.
Proof.
  unfold export_inv.
  intros (Hl & Hc & Hu & Hv & He & Hr & Hk & Hcells & Hlog).
  repeat (split; [assumption|]). split.
  - intros k' i' Hk' Hdone. apply Hcells; [assumption|]. lia.
  - rewrite Hlog, extent_pairs_S. cbn [seq fmap list_fmap]. rewrite app_nil_r.
    reflexivity.
Qed.

Lemma four_reads_snoc (pairs : list (nat * nat)) (p : nat * nat) :
  four_reads (pairs ++ [p]) = four_reads pairs ++ [p; p; p; p].
Proof. unfold four_reads. rewrite bind_app. reflexivity. Qed.

(** One iteration of the inner loop keeps the invariant. *)
Lemma Export_body_step (nsd mc corr : T) kernel_sum r0 (i k : nat) (st : export_state) :
  bounds_wf r0 -> covers kernel_sum r0 ->
  i < n_cols (kpca_projections_ r0) -> k < n_rows (kpca_projections_ r0) ->
  export_inv nsd mc corr kernel_sum r0 i k st ->
  exists st', Export_body nsd mc corr kernel_sum i k st = Ok st' /\
    export_inv nsd mc corr kernel_sum r0 i (S k) st'.
Proof.
  intros (Hwl & Hwc & Hwu & [Hsl1 Hsl2] & [Hsu1 Hsu2]) Hcov Hi Hk.
  destruct st as [r reads]. unfold export_inv. cbn [fst snd].
  intros ((Hl1 & Hl2 & Hl3) & (Hc1 & Hc2 & Hc3) & (Hu1 & Hu2 & Hu3)
          & Hv & He & Hr & Hkc & Hcells & Hlog).
  unfold mat_wf in Hwl, Hwc, Hwu.
  pose proof (cell_index_lt _ _ _ _ Hk Hi) as Hidx.
  unfold Export_body.
  rewrite (mv_get_in kernel_sum k i) by (apply Hcov; assumption).
  rewrite !bind_Ok.
  rewrite (mat_set_in (kpca_projections_l_ r)), !bind_Ok
    by (rewrite Hl1, Hl3, Hwl, Hsl1, Hsl2; exact Hidx).
  rewrite (mat_set_in (kpca_projections_ r)), !bind_Ok
    by (rewrite Hc1, Hc3, Hwc; exact Hidx).
  rewrite (mat_set_in (kpca_projections_u_ r)), !bind_Ok
    by (rewrite Hu1, Hu3, Hwu, Hsu1, Hsu2; exact Hidx).
  eexists. split; [reflexivity|].
  cbn [fst snd with_bounds kpca_projections_l_ kpca_projections_
       kpca_projections_u_ kernel_eigenvalues_ covariance_eigenvectors_
       reference_projections_ kpca_components_].
  unfold same_layout. cbn [n_rows n_cols mem]. rewrite !length_insert.
  do 3 (split; [repeat split; assumption|]).
  do 4 (split; [assumption|]). split.
  - intros k' i' Hk' Hdone.
    rewrite Hl1, Hc1, Hu1, Hsl1, Hsu1.
    destruct (decide (k' = k /\ i' = i)) as [[-> ->]|Hne].
    + rewrite !list_lookup_insert_eq
        by first [ rewrite Hl3, Hwl, Hsl1, Hsl2; exact Hidx
                 | rewrite Hc3, Hwc; exact Hidx
                 | rewrite Hu3, Hwu, Hsu1, Hsu2; exact Hidx ].
      repeat split.
    + assert (k + i * n_rows (kpca_projections_ r0)
              <> k' + i' * n_rows (kpca_projections_ r0)) as Hidx_ne.
      { intros Heq. apply cell_index_inj in Heq as [-> ->]; auto. }
      rewrite !list_lookup_insert_ne by exact Hidx_ne.
      apply Hcells; [assumption|].
      destruct Hdone as [Hlt|[-> Hlt]]; [left; assumption|].
      right. split; [reflexivity|].
      destruct (decide (k' = k)) as [->|]; [exfalso; auto|lia].
  - rewrite Hlog, seq_S, fmap_app, app_assoc. cbn [fmap list_fmap].
    rewrite four_reads_snoc. reflexivity.
Qed.

Lemma export_inv_start (nsd mc corr : T) kernel_sum r0 :
  export_inv nsd mc corr kernel_sum r0 0 0 (r0, []).
Proof.
  unfold export_inv, same_layout. cbn [fst snd].
  do 3 (split; [repeat split; reflexivity|]).
  do 4 (split; [reflexivity|]). split; [|reflexivity].
  intros k' i' _ [Hlt|[_ Hlt]]; lia.
Qed.

(** [Export] on a well-formed object and a container that covers its
    extent: it completes, and the final state satisfies the invariant at
    the last column. *)
Lemma Export_logged_spec (nsd mc corr : T) kernel_sum r0 :
  bounds_wf r0 -> covers kernel_sum r0 ->
  exists st, Export_logged nsd mc corr kernel_sum r0 = Ok st /\
    export_inv nsd mc corr kernel_sum r0 (n_cols (kpca_projections_ r0)) 0 st.
Proof.
  intros Hwf Hcov. unfold Export_logged.
  apply (for_loop_rule (fun i st => export_inv nsd mc corr kernel_sum r0 i 0 st)).
  - apply export_inv_start.
  - intros i st Hi Hinv.
    destruct (for_loop_rule
                (fun k st => export_inv nsd mc corr kernel_sum r0 i k st)
                (fun k st => Export_body nsd mc corr kernel_sum i k st)
                (n_rows (kpca_projections_ r0)) st Hinv) as (st' & Hrun & Hinv').
    { intros k t Hk Ht. apply Export_body_step; assumption. }
    exists st'. split; [exact Hrun|]. apply export_inv_next_column, Hinv'.
Qed.

Lemma Export_body_no_raise (nsd mc corr : T) kernel_sum (i k : nat)
    (st : export_state) (e : error) :
  Export_body nsd mc corr kernel_sum i k st <> Raise e.
Proof.
  destruct st as [r reads]. unfold Export_body. intros Hr.
  repeat match type of Hr with
         | _ ≫= _ = Raise _ =>
             apply bind_Raise_inv in Hr as [Hr|(? & _ & Hr)];
             [first [exact (mv_get_no_raise _ _ _ _ Hr)
                    |exact (mat_set_no_raise _ _ _ _ _ Hr)]|]
         end.
  discriminate.
Qed.

Lemma Export_logged_no_raise (nsd mc corr : T) kernel_sum r (e : error) :
  Export_logged nsd mc corr kernel_sum r <> Raise e.
Proof.
  unfold Export_logged. apply for_loop_no_raise. intros i st.
  apply for_loop_no_raise. intros k st'. apply Export_body_no_raise.
Qed.

Lemma Export_body_Ok_inv (nsd mc corr : T) kernel_sum (i k : nat)
    (st st' : export_state) :
  Export_body nsd mc corr kernel_sum i k st = Ok st' ->
  mv_in_extent kernel_sum k i.
Proof.
  destruct st as [r reads]. unfold Export_body. intros Hr.
  apply bind_Ok_inv in Hr as (p & Hp & _). exact (mv_get_Ok_inv _ _ _ _ Hp).
Qed.

(** If [Export] completes, every pair of the result's extent was inside
    the container's. *)
Lemma Export_logged_Ok_covers (nsd mc corr : T) kernel_sum r (st : export_state) :
  Export_logged nsd mc corr kernel_sum r = Ok st -> covers kernel_sum r.
Proof.
  unfold Export_logged. intros Hrun k i Hk Hi.
  destruct (for_loop_Ok_inv _ _ _ _ Hrun i Hi) as (u & u' & _ & Hcol).
  destruct (for_loop_Ok_inv _ _ _ _ Hcol k Hk) as (v & v' & _ & Hbody).
  exact (Export_body_Ok_inv _ _ _ _ _ _ _ _ Hbody).
Qed.

Lemma Export_of_logged (nsd mc corr : T) kernel_sum r (st : export_state) :
  Export_logged nsd mc corr kernel_sum r = Ok st ->
  Export nsd mc corr kernel_sum r = Ok st.1.
Proof. unfold Export. intros ->. reflexivity. Qed.

Lemma Export_Ok_logged (nsd mc corr : T) kernel_sum r r' :
  Export nsd mc corr kernel_sum r = Ok r' ->
  exists reads, Export_logged nsd mc corr kernel_sum r = Ok (r', reads).
Proof.
  unfold Export.
  destruct (Export_logged nsd mc corr kernel_sum r) as [[r'' reads]| |];
    cbn; intros Heq; try discriminate.
  injection Heq as ->. exists reads. reflexivity.
Qed.

(** What [Export] leaves in the object, cell by cell. *)
Lemma Export_cells (nsd mc corr : T) kernel_sum r :
  bounds_wf r -> covers kernel_sum r ->
  exists r', Export nsd mc corr kernel_sum r = Ok r' /\
    same_layout (kpca_projections_l_ r') (kpca_projections_l_ r) /\
    same_layout (kpca_projections_ r') (kpca_projections_ r) /\
    same_layout (kpca_projections_u_ r') (kpca_projections_u_ r) /\
    kernel_eigenvalues_ r' = kernel_eigenvalues_ r /\
    covariance_eigenvectors_ r' = covariance_eigenvectors_ r /\
    reference_projections_ r' = reference_projections_ r /\
    kpca_components_ r' = kpca_components_ r /\
    forall k i, k < n_rows (kpca_projections_ r) -> i < n_cols (kpca_projections_ r) ->
      mat_at (kpca_projections_l_ r') k i
        = Ok (lower_of nsd mc corr (mv_entry kernel_sum k i)) /\
      mat_at (kpca_projections_ r') k i
        = Ok (center_of mc corr (mv_entry kernel_sum k i)) /\
      mat_at (kpca_projections_u_ r') k i
        = Ok (upper_of nsd mc corr (mv_entry kernel_sum k i)).
Proof.
  intros Hwf Hcov.
  destruct (Export_logged_spec nsd mc corr kernel_sum r Hwf Hcov)
    as ([r' reads] & Hrun & Hinv).
  exists r'. split; [exact (Export_of_logged _ _ _ _ _ _ Hrun)|].
  destruct Hinv as (Hl & Hc & Hu & Hv & He & Hr & Hk & Hcells & _).
  cbn [fst] in *. do 7 (split; [assumption|]).
  intros k i Hlt_k Hlt_i.
  destruct (Hcells k i Hlt_k (or_introl Hlt_i)) as (Hcl & Hcc & Hcu).
  destruct Hwf as (_ & _ & _ & [Hsl _] & [Hsu _]).
  destruct Hl as (Hl & _), Hc as (Hc & _), Hu as (Hu & _).
  unfold mat_at. rewrite Hl, Hc, Hu, Hsl, Hsu, Hcl, Hcc, Hcu.
  repeat split.
Qed.
End ExportProps.

Lemma Init_bounds_wf {T} `{Scalar T} (uninit : nat -> T) (C R Q : Z)
    (r : KpcaResult T) :
  bounds_wf (Init uninit C R Q r).
Proof.
  rewrite Init_unfold. unfold bounds_wf, mat_wf, same_shape. cbn.
  rewrite !length_replicate. repeat split.
Qed.

Lemma sqrt_4 : R_sqrt.sqrt 4 = 2%R.
Proof. replace 4%R with (2 * 2)%R by lra. apply sqrt_square. lra. Qed.

(** C1. For every statistic container covering the extent of a
    well-formed result, [Export(numStandardDeviations,
    multiplicativeConstant, correctionTerm, stats)] completes, leaves the
    dimensions of the bound matrices as they were, and for every component
    [k] and query point [i] of that extent stores
    [center = (mean - correctionTerm) * multiplicativeConstant],
    [lower = (mean - correctionTerm - numStandardDeviations * sqrt variance)
             * multiplicativeConstant] and
    [upper = (mean - correctionTerm + numStandardDeviations * sqrt variance)
             * multiplicativeConstant].
    In particular, for two components and one query point with
    mean(0,0)=10, variance(0,0)=4, mean(1,0)=20, variance(1,0)=1 and
    numStandardDeviations=2, multiplicativeConstant=1, correctionTerm=0,
    it produces center=[10,20], lower=[6,18], upper=[14,22], in binary64
    and in exact arithmetic alike. *)
Theorem Export_stores_bounds :
  (forall (T : Type) (S : Scalar T) (num_standard_deviations mult_const
          correction_term_in : T) (kernel_sum : MeanVariancePairMatrix T)
          (r : KpcaResult T),
     bounds_wf r -> covers kernel_sum r ->
     exists r',
       Export num_standard_deviations mult_const correction_term_in kernel_sum r
         = Ok r' /\
       same_layout (kpca_projections_l_ r') (kpca_projections_l_ r) /\
       same_layout (kpca_projections_ r') (kpca_projections_ r) /\
       same_layout (kpca_projections_u_ r') (kpca_projections_u_ r) /\
       forall k i,
         k < n_rows (kpca_projections_ r) -> i < n_cols (kpca_projections_ r) ->
         let mean := sample_mean (mv_entry kernel_sum k i) in
         let variance := sample_mean_variance (mv_entry kernel_sum k i) in
         mat_at (kpca_projections_ r') k i
           = Ok ((mean - correction_term_in) * mult_const)%S /\
         mat_at (kpca_projections_l_ r') k i
           = Ok ((mean - correction_term_in
                  - num_standard_deviations * s_sqrt variance) * mult_const)%S /\
         mat_at (kpca_projections_u_ r') k i
           = Ok ((mean - correction_term_in
                  + num_standard_deviations * s_sqrt variance) * mult_const)%S) /\
  (forall (uninit : nat -> PrimFloat.float) (num_reference_points : Z),
     Export 2%float 1%float 0%float (two_component_stats 10 4 20 1)%float
       (Init uninit 2 num_reference_points 1 KpcaResult_new)
     = Ok (with_bounds KpcaResult_new
             (mkMat 2 1 [6; 18]) (mkMat 2 1 [10; 20]) (mkMat 2 1 [14; 22]))%float) /\
  (forall (uninit : nat -> R) (num_reference_points : Z),
     exists r',
       Export 2%R 1%R 0%R (two_component_stats 10 4 20 1)%R
         (Init uninit 2 num_reference_points 1 KpcaResult_new) = Ok r' /\
       mat_at (kpca_projections_ r') 0 0 = Ok 10 /\
       mat_at (kpca_projections_ r') 1 0 = Ok 20 /\
       mat_at (kpca_projections_l_ r') 0 0 = Ok 6 /\
       mat_at (kpca_projections_l_ r') 1 0 = Ok 18 /\
       mat_at (kpca_projections_u_ r') 0 0 = Ok 14 /\
       mat_at (kpca_projections_u_ r') 1 0 = Ok 22)%R.
Proof.
  assert (Hgen : forall (T : Type) (S : Scalar T) (nsd mc corr : T)
            (kernel_sum : MeanVariancePairMatrix T) (r : KpcaResult T),
     bounds_wf r -> covers kernel_sum r ->
     exists r', Export nsd mc corr kernel_sum r = Ok r' /\
       same_layout (kpca_projections_l_ r') (kpca_projections_l_ r) /\
       same_layout (kpca_projections_ r') (kpca_projections_ r) /\
       same_layout (kpca_projections_u_ r') (kpca_projections_u_ r) /\
       forall k i,
         k < n_rows (kpca_projections_ r) -> i < n_cols (kpca_projections_ r) ->
         mat_at (kpca_projections_ r') k i
           = Ok ((sample_mean (mv_entry kernel_sum k i) - corr) * mc)%S /\
         mat_at (kpca_projections_l_ r') k i
           = Ok ((sample_mean (mv_entry kernel_sum k i) - corr
                  - nsd * s_sqrt (sample_mean_variance (mv_entry kernel_sum k i)))
                 * mc)%S /\
         mat_at (kpca_projections_u_ r') k i
           = Ok ((sample_mean (mv_entry kernel_sum k i) - corr
                  + nsd * s_sqrt (sample_mean_variance (mv_entry kernel_sum k i)))
                 * mc)%S).
  { intros T S nsd mc corr kernel_sum r Hwf Hcov.
    destruct (Export_cells nsd mc corr kernel_sum r Hwf Hcov)
      as (r' & Hrun & Hl & Hc & Hu & _ & _ & _ & _ & Hcells).
    exists r'. do 4 (split; [assumption|]). intros k i Hk Hi.
    destruct (Hcells k i Hk Hi) as (Hcl & Hcc & Hcu).
    split; [exact Hcc|]. split; [exact Hcl|exact Hcu]. }
  split; [exact Hgen|]. split.
  - intros uninit num_reference_points. vm_compute. reflexivity.
  - intros uninit num_reference_points.
    destruct (Hgen R exact 2%R 1%R 0%R (two_component_stats 10 4 20 1)%R
                (Init uninit 2 num_reference_points 1 KpcaResult_new))
      as (r' & Hrun & _ & _ & _ & Hcells).
    { apply Init_bounds_wf. }
    { unfold covers, mv_in_extent. rewrite Init_unfold.
      rewrite !uword_of_int_nonneg by lia. cbn. lia. }
    exists r'. split; [exact Hrun|].
    rewrite Init_unfold, !uword_of_int_nonneg in Hcells by lia.
    cbn [with_bounds kpca_projections_ n_rows n_cols] in Hcells.
    destruct (Hcells 0 0) as (Hc0 & Hl0 & Hu0); [cbn; lia..|].
    destruct (Hcells 1 0) as (Hc1 & Hl1 & Hu1); [cbn; lia..|].
    rewrite Hc0, Hc1, Hl0, Hl1, Hu0, Hu1. cbn.
    rewrite sqrt_4, sqrt_1.
    repeat split; f_equal; lra.
Qed.

Lemma two_component_covers {T} `{Scalar T} (uninit : nat -> T)
    (num_reference_points : Z) (m0 v0 m1 v1 : T) :
  covers (two_component_stats m0 v0 m1 v1)
    (Init uninit 2 num_reference_points 1 KpcaResult_new).
Proof.
  unfold covers, mv_in_extent. rewrite Init_unfold.
  rewrite !uword_of_int_nonneg by lia. cbn. lia.
Qed.

(** C1, at the scenario of the specification, in binary64. *)
Lemma Export_stores_bounds_witness :
  let r := Init (fun _ => nan) 2 3 1 KpcaResult_new in
  let kernel_sum := (two_component_stats 10 4 20 1)%float in
  exists r',
    Export 2%float 1%float 0%float kernel_sum r = Ok r' /\
    forall k i, k < n_rows (kpca_projections_ r) -> i < n_cols (kpca_projections_ r) ->
      mat_at (kpca_projections_ r') k i
        = Ok ((sample_mean (mv_entry kernel_sum k i) - 0) * 1)%float.
Proof.
  intros r kernel_sum.
  destruct (proj1 Export_stores_bounds float binary64 2%float 1%float 0%float
              kernel_sum r) as (r' & Hrun & _ & _ & _ & Hcells).
  - subst r. vm_compute. repeat split.
  - subst r kernel_sum. apply two_component_covers.
  - exists r'. split; [exact Hrun|].
    intros k i Hk Hi. exact (proj1 (Hcells k i Hk Hi)).
Defined.

(** ** Order of the bounds, in exact arithmetic *)

Section Order.
Local Open Scope R_scope.
Implicit Types (r : KpcaResult R) (kernel_sum : MeanVariancePairMatrix R).

Lemma deviation_nonneg (nsd : R) (p : MeanVariancePair R) :
  0 <= nsd -> 0 <= sample_mean_variance p -> 0 <= deviation_of nsd p.
Proof.
  intros Hn Hv. unfold deviation_of. cbn.
  apply Rmult_le_pos; [assumption|]. apply sqrt_pos.
Qed.

Lemma bounds_order_nonneg (nsd mc corr : R) (p : MeanVariancePair R) :
  0 <= nsd -> 0 <= sample_mean_variance p -> 0 <= mc ->
  lower_of nsd mc corr p <= center_of mc corr p <= upper_of nsd mc corr p.
Proof.
  intros Hn Hv Hm. pose proof (deviation_nonneg nsd p Hn Hv) as Hd.
  unfold lower_of, center_of, upper_of. cbn [s_mul s_sub s_add exact].
  generalize dependent (deviation_of nsd p). intros d Hd. split; nra.
Qed.

Lemma bounds_order_nonpos (nsd mc corr : R) (p : MeanVariancePair R) :
  0 <= nsd -> 0 <= sample_mean_variance p -> mc <= 0 ->
  upper_of nsd mc corr p <= center_of mc corr p <= lower_of nsd mc corr p.
Proof.
  intros Hn Hv Hm. pose proof (deviation_nonneg nsd p Hn Hv) as Hd.
  unfold lower_of, center_of, upper_of. cbn [s_mul s_sub s_add exact].
  generalize dependent (deviation_of nsd p). intros d Hd. split; nra.
Qed.

(** [Export] in exact arithmetic: the order of the stored values at every
    cell, for either sign of the constant. *)
Lemma Export_order_exact (num_standard_deviations mult_const
    correction_term_in : R) kernel_sum r :
  bounds_wf r -> covers kernel_sum r -> variances_nonneg kernel_sum r ->
  0 <= num_standard_deviations ->
  exists r',
    Export num_standard_deviations mult_const correction_term_in kernel_sum r
      = Ok r' /\
    forall k i, (k < n_rows (kpca_projections_ r))%nat ->
      (i < n_cols (kpca_projections_ r))%nat ->
      exists lower center upper,
        mat_at (kpca_projections_l_ r') k i = Ok lower /\
        mat_at (kpca_projections_ r') k i = Ok center /\
        mat_at (kpca_projections_u_ r') k i = Ok upper /\
        (0 <= mult_const -> lower <= center <= upper) /\
        (mult_const <= 0 -> upper <= center <= lower).
Proof.
  intros Hwf Hcov Hvar Hn.
  destruct (Export_cells num_standard_deviations mult_const correction_term_in
              kernel_sum r Hwf Hcov)
    as (r' & Hrun & _ & _ & _ & _ & _ & _ & _ & Hcells).
  exists r'. split; [exact Hrun|]. intros k i Hk Hi.
  destruct (Hcells k i Hk Hi) as (Hcl & Hcc & Hcu).
  do 3 eexists. do 3 (split; [eassumption|]). split; intros Hm.
  - apply bounds_order_nonneg; auto.
  - apply bounds_order_nonpos; auto.
Qed.
End Order.

(** ** Rounding to nearest in binary64 is monotone *)

Section Rounding64.
Local Open Scope Z_scope.

(** ** Digits *)

Lemma digits2_pos_size (p : positive) : digits2_pos p = Pos.size p.
Proof. induction p as [p IH|p IH|]; cbn; [rewrite IH..|]; reflexivity. Qed.

(** [Zdigits2 m] is the number of binary digits of a positive [m]. *)
Lemma Zdigits2_bounds (m : Z) :
  0 < m -> 2 ^ (Zdigits2 m - 1) <= m < 2 ^ Zdigits2 m.
Proof.
  destruct m as [|p|p]; try lia. intros _. cbn [Zdigits2].
  rewrite digits2_pos_size.
  pose proof (Pos.size_gt p) as Hgt. pose proof (Pos.size_le p) as Hle.
  assert (Hpow : Z.pos (2 ^ Pos.size p) = 2 ^ Z.pos (Pos.size p)).
  { rewrite Pos2Z.inj_pow. reflexivity. }
  split.
  - assert (2 ^ Z.pos (Pos.size p) = 2 * 2 ^ (Z.pos (Pos.size p) - 1)) as Hsplit.
    { rewrite <- Z.pow_succ_r by lia. f_equal. lia. }
    lia.
  - lia.
Qed.

Lemma Zdigits2_pos (m : Z) : 0 < m -> 0 < Zdigits2 m.
Proof. destruct m; cbn; lia. Qed.

Lemma Zdigits2_unique (m k : Z) :
  2 ^ (k - 1) <= m < 2 ^ k -> 0 < m -> Zdigits2 m = k.
Proof.
  intros [Hlo Hhi] Hm.
  pose proof (Zdigits2_bounds m Hm) as [Hlo' Hhi'].
  pose proof (Zdigits2_pos m Hm) as Hd.
  assert (Hk : 0 < k).
  { destruct (Z_lt_le_dec 0 k) as [|Hle]; [assumption|].
    exfalso. destruct (Z.eq_dec k 0) as [->|Hne].
    - cbn in Hhi. lia.
    - rewrite Z.pow_neg_r in Hhi by lia. lia. }
  destruct (Z.lt_trichotomy (Zdigits2 m) k) as [Hlt|[Heq|Hgt]]; [exfalso|assumption|exfalso].
  - assert (2 ^ Zdigits2 m <= 2 ^ (k - 1)) by (apply Z.pow_le_mono_r; lia). lia.
  - assert (2 ^ k <= 2 ^ (Zdigits2 m - 1)) by (apply Z.pow_le_mono_r; lia). lia.
Qed.

Lemma Zdigits2_mono (a b : Z) : 0 < a -> a <= b -> Zdigits2 a <= Zdigits2 b.
Proof.
  intros Ha Hab.
  pose proof (Zdigits2_bounds a Ha) as [Hlo _].
  pose proof (Zdigits2_bounds b ltac:(lia)) as [_ Hhi].
  pose proof (Zdigits2_pos a Ha). pose proof (Zdigits2_pos b ltac:(lia)).
  destruct (Z_lt_le_dec (Zdigits2 b) (Zdigits2 a)) as [Hlt|]; [exfalso|assumption].
  assert (2 ^ Zdigits2 b <= 2 ^ (Zdigits2 a - 1)) by (apply Z.pow_le_mono_r; lia).
  lia.
Qed.

Lemma Zdigits2_shift (m k : Z) :
  0 < m -> 0 <= k -> Zdigits2 (m * 2 ^ k) = Zdigits2 m + k.
Proof.
  intros Hm Hk. pose proof (Zdigits2_bounds m Hm) as [Hlo Hhi].
  pose proof (Zdigits2_pos m Hm).
  assert (0 < 2 ^ k) by (apply Z.pow_pos_nonneg; lia).
  apply Zdigits2_unique; [|nia].
  replace (Zdigits2 m + k - 1) with ((Zdigits2 m - 1) + k) by lia.
  rewrite !Z.pow_add_r by lia. nia.
Qed.

(** ** Shifting right with a round bit and a sticky bit *)

Lemma iter_pos_nat {A} (f : A -> A) (p : positive) (x : A) :
  SpecFloat.iter_pos f p x = Nat.iter (Pos.to_nat p) f x.
Proof.
  revert x. induction p as [p IH|p IH|]; intros x; cbn [SpecFloat.iter_pos].
  - rewrite !IH, Pos2Nat.inj_xI.
    replace (S (2 * Pos.to_nat p))%nat with (Pos.to_nat p + (Pos.to_nat p + 1))%nat by lia.
    rewrite !Nat.iter_add. reflexivity.
  - rewrite !IH, Pos2Nat.inj_xO.
    replace (2 * Pos.to_nat p)%nat with (Pos.to_nat p + Pos.to_nat p)%nat by lia.
    rewrite Nat.iter_add. reflexivity.
  - reflexivity.
Qed.

Lemma shr_1_nonneg (m : Z) (r s : bool) :
  0 <= m ->
  shr_1 (Build_shr_record m r s) = Build_shr_record (m / 2) (Z.odd m) (r || s).
Proof.
  intros Hm. rewrite <- Z.div2_div.
  destruct m as [|[p|p|]|p]; try lia; reflexivity.
Qed.

Lemma odd_mod2 (a : Z) : Z.odd a = (a mod 2 =? 1).
Proof.
  rewrite Zmod_odd. destruct (Z.odd a); reflexivity.
Qed.

(** What [k] steps of [shr_1] leave behind: the quotient, the round bit
    and the sticky bit of a division by [2^k]. *)
Lemma shr_iter (M : Z) (k : nat) :
  0 <= M ->
  Nat.iter (S k) shr_1 (Build_shr_record M false false)
  = Build_shr_record (M / 2 ^ (Z.of_nat k + 1)) (Z.odd (M / 2 ^ Z.of_nat k))
      (negb (M mod 2 ^ Z.of_nat k =? 0)).
Proof.
  intros HM. induction k as [|k IH].
  - cbn [Nat.iter]. rewrite shr_1_nonneg by assumption.
    cbn [Z.of_nat Z.add]. rewrite Z.pow_0_r, Z.pow_1_r, Z.div_1_r, Z.mod_1_r.
    reflexivity.
  - change (Nat.iter (S (S k)) shr_1 ?x) with (shr_1 (Nat.iter (S k) shr_1 x)).
    rewrite IH.
    assert (Hpow : 0 < 2 ^ Z.of_nat k) by (apply Z.pow_pos_nonneg; lia).
    rewrite shr_1_nonneg by (apply Z.div_pos; [assumption|apply Z.pow_pos_nonneg; lia]).
    rewrite Nat2Z.inj_succ.
    replace (Z.succ (Z.of_nat k)) with (Z.of_nat k + 1) by lia.
    f_equal.
    + assert (0 < 2 ^ (Z.of_nat k + 1)) by (apply Z.pow_pos_nonneg; lia).
      rewrite Z.div_div by lia. f_equal.
      rewrite (Z.pow_add_r 2 (Z.of_nat k + 1) 1) by lia. reflexivity.
    + rewrite Z.pow_add_r, Z.pow_1_r by lia.
      rewrite Z.rem_mul_r by lia.
      rewrite odd_mod2.
      pose proof (Z.mod_pos_bound M (2 ^ Z.of_nat k) Hpow) as Hb1.
      pose proof (Z.mod_pos_bound (M / 2 ^ Z.of_nat k) 2 ltac:(lia)) as Hb2.
      destruct (Z.eqb_spec ((M / 2 ^ Z.of_nat k) mod 2) 1) as [Hr|Hr];
        destruct (Z.eqb_spec (M mod 2 ^ Z.of_nat k) 0) as [Hs|Hs]; cbn [orb negb];
        match goal with |- _ = negb (?a =? 0) => destruct (Z.eqb_spec a 0) end;
        try reflexivity; exfalso; nia.
Qed.

(** Shifting right by [p] and rounding on the two recorded bits is
    rounding to nearest even. *)
Lemma shr_rne (M : Z) (p : positive) :
  0 <= M ->
  let mrs := SpecFloat.iter_pos shr_1 p (Build_shr_record M false false) in
  shr_m mrs = M / 2 ^ Z.pos p /\
  round_nearest_even (shr_m mrs) (loc_of_shr_record mrs) = rne M (Z.pos p).
Proof.
  intros HM mrs. subst mrs. rewrite iter_pos_nat.
  destruct (Pos2Nat.is_succ p) as [k Hk]. rewrite Hk, shr_iter by assumption.
  assert (Hp : Z.pos p = Z.of_nat k + 1) by lia.
  rewrite <- Hp. cbn [shr_m]. split; [reflexivity|].
  unfold rne. rewrite (proj2 (Z.leb_gt _ _)) by lia. cbn zeta.
  assert (Hh : 0 < 2 ^ Z.of_nat k) by (apply Z.pow_pos_nonneg; lia).
  assert (H2h : 2 ^ Z.pos p = 2 ^ Z.of_nat k * 2).
  { rewrite Hp, Z.pow_add_r, Z.pow_1_r by lia. reflexivity. }
  rewrite H2h at 2 3. rewrite Z.rem_mul_r by lia.
  rewrite odd_mod2.
  pose proof (Z.mod_pos_bound M (2 ^ Z.of_nat k) Hh) as Hb1.
  pose proof (Z.mod_pos_bound (M / 2 ^ Z.of_nat k) 2 ltac:(lia)) as Hb2.
  destruct (Z.eqb_spec ((M / 2 ^ Z.of_nat k) mod 2) 1) as [Hr|Hr];
    destruct (Z.eqb_spec (M mod 2 ^ Z.of_nat k) 0) as [Hs|Hs];
    cbn [negb loc_of_shr_record round_nearest_even];
    match goal with |- _ = match ?a ?= ?b with _ => _ end =>
      destruct (Z.compare_spec a b) end;
    try reflexivity; exfalso; nia.
Qed.

(** ** Rounding to nearest even on a grid of step [N] *)

Lemma rne_rne_grid (M n : Z) : 0 < n -> rne M n = rne_grid (2 ^ n) M.
Proof.
  intros Hn. unfold rne, rne_grid. rewrite (proj2 (Z.leb_gt _ _)) by lia.
  reflexivity.
Qed.

Lemma rne_grid_bounds (N M : Z) :
  0 < N -> M / N <= rne_grid N M <= M / N + 1.
Proof.
  intros HN. unfold rne_grid. cbn zeta.
  destruct (2 * (M mod N) ?= N); [destruct (Z.even (M / N))|..]; lia.
Qed.

Lemma rne_grid_exact (N M : Z) :
  0 < N -> M mod N = 0 -> rne_grid N M = M / N.
Proof.
  intros HN Hmod. unfold rne_grid. rewrite Hmod. cbn zeta.
  destruct (Z.compare_spec (2 * 0) N); lia.
Qed.

(** Rounding to nearest even is monotone. *)
Lemma rne_grid_mono (N M1 M2 : Z) :
  0 < N -> M1 <= M2 -> rne_grid N M1 <= rne_grid N M2.
Proof.
  intros HN HM.
  pose proof (Z.div_le_mono M1 M2 N HN HM) as Hq.
  pose proof (rne_grid_bounds N M1 HN) as Hb1.
  pose proof (rne_grid_bounds N M2 HN) as Hb2.
  destruct (Z.eq_dec (M1 / N) (M2 / N)) as [Heq|Hne]; [|lia].
  pose proof (Z.div_mod M1 N ltac:(lia)) as Hd1.
  pose proof (Z.div_mod M2 N ltac:(lia)) as Hd2.
  assert (Hr : M1 mod N <= M2 mod N) by (rewrite Heq in Hd1; lia).
  unfold rne_grid. cbn zeta. rewrite Heq.
  destruct (Z.compare_spec (2 * (M1 mod N)) N);
    destruct (Z.compare_spec (2 * (M2 mod N)) N);
    destruct (Z.even (M2 / N)); lia.
Qed.

Lemma rne_grid_scale (N M c : Z) :
  0 < N -> 0 < c -> rne_grid (N * c) (M * c) = rne_grid N M.
Proof.
  intros HN Hc. unfold rne_grid. cbn zeta.
  rewrite Z.div_mul_cancel_r by lia.
  rewrite Z.mul_mod_distr_r by lia.
  replace (2 * (M mod N * c)) with (2 * (M mod N) * c) by ring.
  assert (Hcmp : (2 * (M mod N) * c ?= N * c) = (2 * (M mod N) ?= N)).
  { destruct (Z.compare_spec (2 * (M mod N)) N);
      [apply Z.compare_eq_iff|apply Z.compare_lt_iff|apply Z.compare_gt_iff]; nia. }
  rewrite Hcmp. reflexivity.
Qed.

Lemma pow2_pos (k : Z) : 0 <= k -> 0 < 2 ^ k.
Proof. intros Hk. apply Z.pow_pos_nonneg; lia. Qed.

Lemma rne_nonneg (M n : Z) : 0 <= M -> 0 <= rne M n.
Proof.
  intros HM. unfold rne. destruct (Z.leb_spec n 0); [assumption|].
  fold (rne_grid (2 ^ n) M).
  pose proof (rne_grid_bounds (2 ^ n) M (pow2_pos n ltac:(lia))).
  pose proof (Z.div_pos M (2 ^ n) HM (pow2_pos n ltac:(lia))). lia.
Qed.

Lemma rne_mono (M1 M2 n : Z) : M1 <= M2 -> rne M1 n <= rne M2 n.
Proof.
  intros HM. unfold rne. destruct (Z.leb_spec n 0); [assumption|].
  apply rne_grid_mono; [apply pow2_pos; lia|assumption].
Qed.

Lemma rne_exact_shift (M n : Z) : 0 <= n -> rne (M * 2 ^ n) n = M.
Proof.
  intros Hn. unfold rne. destruct (Z.leb_spec n 0).
  - assert (n = 0) as -> by lia. rewrite Z.pow_0_r. lia.
  - fold (rne_grid (2 ^ n) (M * 2 ^ n)).
    rewrite rne_grid_exact.
    + apply Z.div_mul. pose proof (pow2_pos n). lia.
    + apply pow2_pos. lia.
    + apply Z.mod_mul. pose proof (pow2_pos n). lia.
Qed.

Lemma rne_scale (M n k : Z) :
  0 <= n -> 0 <= k -> rne (M * 2 ^ k) (n + k) = rne M n.
Proof.
  intros Hn Hk. destruct (Z.eq_dec n 0) as [->|Hne].
  - cbn [Z.add]. rewrite rne_exact_shift by assumption. reflexivity.
  - rewrite !rne_rne_grid by lia. rewrite Z.pow_add_r by lia.
    apply rne_grid_scale; apply pow2_pos; lia.
Qed.

Lemma rne_upper (M n b : Z) :
  0 <= n -> 0 <= b -> 0 <= M < 2 ^ (n + b) -> rne M n <= 2 ^ b.
Proof.
  intros Hn Hb [HM Hlt]. unfold rne. destruct (Z.leb_spec n 0).
  - assert (n = 0) as -> by lia. rewrite Z.add_0_l in Hlt. lia.
  - fold (rne_grid (2 ^ n) M).
    pose proof (rne_grid_bounds (2 ^ n) M (pow2_pos n ltac:(lia))) as Hbd.
    rewrite Z.pow_add_r in Hlt by lia.
    assert (M / 2 ^ n < 2 ^ b).
    { apply Z.div_lt_upper_bound; [apply pow2_pos; lia|lia]. }
    lia.
Qed.

Lemma rne_lower (M n b : Z) :
  0 <= n -> 0 <= b -> 2 ^ (n + b) <= M -> 2 ^ b <= rne M n.
Proof.
  intros Hn Hb Hle. unfold rne. destruct (Z.leb_spec n 0).
  - assert (n = 0) as -> by lia. rewrite Z.add_0_l in Hle. lia.
  - fold (rne_grid (2 ^ n) M).
    pose proof (rne_grid_bounds (2 ^ n) M (pow2_pos n ltac:(lia))) as Hbd.
    rewrite Z.pow_add_r in Hle by lia.
    assert (2 ^ b <= M / 2 ^ n).
    { apply Z.div_le_lower_bound; [apply pow2_pos; lia|lia]. }
    lia.
Qed.

(** ** What [binary_round_aux] returns *)

Lemma fexp64 (z : Z) : fexp prec emax z = Z.max (z - 53) (-1074).
Proof. reflexivity. Qed.

Lemma Zdigits2_le_53 (m1 : Z) : 0 < m1 < 2 ^ 53 -> Zdigits2 m1 <= 53.
Proof.
  intros [Hpos Hlt]. pose proof (Zdigits2_bounds m1 Hpos) as [Hlo _].
  pose proof (Zdigits2_pos m1 Hpos).
  destruct (Z_lt_le_dec 53 (Zdigits2 m1)) as [Hgt|]; [exfalso|assumption].
  assert (2 ^ 53 <= 2 ^ (Zdigits2 m1 - 1)) by (apply Z.pow_le_mono_r; lia).
  lia.
Qed.

Lemma stage2 (s : bool) (m1 E : Z) :
  0 <= m1 <= 2 ^ 53 -> -1074 <= E ->
  (let '(mrs, e2) := shr_fexp prec emax m1 E loc_Exact in
   match shr_m mrs with
   | Z0 => S754_zero s
   | Zpos m => if e2 <=? emax - prec then S754_finite s m e2 else S754_infinity s
   | Zneg _ => S754_nan
   end) = finish s m1 E.
Proof.
  intros Hm1 HE. unfold shr_fexp, finish. rewrite fexp64.
  cbn [shr_record_of_loc].
  destruct (Z.eqb_spec m1 0) as [->|Hne0].
  - cbn [Zdigits2].
    destruct (Z.max (0 + E - 53) (-1074) - E) as [|p|p] eqn:Hn; try lia; reflexivity.
  - destruct (Z.eqb_spec m1 (2 ^ 53)) as [->|Hne53].
    + change (Zdigits2 (2 ^ 53)) with 54.
      replace (Z.max (54 + E - 53) (-1074) - E) with 1 by lia.
      reflexivity.
    + pose proof (Zdigits2_le_53 m1 ltac:(lia)) as Hd.
      destruct (Z.max (Zdigits2 m1 + E - 53) (-1074) - E) as [|p|p] eqn:Hn;
        try lia; cbn [shr shr_m]; destruct m1 as [|q|q]; try lia; reflexivity.
Qed.

(** [binary_round_aux] on an exact positive mantissa: round to nearest
    even at the exponent of the format, then overflow to infinity. *)
Lemma bra_spec (s : bool) (m e : Z) :
  0 < m -> e <= E64 m e ->
  binary_round_aux prec emax s m e loc_Exact
  = finish s (rne m (E64 m e - e)) (E64 m e).
Proof.
  intros Hm He.
  pose proof (Zdigits2_bounds m Hm) as [_ Hhi].
  assert (Hbound : 0 <= rne m (E64 m e - e) <= 2 ^ 53).
  { split; [apply rne_nonneg; lia|].
    apply rne_upper; [lia|lia|]. split; [lia|].
    eapply Z.lt_le_trans; [exact Hhi|].
    apply Z.pow_le_mono_r; [lia|]. unfold E64. lia. }
  assert (HE : -1074 <= E64 m e) by (unfold E64; lia).
  rewrite <- (stage2 s _ _ Hbound HE).
  unfold binary_round_aux, shr_fexp at 1. rewrite fexp64. fold (E64 m e).
  cbn [shr_record_of_loc].
  destruct (E64 m e - e) as [|p|p] eqn:Hn; try lia.
  - cbn [shr shr_m loc_of_shr_record round_nearest_even].
    replace e with (E64 m e) at 1 by lia. unfold rne. cbn. reflexivity.
  - cbn [shr].
    destruct (shr_rne m p ltac:(lia)) as [_ Hr]. cbn zeta in Hr. rewrite Hr.
    replace (e + Z.pos p) with (E64 m e) by lia. reflexivity.
Qed.

(** ** Floats as scaled integers *)

Lemma cap_split_53 : cap = 2 ^ 53 * 2 ^ 2045.
Proof. unfold cap. rewrite <- Z.pow_add_r by lia. reflexivity. Qed.

Lemma cap_split_52 : cap = 2 ^ 52 * 2 ^ 2046.
Proof. unfold cap. rewrite <- Z.pow_add_r by lia. reflexivity. Qed.

Lemma cap_pos : 0 < cap.
Proof. unfold cap. apply pow2_pos. lia. Qed.

Lemma key_finish (s : bool) (m1 E : Z) :
  0 <= m1 <= 2 ^ 53 -> -1074 <= E -> (971 < E -> 2 ^ 52 <= m1) ->
  key (finish s m1 E) = signed s (Z.min (m1 * 2 ^ (E + 1074)) cap).
Proof.
  intros Hm1 HE Hbig. unfold finish. pose proof cap_pos as Hcap.
  assert (Hp : 0 < 2 ^ (E + 1074)) by (apply pow2_pos; lia).
  destruct (Z.eqb_spec m1 0) as [->|Hne0].
  - cbn [key]. rewrite Z.mul_0_l, Z.min_l by lia. destruct s; reflexivity.
  - destruct (Z.eqb_spec m1 (2 ^ 53)) as [->|Hne53].
    + destruct (Z.leb_spec (E + 1) 971) as [Hle|Hgt]; cbn [key].
      * assert (Hk : Z.pos (2 ^ 52) * 2 ^ (E + 1 + 1074) = 2 ^ 53 * 2 ^ (E + 1074)).
        { replace (E + 1 + 1074) with (1 + (E + 1074)) by lia.
          rewrite (Z.pow_add_r 2 1) by lia. change (Z.pos (2 ^ 52)) with (2 ^ 52).
          change (2 ^ 53) with (2 ^ 52 * 2 ^ 1). ring. }
        rewrite Hk.
        assert (2 ^ (E + 1074) < 2 ^ 2045) by (apply Z.pow_lt_mono_r; lia).
        rewrite Z.min_l by (rewrite cap_split_53; nia). reflexivity.
      * assert (2 ^ 2045 <= 2 ^ (E + 1074)) by (apply Z.pow_le_mono_r; lia).
        rewrite Z.min_r by (rewrite cap_split_53; nia). reflexivity.
    + destruct (Z.leb_spec E 971) as [Hle|Hgt]; cbn [key].
      * rewrite Z2Pos.id by lia.
        assert (2 ^ (E + 1074) <= 2 ^ 2045) by (apply Z.pow_le_mono_r; lia).
        rewrite Z.min_l by (rewrite cap_split_53; nia). reflexivity.
      * specialize (Hbig Hgt).
        assert (2 ^ 2046 <= 2 ^ (E + 1074)) by (apply Z.pow_le_mono_r; lia).
        rewrite Z.min_r by (rewrite cap_split_52; nia). reflexivity.
Qed.

(** The key of a rounded float, in terms of the mantissa and exponent
    that were rounded. *)
Lemma bra_key (s : bool) (m e : Z) :
  0 < m -> e <= E64 m e ->
  key (binary_round_aux prec emax s m e loc_Exact)
  = signed s (Z.min (rne m (E64 m e - e) * 2 ^ (E64 m e + 1074)) cap).
Proof.
  intros Hm He. rewrite bra_spec by assumption.
  pose proof (Zdigits2_bounds m Hm) as [Hlo Hhi].
  apply key_finish.
  - split; [apply rne_nonneg; lia|].
    apply rne_upper; [lia|lia|]. split; [lia|].
    eapply Z.lt_le_trans; [exact Hhi|].
    apply Z.pow_le_mono_r; [lia|]. unfold E64. lia.
  - unfold E64. lia.
  - intros Hbig. apply rne_lower; [lia|lia|].
    eapply Z.le_trans; [|exact Hlo].
    apply Z.pow_le_mono_r; [lia|]. unfold E64 in *. lia.
Qed.

(** ** Rounding as a function of the scaled value *)

Lemma K_as_KV (m e L : Z) :
  0 < m -> L <= e -> L <= -1074 -> e <= E64 m e ->
  rne m (E64 m e - e) * 2 ^ (E64 m e + 1074) = KV L (m * 2 ^ (e - L)).
Proof.
  intros Hm HLe HL He. unfold KV. cbn zeta.
  rewrite Zdigits2_shift by lia.
  replace (Zdigits2 m + (e - L) + L - 53) with (Zdigits2 m + e - 53) by lia.
  fold (E64 m e).
  replace (E64 m e - L) with ((E64 m e - e) + (e - L)) by lia.
  rewrite rne_scale by lia. reflexivity.
Qed.

(** Rounding is monotone in the value, across exponents. *)
Lemma KV_mono (L V1 V2 : Z) :
  L <= -1074 -> 0 < V1 -> V1 <= V2 -> KV L V1 <= KV L V2.
Proof.
  intros HL HV1 HV. unfold KV. cbn zeta.
  pose proof (Zdigits2_mono V1 V2 HV1 HV) as Hd.
  set (E1 := Z.max (Zdigits2 V1 + L - 53) (-1074)).
  set (E2 := Z.max (Zdigits2 V2 + L - 53) (-1074)).
  assert (HE : E1 <= E2) by (subst E1 E2; lia).
  assert (Hp1 : 0 < 2 ^ (E1 + 1074)) by (apply pow2_pos; subst E1; lia).
  assert (Hp2 : 0 < 2 ^ (E2 + 1074)) by (apply pow2_pos; subst E2; lia).
  destruct (Z.eq_dec E1 E2) as [Heq|Hne].
  - rewrite <- Heq. apply Z.mul_le_mono_nonneg_r; [lia|]. apply rne_mono, HV.
  - pose proof (Zdigits2_bounds V1 HV1) as [_ Hhi1].
    pose proof (Zdigits2_bounds V2 ltac:(lia)) as [Hlo2 _].
    assert (H1 : rne V1 (E1 - L) <= 2 ^ 53).
    { apply rne_upper; [subst E1; lia|lia|]. split; [lia|].
      eapply Z.lt_le_trans; [exact Hhi1|].
      apply Z.pow_le_mono_r; [lia|]. subst E1. lia. }
    assert (H2 : 2 ^ 52 <= rne V2 (E2 - L)).
    { apply rne_lower; [subst E2; lia|lia|].
      eapply Z.le_trans; [|exact Hlo2].
      apply Z.pow_le_mono_r; [lia|]. subst E1 E2. lia. }
    assert (Hstep : 2 * 2 ^ (E1 + 1074) <= 2 ^ (E2 + 1074)).
    { rewrite <- Z.pow_succ_r by (subst E1; lia).
      apply Z.pow_le_mono_r; lia. }
    pose proof (rne_nonneg V1 (E1 - L) ltac:(lia)) as Hn1.
    change (2 ^ 53) with (2 * 2 ^ 52) in H1.
    generalize dependent (rne V1 (E1 - L)). generalize dependent (rne V2 (E2 - L)).
    generalize dependent (2 ^ (E1 + 1074)). generalize dependent (2 ^ (E2 + 1074)).
    intros. nia.
Qed.

Lemma KV_canonical (m e : Z) :
  0 < m -> E64 m e = e ->
  KV (-1074) (m * 2 ^ (e + 1074)) = m * 2 ^ (e + 1074).
Proof.
  intros Hm Hcan.
  assert (He : -1074 <= e) by (unfold E64 in Hcan; lia).
  replace (e + 1074) with (e - -1074) at 1 by lia.
  rewrite <- K_as_KV by lia. rewrite Hcan, Z.sub_diag.
  unfold rne. cbn. reflexivity.
Qed.

Lemma KV_nonneg (L V : Z) : L <= -1074 -> 0 <= V -> 0 <= KV L V.
Proof.
  intros HL HV. unfold KV. cbn zeta.
  apply Z.mul_nonneg_nonneg; [apply rne_nonneg; assumption|].
  apply Z.lt_le_incl, pow2_pos. lia.
Qed.

Lemma RK_mono (L V1 V2 : Z) : L <= -1074 -> V1 <= V2 -> RK L V1 <= RK L V2.
Proof.
  intros HL HV. pose proof cap_pos.
  destruct V1 as [|p1|p1], V2 as [|p2|p2]; cbn [RK]; try lia.
  - pose proof (KV_nonneg L (Z.pos p2) HL ltac:(lia)). lia.
  - pose proof (KV_mono L (Z.pos p1) (Z.pos p2) HL ltac:(lia) HV). lia.
  - pose proof (KV_nonneg L (- Z.neg p1) HL ltac:(lia)). lia.
  - pose proof (KV_nonneg L (- Z.neg p1) HL ltac:(lia)).
    pose proof (KV_nonneg L (Z.pos p2) HL ltac:(lia)). lia.
  - pose proof (KV_mono L (- Z.neg p2) (- Z.neg p1) HL ltac:(lia) ltac:(lia)). lia.
Qed.

(** ** Comparison of valid floats is comparison of their keys *)

Lemma valid_finite (s : bool) (m : positive) (e : Z) :
  valid_binary (S754_finite s m e) = true ->
  E64 (Z.pos m) e = e /\ e <= 971.
Proof.
  cbn [SpecFloat.valid_binary]. unfold bounded, canonical_mantissa.
  rewrite fexp64. intros Hv. apply andb_prop in Hv as [Hc Hb].
  apply Z.eqb_eq in Hc. apply Z.leb_le in Hb.
  change (emax - prec) with 971 in Hb. split; [exact Hc|exact Hb].
Qed.

Lemma canonical_facts (m : positive) (e : Z) :
  E64 (Z.pos m) e = e ->
  -1074 <= e /\ Z.pos m < 2 ^ 53 /\ (-1074 < e -> 2 ^ 52 <= Z.pos m).
Proof.
  intros Hcan. pose proof (Zdigits2_bounds (Z.pos m) ltac:(lia)) as [Hlo Hhi].
  pose proof (Zdigits2_pos (Z.pos m) ltac:(lia)) as Hd.
  unfold E64 in Hcan. split; [lia|]. split.
  - eapply Z.lt_le_trans; [exact Hhi|]. apply Z.pow_le_mono_r; lia.
  - intros He. eapply Z.le_trans; [|exact Hlo]. apply Z.pow_le_mono_r; lia.
Qed.

Lemma finite_key_bounds (m : positive) (e : Z) :
  E64 (Z.pos m) e = e -> e <= 971 ->
  0 < Z.pos m * 2 ^ (e + 1074) < cap.
Proof.
  intros Hcan He. destruct (canonical_facts m e Hcan) as (Hlo & Hm & _).
  assert (0 < 2 ^ (e + 1074)) by (apply pow2_pos; lia).
  assert (2 ^ (e + 1074) <= 2 ^ 2045) by (apply Z.pow_le_mono_r; lia).
  rewrite cap_split_53. split; nia.
Qed.

Lemma finite_key_compare (m1 : positive) (e1 : Z) (m2 : positive) (e2 : Z) :
  E64 (Z.pos m1) e1 = e1 -> E64 (Z.pos m2) e2 = e2 ->
  match e1 ?= e2 with
  | Lt => Lt
  | Gt => Gt
  | Eq => Pos.compare_cont Eq m1 m2
  end = (Z.pos m1 * 2 ^ (e1 + 1074) ?= Z.pos m2 * 2 ^ (e2 + 1074)).
Proof.
  intros Hc1 Hc2.
  destruct (canonical_facts m1 e1 Hc1) as (Hlo1 & Hm1 & Hn1).
  destruct (canonical_facts m2 e2 Hc2) as (Hlo2 & Hm2 & Hn2).
  assert (Hp1 : 0 < 2 ^ (e1 + 1074)) by (apply pow2_pos; lia).
  assert (Hp2 : 0 < 2 ^ (e2 + 1074)) by (apply pow2_pos; lia).
  change (2 ^ 53) with (2 * 2 ^ 52) in Hm1, Hm2.
  destruct (Z.compare_spec e1 e2) as [->|Hlt|Hgt]; symmetry.
  - change (Pos.compare_cont Eq m1 m2) with (Z.pos m1 ?= Z.pos m2).
    destruct (Z.compare_spec (Z.pos m1) (Z.pos m2));
      [apply Z.compare_eq_iff|apply Z.compare_lt_iff|apply Z.compare_gt_iff]; nia.
  - apply Z.compare_lt_iff. specialize (Hn2 ltac:(lia)).
    assert (2 * 2 ^ (e1 + 1074) <= 2 ^ (e2 + 1074)).
    { rewrite <- Z.pow_succ_r by lia. apply Z.pow_le_mono_r; lia. }
    nia.
  - apply Z.compare_gt_iff. specialize (Hn1 ltac:(lia)).
    assert (2 * 2 ^ (e2 + 1074) <= 2 ^ (e1 + 1074)).
    { rewrite <- Z.pow_succ_r by lia. apply Z.pow_le_mono_r; lia. }
    nia.
Qed.

(** Comparing two valid floats is comparing their keys. *)
Lemma SFcompare_key (f1 f2 : spec_float) :
  valid_binary f1 = true -> valid_binary f2 = true ->
  not_nan f1 -> not_nan f2 ->
  SFcompare f1 f2 = Some (key f1 ?= key f2).
Proof.
  intros Hv1 Hv2 Hn1 Hn2. pose proof cap_pos as Hcap.
  destruct f1 as [s1|s1| |s1 m1 e1]; [| |contradiction Hn1; reflexivity|];
    destruct f2 as [s2|s2| |s2 m2 e2]; try (contradiction Hn2; reflexivity);
    try (apply valid_finite in Hv1 as [Hc1 Hb1];
         pose proof (finite_key_bounds m1 e1 Hc1 Hb1));
    try (apply valid_finite in Hv2 as [Hc2 Hb2];
         pose proof (finite_key_bounds m2 e2 Hc2 Hb2));
    cbn [SFcompare key]; f_equal; symmetry.
  all: try solve [ destruct s1; destruct s2;
                   first [ apply Z.compare_eq_iff; lia
                         | apply Z.compare_lt_iff; lia
                         | apply Z.compare_gt_iff; lia ] ].
  all: try solve [ destruct s1;
                   first [ apply Z.compare_eq_iff; lia
                         | apply Z.compare_lt_iff; lia
                         | apply Z.compare_gt_iff; lia ] ].
  all: try solve [ destruct s2;
                   first [ apply Z.compare_eq_iff; lia
                         | apply Z.compare_lt_iff; lia
                         | apply Z.compare_gt_iff; lia ] ].
  destruct s1, s2.
  - rewrite Z.compare_opp. rewrite (Z.compare_antisym (Z.pos m1 * _)).
    rewrite <- (finite_key_compare m1 e1 m2 e2 Hc1 Hc2).
    destruct (e1 ?= e2); reflexivity.
  - apply Z.compare_lt_iff. lia.
  - apply Z.compare_gt_iff. lia.
  - symmetry. apply (finite_key_compare m1 e1 m2 e2 Hc1 Hc2).
Qed.

Lemma SFleb_key (f1 f2 : spec_float) :
  valid_binary f1 = true -> valid_binary f2 = true ->
  not_nan f1 -> not_nan f2 ->
  SFleb f1 f2 = true <-> key f1 <= key f2.
Proof.
  intros Hv1 Hv2 Hn1 Hn2. unfold SFleb.
  rewrite (SFcompare_key f1 f2 Hv1 Hv2 Hn1 Hn2).
  destruct (Z.compare_spec (key f1) (key f2)); split; intros; (lia || discriminate || reflexivity).
Qed.

Lemma SFleb_not_nan (f1 f2 : spec_float) :
  SFleb f1 f2 = true -> not_nan f1 /\ not_nan f2.
Proof.
  unfold SFleb, not_nan. destruct f1, f2; cbn; intros Hle; try discriminate;
    split; discriminate.
Qed.

Lemma SFleb_refl (f : spec_float) :
  valid_binary f = true -> not_nan f -> SFleb f f = true.
Proof. intros Hv Hn. apply SFleb_key; [assumption..|lia]. Qed.

Lemma key_bounds (f : spec_float) :
  valid_binary f = true -> - cap <= key f <= cap.
Proof.
  intros Hv. pose proof cap_pos.
  destruct f as [s|s| |s m e]; cbn [key]; try (destruct s; lia); try lia.
  apply valid_finite in Hv as [Hc Hb].
  pose proof (finite_key_bounds m e Hc Hb). destruct s; lia.
Qed.

(** ** Keys of sums, differences and products *)

Lemma RK_pos (L V : Z) : 0 < V -> RK L V = Z.min (KV L V) cap.
Proof. destruct V; try lia. reflexivity. Qed.

Lemma RK_neg (L V : Z) : V < 0 -> RK L V = - Z.min (KV L (- V)) cap.
Proof. destruct V; try lia. reflexivity. Qed.

Lemma RK_signed (L : Z) (s : bool) (V : Z) :
  0 < V -> RK L (signed s V) = signed s (Z.min (KV L V) cap).
Proof.
  intros HV. destruct s; cbn [signed].
  - rewrite RK_neg by lia. rewrite Z.opp_involutive. reflexivity.
  - apply RK_pos, HV.
Qed.

Lemma shift_pos_value (m d : positive) :
  Z.pos (Pos.iter xO m d) = Z.pos m * 2 ^ Z.pos d.
Proof.
  induction d as [|d IH] using Pos.peano_ind.
  - cbn. lia.
  - rewrite Pos.iter_succ, Pos2Z.inj_xO, IH, Pos2Z.inj_succ, Z.pow_succ_r by lia.
    ring.
Qed.

Lemma shl_align_fst (mx : positive) (ex ez : Z) :
  ez <= ex -> Z.pos (fst (shl_align mx ex ez)) = Z.pos mx * 2 ^ (ex - ez).
Proof.
  intros Hle. unfold shl_align.
  destruct (ez - ex) as [|p|p] eqn:Hd; try lia; cbn [fst].
  - replace (ex - ez) with 0 by lia. lia.
  - rewrite shift_pos_value. f_equal. f_equal. lia.
Qed.

Lemma binary_round_key (s : bool) (p : positive) (e : Z) :
  -1074 <= e ->
  key (binary_round prec emax s p e)
  = signed s (Z.min (KV (-1074) (Z.pos p * 2 ^ (e + 1074))) cap).
Proof.
  intros He. unfold binary_round. rewrite fexp64.
  change (Z.pos (digits2_pos p)) with (Zdigits2 (Z.pos p)). fold (E64 (Z.pos p) e).
  assert (Hsame : forall m' e', 0 < m' -> -1074 <= e' -> e' <= E64 m' e' ->
            m' * 2 ^ (e' + 1074) = Z.pos p * 2 ^ (e + 1074) ->
            key (binary_round_aux prec emax s m' e' loc_Exact)
            = signed s (Z.min (KV (-1074) (Z.pos p * 2 ^ (e + 1074))) cap)).
  { intros m' e' Hm' He' Hle Hval. rewrite bra_key by assumption.
    rewrite (K_as_KV m' e' (-1074)) by lia.
    replace (e' - -1074) with (e' + 1074) by lia. rewrite Hval. reflexivity. }
  unfold shl_align.
  destruct (E64 (Z.pos p) e - e) as [|q|q] eqn:Hn.
  - apply Hsame; [lia|lia|lia|reflexivity].
  - apply Hsame; [lia|lia|lia|reflexivity].
  - assert (HE : -1074 <= E64 (Z.pos p) e) by (unfold E64; lia).
    assert (Hq : Z.pos q = e - E64 (Z.pos p) e) by lia.
    apply Hsame; [lia|exact HE| |].
    + rewrite shift_pos_value. unfold E64 at 2.
      rewrite Zdigits2_shift by lia. unfold E64 in Hq |- *. lia.
    + rewrite shift_pos_value, Hq, <- Z.mul_assoc, <- Z.pow_add_r by lia.
      f_equal. f_equal. lia.
Qed.

Lemma binary_normalize_key (M e : Z) :
  -1074 <= e ->
  key (binary_normalize prec emax M e false) = RK (-1074) (M * 2 ^ (e + 1074)).
Proof.
  intros He. assert (Hp : 0 < 2 ^ (e + 1074)) by (apply pow2_pos; lia).
  destruct M as [|p|p]; cbn [binary_normalize].
  - reflexivity.
  - rewrite binary_round_key by assumption. cbn [signed].
    symmetry. apply RK_pos. lia.
  - rewrite binary_round_key by assumption. cbn [signed].
    rewrite RK_neg by lia. f_equal. f_equal. f_equal. lia.
Qed.

Lemma key_finite (s : bool) (m : positive) (e : Z) :
  key (S754_finite s m e) = signed s (Z.pos m * 2 ^ (e + 1074)).
Proof. reflexivity. Qed.

Lemma aligned_key (s : bool) (m : positive) (e ez : Z) :
  -1074 <= ez <= e ->
  cond_Zopp s (Z.pos (fst (shl_align m e ez))) * 2 ^ (ez + 1074)
  = signed s (Z.pos m * 2 ^ (e + 1074)).
Proof.
  intros Hz. rewrite shl_align_fst by lia.
  replace (e + 1074) with ((e - ez) + (ez + 1074)) by lia.
  rewrite (Z.pow_add_r 2 (e - ez) (ez + 1074)) by lia.
  destruct s; cbn [cond_Zopp signed]; ring.
Qed.

(** A finite sum, difference or product is the rounding of the exact
    sum, difference or product of the keys. *)
Lemma SFadd_key_finite (sx : bool) (mx : positive) (ex : Z)
    (sy : bool) (my : positive) (ey : Z) :
  valid_binary (S754_finite sx mx ex) = true ->
  valid_binary (S754_finite sy my ey) = true ->
  key (SFadd prec emax (S754_finite sx mx ex) (S754_finite sy my ey))
  = RK (-1074) (key (S754_finite sx mx ex) + key (S754_finite sy my ey)).
Proof.
  intros Hx Hy.
  apply valid_finite in Hx as [Hcx _]. apply valid_finite in Hy as [Hcy _].
  destruct (canonical_facts mx ex Hcx) as (Hex & _).
  destruct (canonical_facts my ey Hcy) as (Hey & _).
  cbn [SFadd]. cbn zeta. rewrite binary_normalize_key by lia.
  rewrite Z.mul_add_distr_r, !aligned_key by lia. reflexivity.
Qed.

Lemma SFsub_key_finite (sx : bool) (mx : positive) (ex : Z)
    (sy : bool) (my : positive) (ey : Z) :
  valid_binary (S754_finite sx mx ex) = true ->
  valid_binary (S754_finite sy my ey) = true ->
  key (SFsub prec emax (S754_finite sx mx ex) (S754_finite sy my ey))
  = RK (-1074) (key (S754_finite sx mx ex) - key (S754_finite sy my ey)).
Proof.
  intros Hx Hy.
  apply valid_finite in Hx as [Hcx _]. apply valid_finite in Hy as [Hcy _].
  destruct (canonical_facts mx ex Hcx) as (Hex & _).
  destruct (canonical_facts my ey Hcy) as (Hey & _).
  cbn [SFsub]. cbn zeta. rewrite binary_normalize_key by lia.
  rewrite Z.mul_sub_distr_r, !aligned_key by lia. reflexivity.
Qed.

Lemma SFmul_key_finite (sx : bool) (mx : positive) (ex : Z)
    (sy : bool) (my : positive) (ey : Z) :
  valid_binary (S754_finite sx mx ex) = true ->
  valid_binary (S754_finite sy my ey) = true ->
  key (SFmul prec emax (S754_finite sx mx ex) (S754_finite sy my ey))
  = RK (-2148) (key (S754_finite sx mx ex) * key (S754_finite sy my ey)).
Proof.
  intros Hx Hy.
  apply valid_finite in Hx as [Hcx Hbx]. apply valid_finite in Hy as [Hcy Hby].
  destruct (canonical_facts mx ex Hcx) as (Hex & Hmx & Hnx).
  destruct (canonical_facts my ey Hcy) as (Hey & Hmy & Hny).
  pose proof (finite_key_bounds mx ex Hcx Hbx) as Hkx.
  pose proof (finite_key_bounds my ey Hcy Hby) as Hky.
  cbn [SFmul].
  assert (Hle : ex + ey <= E64 (Z.pos (mx * my)) (ex + ey)).
  { unfold E64 in *.
    pose proof (Zdigits2_mono (Z.pos mx) (Z.pos (mx * my)) ltac:(lia) ltac:(nia)).
    pose proof (Zdigits2_mono (Z.pos my) (Z.pos (mx * my)) ltac:(lia) ltac:(nia)).
    lia. }
  rewrite bra_key by (assumption || lia).
  rewrite (K_as_KV _ _ (-2148)) by lia.
  assert (Hprod : Z.pos (mx * my) * 2 ^ (ex + ey - -2148)
                  = (Z.pos mx * 2 ^ (ex + 1074)) * (Z.pos my * 2 ^ (ey + 1074))).
  { replace (ex + ey - -2148) with ((ex + 1074) + (ey + 1074)) by lia.
    rewrite (Z.pow_add_r 2 (ex + 1074) (ey + 1074)), Pos2Z.inj_mul by lia. ring. }
  rewrite Hprod, !key_finite.
  set (kx := Z.pos mx * 2 ^ (ex + 1074)) in *.
  set (ky := Z.pos my * 2 ^ (ey + 1074)) in *.
  assert (Hpos : 0 < kx * ky) by nia.
  destruct sx, sy; cbn [xorb signed].
  - replace (- kx * - ky) with (kx * ky) by ring. symmetry. apply RK_pos, Hpos.
  - replace (- kx * ky) with (- (kx * ky)) by ring.
    rewrite RK_neg by lia. rewrite Z.opp_involutive. reflexivity.
  - replace (kx * - ky) with (- (kx * ky)) by ring.
    rewrite RK_neg by lia. rewrite Z.opp_involutive. reflexivity.
  - symmetry. apply RK_pos, Hpos.
Qed.

Lemma RK_key_finite (s : bool) (m : positive) (e : Z) :
  valid_binary (S754_finite s m e) = true ->
  RK (-1074) (key (S754_finite s m e)) = key (S754_finite s m e).
Proof.
  intros Hv. apply valid_finite in Hv as [Hc Hb].
  pose proof (finite_key_bounds m e Hc Hb) as Hk.
  rewrite key_finite, RK_signed by lia.
  rewrite KV_canonical by (lia || assumption).
  rewrite Z.min_l by lia. reflexivity.
Qed.

(** ** Signs *)

Lemma SFleb_zero_nonneg (f : spec_float) :
  SFleb (S754_zero false) f = true -> nonneg f = true.
Proof. destruct f as [s|s| |s m e]; try destruct s; cbn; congruence. Qed.

Lemma SFleb_zero_nonpos (f : spec_float) :
  SFleb f (S754_zero false) = true -> nonpos f = true.
Proof. destruct f as [s|s| |s m e]; try destruct s; cbn; congruence. Qed.

Lemma binary_round_aux_sign (s : bool) (m e : Z) (l : location) :
  binary_round_aux prec emax s m e l = S754_nan \/
  (if s then True else nonneg (binary_round_aux prec emax s m e l) = true).
Proof.
  unfold binary_round_aux.
  destruct (shr_fexp prec emax m e l) as [mrs e1].
  destruct (shr_fexp prec emax _ e1 loc_Exact) as [mrs2 e2].
  destruct (shr_m mrs2); [right|right|left; reflexivity];
    destruct s; try exact I; [reflexivity|].
  destruct (e2 <=? emax - prec); reflexivity.
Qed.

Lemma SFsqrt_nonneg (v : spec_float) :
  nonneg v = true ->
  SFsqrt prec emax v = S754_nan \/ nonneg (SFsqrt prec emax v) = true.
Proof.
  destruct v as [s|s| |s m e]; try destruct s; cbn [nonneg SFsqrt];
    try discriminate; intros _; try (right; reflexivity).
  destruct (SFsqrt_core_binary prec emax (Z.pos m) e) as [[mz ez] lz].
  exact (binary_round_aux_sign false mz ez lz).
Qed.

Lemma SFmul_nonneg (a b : spec_float) :
  nonneg a = true -> nonneg b = true ->
  SFmul prec emax a b = S754_nan \/ nonneg (SFmul prec emax a b) = true.
Proof.
  destruct a as [sa|sa| |sa ma ea]; try destruct sa; cbn [nonneg];
    try discriminate; intros _;
    destruct b as [sb|sb| |sb mb eb]; try destruct sb; cbn [nonneg];
    try discriminate; intros _; cbn [SFmul xorb];
    try (right; reflexivity); try (left; reflexivity).
  exact (binary_round_aux_sign false _ _ _).
Qed.

Lemma nonneg_key (f : spec_float) :
  valid_binary f = true -> nonneg f = true -> 0 <= key f /\ not_nan f.
Proof.
  intros Hv Hp. pose proof cap_pos.
  destruct f as [s|s| |s m e]; try destruct s; cbn [nonneg] in Hp;
    try discriminate; (split; [|discriminate]); cbn [key]; lia.
Qed.

Lemma RK_bounds (L V : Z) : L <= -1074 -> - cap <= RK L V <= cap.
Proof.
  intros HL. pose proof cap_pos.
  destruct V as [|p|p]; cbn [RK]; [lia| |].
  - pose proof (KV_nonneg L (Z.pos p) HL ltac:(lia)). lia.
  - pose proof (KV_nonneg L (- Z.neg p) HL ltac:(lia)). lia.
Qed.

(** ** Monotonicity of subtraction, addition and multiplication *)

(** Subtracting a nonnegative float does not increase. *)
Lemma SFsub_le (x d : spec_float) :
  valid_binary x = true -> valid_binary d = true -> nonneg d = true ->
  not_nan (SFsub prec emax x d) ->
  not_nan x /\ key (SFsub prec emax x d) <= key x.
Proof.
  intros Hx Hd Hp Hres. pose proof cap_pos as Hcap.
  destruct (nonneg_key d Hd Hp) as [Hkd _].
  destruct x as [sx|sx| |sx mx ex]; [| |contradiction Hres; reflexivity|];
    (split; [discriminate|]);
    destruct d as [sd|sd| |sd md ed]; try destruct sd; cbn [nonneg] in Hp;
    try discriminate Hp.
  all: try (rewrite SFsub_key_finite by assumption;
            rewrite <- (RK_key_finite sx mx ex Hx) at 2;
            apply RK_mono; lia).
  all: try (pose proof (key_bounds _ Hx) as Hkx).
  all: try (apply valid_finite in Hx as [Hc Hb];
            pose proof (finite_key_bounds mx ex Hc Hb) as Hfx).
  all: try (apply valid_finite in Hd as [Hcd Hbd];
            pose proof (finite_key_bounds md ed Hcd Hbd) as Hfd).
  all: try destruct sx; cbn [SFsub negb key] in *;
    try (contradiction Hres; reflexivity); lia.
Qed.

(** Adding a nonnegative float does not decrease. *)
Lemma SFadd_ge (x d : spec_float) :
  valid_binary x = true -> valid_binary d = true -> nonneg d = true ->
  not_nan (SFadd prec emax x d) ->
  not_nan x /\ key x <= key (SFadd prec emax x d).
Proof.
  intros Hx Hd Hp Hres. pose proof cap_pos as Hcap.
  destruct (nonneg_key d Hd Hp) as [Hkd _].
  destruct x as [sx|sx| |sx mx ex]; [| |contradiction Hres; reflexivity|];
    (split; [discriminate|]);
    destruct d as [sd|sd| |sd md ed]; try destruct sd; cbn [nonneg] in Hp;
    try discriminate Hp.
  all: try (rewrite SFadd_key_finite by assumption;
            rewrite <- (RK_key_finite sx mx ex Hx) at 1;
            apply RK_mono; lia).
  all: try (pose proof (key_bounds _ Hx) as Hkx).
  all: try (apply valid_finite in Hx as [Hc Hb];
            pose proof (finite_key_bounds mx ex Hc Hb) as Hfx).
  all: try (apply valid_finite in Hd as [Hcd Hbd];
            pose proof (finite_key_bounds md ed Hcd Hbd) as Hfd).
  all: try destruct sx; cbn [SFadd negb key] in *;
    try (contradiction Hres; reflexivity); lia.
Qed.

(** Multiplying by a nonnegative float keeps the order. *)
Lemma SFmul_mono (a b c : spec_float) :
  valid_binary a = true -> valid_binary b = true -> valid_binary c = true ->
  nonneg c = true -> not_nan a -> not_nan b -> key a <= key b ->
  not_nan (SFmul prec emax a c) -> not_nan (SFmul prec emax b c) ->
  key (SFmul prec emax a c) <= key (SFmul prec emax b c).
Proof.
  intros Ha Hb Hc Hp Hna Hnb Hab Hra Hrb. pose proof cap_pos as Hcap.
  pose proof (RK_bounds (-2148)) as HRK.
  destruct c as [sc|sc| |sc mc ec]; try destruct sc; cbn [nonneg] in Hp;
    try discriminate Hp; clear Hp.
  1-3: destruct a as [sa|sa| |sa ma ea]; try (contradiction Hna; reflexivity);
       try (contradiction Hra; reflexivity);
       destruct b as [sb|sb| |sb mb eb]; try (contradiction Hnb; reflexivity);
       try (contradiction Hrb; reflexivity);
       try (apply valid_finite in Ha as [Hca Hba];
            pose proof (finite_key_bounds ma ea Hca Hba));
       try (apply valid_finite in Hb as [Hcb Hbb];
            pose proof (finite_key_bounds mb eb Hcb Hbb));
       try destruct sa; try destruct sb; cbn [SFmul xorb key] in *; lia.
  assert (Hkc : 0 < key (S754_finite false mc ec)).
  { apply valid_finite in Hc as [Hcc Hbc].
    pose proof (finite_key_bounds mc ec Hcc Hbc). cbn [key]. lia. }
  assert (Hfin : forall s m e, valid_binary (S754_finite s m e) = true ->
            key (SFmul prec emax (S754_finite s m e) (S754_finite false mc ec))
            = RK (-2148) (key (S754_finite s m e) * key (S754_finite false mc ec))).
  { intros s m e Hv. apply SFmul_key_finite; assumption. }
  assert (Hzero : forall s,
            key (SFmul prec emax (S754_zero s) (S754_finite false mc ec))
            = RK (-2148) (key (S754_zero s) * key (S754_finite false mc ec))).
  { intros s. reflexivity. }
  assert (Hinf : forall s,
            key (SFmul prec emax (S754_infinity s) (S754_finite false mc ec))
            = key (S754_infinity s)).
  { intros s. destruct s; reflexivity. }
  destruct a as [sa|sa| |sa ma ea]; try (contradiction Hna; reflexivity);
    destruct b as [sb|sb| |sb mb eb]; try (contradiction Hnb; reflexivity);
    rewrite ?Hfin, ?Hzero, ?Hinf by assumption.
  all: try (apply RK_mono; [lia|]; apply Z.mul_le_mono_nonneg_r; lia).
  all: try (apply valid_finite in Ha as [Hca Hba];
            pose proof (finite_key_bounds ma ea Hca Hba)).
  all: try (apply valid_finite in Hb as [Hcb Hbb];
            pose proof (finite_key_bounds mb eb Hcb Hbb)).
  all: match goal with
       | |- context [RK (-2148) ?V] => specialize (HRK V ltac:(lia))
       | _ => idtac
       end.
  all: try destruct sa; try destruct sb; cbn [key] in *; lia.
Qed.

(** Multiplying by a nonpositive float reverses the order. *)
Lemma SFmul_antimono (a b c : spec_float) :
  valid_binary a = true -> valid_binary b = true -> valid_binary c = true ->
  nonpos c = true -> not_nan a -> not_nan b -> key a <= key b ->
  not_nan (SFmul prec emax a c) -> not_nan (SFmul prec emax b c) ->
  key (SFmul prec emax b c) <= key (SFmul prec emax a c).
Proof.
  intros Ha Hb Hc Hp Hna Hnb Hab Hra Hrb. pose proof cap_pos as Hcap.
  pose proof (RK_bounds (-2148)) as HRK.
  destruct c as [sc|sc| |sc mc ec]; try destruct sc; cbn [nonpos] in Hp;
    try discriminate Hp; clear Hp.
  1-3: destruct a as [sa|sa| |sa ma ea]; try (contradiction Hna; reflexivity);
       try (contradiction Hra; reflexivity);
       destruct b as [sb|sb| |sb mb eb]; try (contradiction Hnb; reflexivity);
       try (contradiction Hrb; reflexivity);
       try (apply valid_finite in Ha as [Hca Hba];
            pose proof (finite_key_bounds ma ea Hca Hba));
       try (apply valid_finite in Hb as [Hcb Hbb];
            pose proof (finite_key_bounds mb eb Hcb Hbb));
       try destruct sa; try destruct sb; cbn [SFmul xorb key] in *; lia.
  assert (Hkc : key (S754_finite true mc ec) < 0).
  { apply valid_finite in Hc as [Hcc Hbc].
    pose proof (finite_key_bounds mc ec Hcc Hbc). cbn [key]. lia. }
  assert (Hfin : forall s m e, valid_binary (S754_finite s m e) = true ->
            key (SFmul prec emax (S754_finite s m e) (S754_finite true mc ec))
            = RK (-2148) (key (S754_finite s m e) * key (S754_finite true mc ec))).
  { intros s m e Hv. apply SFmul_key_finite; assumption. }
  assert (Hzero : forall s,
            key (SFmul prec emax (S754_zero s) (S754_finite true mc ec))
            = RK (-2148) (key (S754_zero s) * key (S754_finite true mc ec))).
  { intros s. reflexivity. }
  assert (Hinf : forall s,
            key (SFmul prec emax (S754_infinity s) (S754_finite true mc ec))
            = - key (S754_infinity s)).
  { intros s. destruct s; cbn [SFmul xorb key]; lia. }
  destruct a as [sa|sa| |sa ma ea]; try (contradiction Hna; reflexivity);
    destruct b as [sb|sb| |sb mb eb]; try (contradiction Hnb; reflexivity);
    rewrite ?Hfin, ?Hzero, ?Hinf by assumption.
  all: try (apply RK_mono; [lia|]; apply Z.mul_le_mono_nonpos_r; lia).
  all: try (apply valid_finite in Ha as [Hca Hba];
            pose proof (finite_key_bounds ma ea Hca Hba)).
  all: try (apply valid_finite in Hb as [Hcb Hbb];
            pose proof (finite_key_bounds mb eb Hcb Hbb)).
  all: match goal with
       | |- context [RK (-2148) ?V] => specialize (HRK V ltac:(lia))
       | _ => idtac
       end.
  all: try destruct sa; try destruct sb; cbn [key] in *; lia.
Qed.

Lemma SFmul_nan_l (b : spec_float) : SFmul prec emax S754_nan b = S754_nan.
Proof. reflexivity. Qed.

Lemma SFmul_nan_r (a : spec_float) : SFmul prec emax a S754_nan = S754_nan.
Proof. destruct a; reflexivity. Qed.

Lemma SFsub_nan_r (a : spec_float) : SFsub prec emax a S754_nan = S754_nan.
Proof. destruct a; reflexivity. Qed.

Lemma SFadd_nan_r (a : spec_float) : SFadd prec emax a S754_nan = S754_nan.
Proof. destruct a; reflexivity. Qed.
End Rounding64.

(** ** Order of the bounds, on binary64 *)

Section Binary64Order.
Local Open Scope float_scope.

Lemma is_number_spec (x : float) : is_number x <-> not_nan (Prim2SF x).
Proof.
  unfold is_number. rewrite leb_spec. split.
  - intros Hle. apply (SFleb_not_nan _ _ Hle).
  - intros Hn. apply SFleb_refl; [apply Prim2SF_valid|exact Hn].
Qed.

Lemma leb_key (x y : float) :
  is_number x -> is_number y ->
  (x <=? y) = true <-> (key (Prim2SF x) <= key (Prim2SF y))%Z.
Proof.
  intros Hx Hy. rewrite leb_spec.
  apply SFleb_key; try apply Prim2SF_valid; apply is_number_spec; assumption.
Qed.

Lemma nonneg_float (x : float) : (0 <=? x) = true -> nonneg (Prim2SF x) = true.
Proof. rewrite leb_spec. apply SFleb_zero_nonneg. Qed.

Lemma nonpos_float (x : float) : (x <=? 0) = true -> nonpos (Prim2SF x) = true.
Proof. rewrite leb_spec. apply SFleb_zero_nonpos. Qed.

Lemma mul_is_number_l (x y : float) : is_number (x * y) -> is_number x.
Proof.
  rewrite !is_number_spec, mul_spec. intros Hxy Hx. apply Hxy.
  rewrite Hx. reflexivity.
Qed.

Lemma deviation_nonneg_binary64 (nsd var : float) :
  (0 <=? nsd) = true -> (0 <=? var) = true -> is_number (nsd * sqrt var) ->
  nonneg (Prim2SF (nsd * sqrt var)) = true.
Proof.
  intros Hnsd%nonneg_float Hvar%nonneg_float Hdev%is_number_spec.
  rewrite mul_spec, sqrt_spec in Hdev |- *.
  destruct (SFsqrt_nonneg _ Hvar) as [Hnan|Psqrt].
  - exfalso. apply Hdev. unfold SF64sqrt. rewrite Hnan. apply SFmul_nan_r.
  - destruct (SFmul_nonneg _ _ Hnsd Psqrt) as [Hnan|Pprod];
      [contradiction Hdev|exact Pprod].
Qed.

(** Before scaling: [x - d <= x] and [x <= x + d] for a nonnegative [d],
    when the difference (the sum) is a number. *)
Lemma sub_le_binary64 (x d : float) :
  nonneg (Prim2SF d) = true -> is_number (x - d) ->
  (key (Prim2SF (x - d)) <= key (Prim2SF x))%Z.
Proof.
  intros Pd Hn%is_number_spec. rewrite sub_spec in Hn |- *.
  apply SFsub_le; try apply Prim2SF_valid; assumption.
Qed.

Lemma add_ge_binary64 (x d : float) :
  nonneg (Prim2SF d) = true -> is_number (x + d) ->
  (key (Prim2SF x) <= key (Prim2SF (x + d)))%Z.
Proof.
  intros Pd Hn%is_number_spec. rewrite add_spec in Hn |- *.
  apply SFadd_ge; try apply Prim2SF_valid; assumption.
Qed.

Lemma sub_is_number_r (x d : float) : is_number (x - d) -> is_number d.
Proof.
  rewrite !is_number_spec, sub_spec. intros Hxd Hd. apply Hxd.
  rewrite Hd. apply SFsub_nan_r.
Qed.

Lemma add_is_number_r (x d : float) : is_number (x + d) -> is_number d.
Proof.
  rewrite !is_number_spec, add_spec. intros Hxd Hd. apply Hxd.
  rewrite Hd. apply SFadd_nan_r.
Qed.

(** Scaling both sides of an inequality by one float. *)
Lemma mul_le_binary64 (a b c : float) :
  (0 <=? c) = true -> (key (Prim2SF a) <= key (Prim2SF b))%Z ->
  is_number (a * c) -> is_number (b * c) -> (a * c <=? b * c) = true.
Proof.
  intros Hc Hab Ha Hb. apply leb_key; [assumption..|].
  pose proof (mul_is_number_l _ _ Ha) as Na.
  pose proof (mul_is_number_l _ _ Hb) as Nb.
  apply is_number_spec in Ha, Hb, Na, Nb. rewrite mul_spec in Ha, Hb.
  rewrite !mul_spec.
  apply SFmul_mono; try apply Prim2SF_valid; try assumption.
  apply nonneg_float, Hc.
Qed.

Lemma mul_ge_binary64 (a b c : float) :
  (c <=? 0) = true -> (key (Prim2SF a) <= key (Prim2SF b))%Z ->
  is_number (a * c) -> is_number (b * c) -> (b * c <=? a * c) = true.
Proof.
  intros Hc Hab Ha Hb. apply leb_key; [assumption..|].
  pose proof (mul_is_number_l _ _ Ha) as Na.
  pose proof (mul_is_number_l _ _ Hb) as Nb.
  apply is_number_spec in Ha, Hb, Na, Nb. rewrite mul_spec in Ha, Hb.
  rewrite !mul_spec.
  apply SFmul_antimono; try apply Prim2SF_valid; try assumption.
  apply nonpos_float, Hc.
Qed.

(** One statistic, on binary64: the deviation is nonnegative, so before
    scaling [x - d <= x <= x + d]; scaling by a nonnegative constant keeps
    the order and scaling by a nonpositive one reverses it. *)
Lemma bounds_order_binary64 (nsd mc corr : float) (p : MeanVariancePair float) :
  (0 <=? nsd) = true -> (0 <=? sample_mean_variance p) = true ->
  ((0 <=? mc) = true ->
     le_binary64 (lower_of nsd mc corr p) (center_of mc corr p) /\
     le_binary64 (center_of mc corr p) (upper_of nsd mc corr p)) /\
  ((mc <=? 0) = true ->
     le_binary64 (upper_of nsd mc corr p) (center_of mc corr p) /\
     le_binary64 (center_of mc corr p) (lower_of nsd mc corr p)).
Proof.
  intros Hnsd Hvar. unfold lower_of, center_of, upper_of, deviation_of.
  cbn [s_mul s_sub s_add s_sqrt binary64].
  set (x := sample_mean p - corr).
  set (d := nsd * sqrt (sample_mean_variance p)).
  assert (Hsub : is_number ((x - d) * mc) ->
                 (key (Prim2SF (x - d)) <= key (Prim2SF x))%Z).
  { intros Hn%mul_is_number_l. apply sub_le_binary64; [|exact Hn].
    apply deviation_nonneg_binary64; try assumption.
    apply (sub_is_number_r x), Hn. }
  assert (Hadd : is_number ((x + d) * mc) ->
                 (key (Prim2SF x) <= key (Prim2SF (x + d)))%Z).
  { intros Hn%mul_is_number_l. apply add_ge_binary64; [|exact Hn].
    apply deviation_nonneg_binary64; try assumption.
    apply (add_is_number_r x), Hn. }
  split; intros Hmc; split; intros Hleft Hright.
  - apply mul_le_binary64; auto.
  - apply mul_le_binary64; auto.
  - apply mul_ge_binary64; auto.
  - apply mul_ge_binary64; auto.
Qed.

(** [Export] on binary64: the order of the stored values at every cell. *)
Lemma Export_order_binary64 (num_standard_deviations mult_const
    correction_term_in : float) (kernel_sum : MeanVariancePairMatrix float)
    (r : KpcaResult float) :
  bounds_wf r -> covers kernel_sum r ->
  variances_nonneg_binary64 kernel_sum r ->
  (0 <=? num_standard_deviations) = true ->
  exists r',
    Export num_standard_deviations mult_const correction_term_in kernel_sum r
      = Ok r' /\
    forall k i, (k < n_rows (kpca_projections_ r))%nat ->
      (i < n_cols (kpca_projections_ r))%nat ->
      exists lower center upper,
        mat_at (kpca_projections_l_ r') k i = Ok lower /\
        mat_at (kpca_projections_ r') k i = Ok center /\
        mat_at (kpca_projections_u_ r') k i = Ok upper /\
        ((0 <=? mult_const) = true ->
           le_binary64 lower center /\ le_binary64 center upper) /\
        ((mult_const <=? 0) = true ->
           le_binary64 upper center /\ le_binary64 center lower).
Proof.
  intros Hwf Hcov Hvar Hn.
  destruct (Export_cells num_standard_deviations mult_const correction_term_in
              kernel_sum r Hwf Hcov)
    as (r' & Hrun & _ & _ & _ & _ & _ & _ & _ & Hcells).
  exists r'. split; [exact Hrun|]. intros k i Hk Hi.
  destruct (Hcells k i Hk Hi) as (Hcl & Hcc & Hcu).
  do 3 eexists. do 3 (split; [eassumption|]).
  apply bounds_order_binary64; auto.
Qed.
End Binary64Order.

(** ** The order of the stored bounds *)

(** C3 as amended.  For every statistic container whose variances are
    nonnegative, every [numStandardDeviations >= 0] and every
    [multiplicativeConstant >= 0], [Export] (on a well-formed result whose
    extent the container covers) completes, and at every component [k]
    and query point [i] the stored values are ordered as far as they are
    numbers.  On binary64, the [double] of the program (second part):
    [lower[k,i] <= center[k,i]] holds whenever neither of the two is NaN,
    and [center[k,i] <= upper[k,i]] holds whenever neither of the two is
    NaN; a stored NaN, which overflow of the intermediate results
    produces from finite inputs, compares with nothing.  In exact
    arithmetic, where nothing overflows (first part):
    [lower[k,i] <= center[k,i] <= upper[k,i]] without proviso. *)
Theorem Export_bounds_ordered :
  (forall (num_standard_deviations mult_const correction_term_in : R)
      (kernel_sum : MeanVariancePairMatrix R) (r : KpcaResult R),
    bounds_wf r -> covers kernel_sum r -> variances_nonneg kernel_sum r ->
    (0 <= num_standard_deviations)%R -> (0 <= mult_const)%R ->
    exists r',
      Export num_standard_deviations mult_const correction_term_in
        kernel_sum r = Ok r' /\
      forall k i, k < n_rows (kpca_projections_ r) ->
        i < n_cols (kpca_projections_ r) ->
        exists lower center upper,
          mat_at (kpca_projections_l_ r') k i = Ok lower /\
          mat_at (kpca_projections_ r') k i = Ok center /\
          mat_at (kpca_projections_u_ r') k i = Ok upper /\
          (lower <= center <= upper)%R) /\
  (forall (num_standard_deviations mult_const correction_term_in : float)
      (kernel_sum : MeanVariancePairMatrix float) (r : KpcaResult float),
    bounds_wf r -> covers kernel_sum r ->
    variances_nonneg_binary64 kernel_sum r ->
    (0 <=? num_standard_deviations)%float = true ->
    (0 <=? mult_const)%float = true ->
    exists r',
      Export num_standard_deviations mult_const correction_term_in
        kernel_sum r = Ok r' /\
      forall k i, k < n_rows (kpca_projections_ r) ->
        i < n_cols (kpca_projections_ r) ->
        exists lower center upper,
          mat_at (kpca_projections_l_ r') k i = Ok lower /\
          mat_at (kpca_projections_ r') k i = Ok center /\
          mat_at (kpca_projections_u_ r') k i = Ok upper /\
          le_binary64 lower center /\ le_binary64 center upper).
Proof.
  split.
  - intros nsd mc corr kernel_sum r Hwf Hcov Hvar Hn Hm.
    destruct (Export_order_exact nsd mc corr kernel_sum r Hwf Hcov Hvar Hn)
      as (r' & Hrun & Hcells).
    exists r'. split; [exact Hrun|]. intros k i Hk Hi.
    destruct (Hcells k i Hk Hi) as (l & c & u & Hl & Hc & Hu & Hpos & _).
    exists l, c, u. auto.
  - intros nsd mc corr kernel_sum r Hwf Hcov Hvar Hn Hm.
    destruct (Export_order_binary64 nsd mc corr kernel_sum r Hwf Hcov Hvar Hn)
      as (r' & Hrun & Hcells).
    exists r'. split; [exact Hrun|]. intros k i Hk Hi.
    destruct (Hcells k i Hk Hi) as (l & c & u & Hl & Hc & Hu & Hpos & _).
    exists l, c, u. auto.
Qed.

(** C4 as amended.  With [numStandardDeviations >= 0] and nonnegative
    variances, and no condition on the sign of [multiplicativeConstant],
    [Export] completes and the stored center lies between the two stored
    bounds as far as the stored values are numbers: in the order
    [lower, center, upper] when the constant is nonnegative and in the
    order [upper, center, lower] when it is nonpositive.  On binary64, the
    [double] of the program (second part), each of the two comparisons
    holds whenever neither of the two stored values it compares is NaN.
    In exact arithmetic (first part) both hold without proviso. *)
Theorem Export_center_between_bounds :
  (forall (num_standard_deviations mult_const correction_term_in : R)
      (kernel_sum : MeanVariancePairMatrix R) (r : KpcaResult R),
    bounds_wf r -> covers kernel_sum r -> variances_nonneg kernel_sum r ->
    (0 <= num_standard_deviations)%R ->
    exists r',
      Export num_standard_deviations mult_const correction_term_in
        kernel_sum r = Ok r' /\
      forall k i, k < n_rows (kpca_projections_ r) ->
        i < n_cols (kpca_projections_ r) ->
        exists lower center upper,
          mat_at (kpca_projections_l_ r') k i = Ok lower /\
          mat_at (kpca_projections_ r') k i = Ok center /\
          mat_at (kpca_projections_u_ r') k i = Ok upper /\
          ((0 <= mult_const)%R -> (lower <= center <= upper)%R) /\
          ((mult_const <= 0)%R -> (upper <= center <= lower)%R)) /\
  (forall (num_standard_deviations mult_const correction_term_in : float)
      (kernel_sum : MeanVariancePairMatrix float) (r : KpcaResult float),
    bounds_wf r -> covers kernel_sum r ->
    variances_nonneg_binary64 kernel_sum r ->
    (0 <=? num_standard_deviations)%float = true ->
    exists r',
      Export num_standard_deviations mult_const correction_term_in
        kernel_sum r = Ok r' /\
      forall k i, k < n_rows (kpca_projections_ r) ->
        i < n_cols (kpca_projections_ r) ->
        exists lower center upper,
          mat_at (kpca_projections_l_ r') k i = Ok lower /\
          mat_at (kpca_projections_ r') k i = Ok center /\
          mat_at (kpca_projections_u_ r') k i = Ok upper /\
          ((0 <=? mult_const)%float = true ->
             le_binary64 lower center /\ le_binary64 center upper) /\
          ((mult_const <=? 0)%float = true ->
             le_binary64 upper center /\ le_binary64 center lower)).
Proof.
  split.
  - intros nsd mc corr kernel_sum r. apply Export_order_exact.
  - intros nsd mc corr kernel_sum r. apply Export_order_binary64.
Qed.

Lemma two_component_variances_nonneg (uninit : nat -> R)
    (num_reference_points : Z) (m0 m1 : R) :
  variances_nonneg (two_component_stats m0 4%R m1 1%R)
    (Init uninit 2 num_reference_points 1 KpcaResult_new).
Proof. intros k i _ _. destruct k; cbn; lra. Qed.

Lemma two_component_variances_nonneg_binary64 (uninit : nat -> float)
    (num_reference_points : Z) (m0 m1 : float) :
  variances_nonneg_binary64 (two_component_stats m0 4%float m1 1%float)
    (Init uninit 2 num_reference_points 1 KpcaResult_new).
Proof. intros k i _ _. destruct k; reflexivity. Qed.

(** C3, at the scenario of the specification, in exact arithmetic and on
    binary64. *)
Lemma Export_bounds_ordered_witness :
  (let r := Init (fun _ => 0%R) 2 3 1 KpcaResult_new in
   let kernel_sum := (two_component_stats 10 4 20 1)%R in
   exists r',
     Export 2%R 1%R 0%R kernel_sum r = Ok r' /\
     forall k i, k < n_rows (kpca_projections_ r) ->
       i < n_cols (kpca_projections_ r) ->
       exists lower center upper,
         mat_at (kpca_projections_l_ r') k i = Ok lower /\
         mat_at (kpca_projections_ r') k i = Ok center /\
         mat_at (kpca_projections_u_ r') k i = Ok upper /\
         (lower <= center <= upper)%R) /\
  (let r := Init (fun _ => nan) 2 3 1 KpcaResult_new in
   let kernel_sum := (two_component_stats 10 4 20 1)%float in
   exists r',
     Export 2%float 1%float 0%float kernel_sum r = Ok r' /\
     forall k i, k < n_rows (kpca_projections_ r) ->
       i < n_cols (kpca_projections_ r) ->
       exists lower center upper,
         mat_at (kpca_projections_l_ r') k i = Ok lower /\
         mat_at (kpca_projections_ r') k i = Ok center /\
         mat_at (kpca_projections_u_ r') k i = Ok upper /\
         le_binary64 lower center /\ le_binary64 center upper).
Proof.
  split; intros r kernel_sum.
  - apply (proj1 Export_bounds_ordered 2%R 1%R 0%R kernel_sum r).
    + apply Init_bounds_wf.
    + apply two_component_covers.
    + apply two_component_variances_nonneg.
    + lra.
    + lra.
  - apply (proj2 Export_bounds_ordered 2%float 1%float 0%float kernel_sum r).
    + apply Init_bounds_wf.
    + apply two_component_covers.
    + apply two_component_variances_nonneg_binary64.
    + reflexivity.
    + reflexivity.
Defined.

(** C4 as amended, at the scenario with the constant negated, in exact
    arithmetic and on binary64. *)
Lemma Export_center_between_bounds_witness :
  (let r := Init (fun _ => 0%R) 2 3 1 KpcaResult_new in
   let kernel_sum := (two_component_stats 10 4 20 1)%R in
   exists r',
     Export 2%R (-1)%R 0%R kernel_sum r = Ok r' /\
     forall k i, k < n_rows (kpca_projections_ r) ->
       i < n_cols (kpca_projections_ r) ->
       exists lower center upper,
         mat_at (kpca_projections_l_ r') k i = Ok lower /\
         mat_at (kpca_projections_ r') k i = Ok center /\
         mat_at (kpca_projections_u_ r') k i = Ok upper /\
         (0 <= -1 -> lower <= center <= upper)%R /\
         (-1 <= 0 -> upper <= center <= lower)%R) /\
  (let r := Init (fun _ => nan) 2 3 1 KpcaResult_new in
   let kernel_sum := (two_component_stats 10 4 20 1)%float in
   exists r',
     Export 2%float (-1)%float 0%float kernel_sum r = Ok r' /\
     forall k i, k < n_rows (kpca_projections_ r) ->
       i < n_cols (kpca_projections_ r) ->
       exists lower center upper,
         mat_at (kpca_projections_l_ r') k i = Ok lower /\
         mat_at (kpca_projections_ r') k i = Ok center /\
         mat_at (kpca_projections_u_ r') k i = Ok upper /\
         ((0 <=? -1)%float = true ->
            le_binary64 lower center /\ le_binary64 center upper) /\
         ((-1 <=? 0)%float = true ->
            le_binary64 upper center /\ le_binary64 center lower)).
Proof.
  split; intros r kernel_sum.
  - apply (proj1 Export_center_between_bounds 2%R (-1)%R 0%R kernel_sum r).
    + apply Init_bounds_wf.
    + apply two_component_covers.
    + apply two_component_variances_nonneg.
    + lra.
  - apply (proj2 Export_center_between_bounds 2%float (-1)%float 0%float
             kernel_sum r).
    + apply Init_bounds_wf.
    + apply two_component_covers.
    + apply two_component_variances_nonneg_binary64.
    + reflexivity.
Defined.

(** C3 fails as stated on the [double] of the program.  The inputs mean
    [2^1023], correction [-2^1023], [numStandardDeviations = 2^1023],
    variance 4 and constant 1 are finite and meet every condition of the
    claim, yet both [mean - correction] and the deviation overflow to
    infinity: the stored lower bound is [inf - inf], not a number, the
    stored center is [inf], and [lower <= center] is false. *)
Lemma Export_overflow_counterexample :
  let kernel_sum := (two_component_stats 0x1p1023 4 0x1p1023 4)%float in
  let r := Init (fun _ => nan) 2 3 1 KpcaResult_new in
  Forall (fun x => is_finite x = true) [0x1p1023; -0x1p1023; 4; 1]%float /\
  bounds_wf r /\ covers kernel_sum r /\
  variances_nonneg_binary64 kernel_sum r /\
  (0 <=? 0x1p1023)%float = true /\ (0 <=? 1)%float = true /\
  Export 0x1p1023%float 1%float (-0x1p1023)%float kernel_sum r
  = Ok (with_bounds KpcaResult_new
          (mkMat 2 1 [nan; nan]) (mkMat 2 1 [infinity; infinity])
          (mkMat 2 1 [infinity; infinity])) /\
  (nan <=? infinity)%float = false.
Proof.
  intros kernel_sum r.
  split; [repeat constructor|].
  split; [apply Init_bounds_wf|]. split; [apply two_component_covers|].
  split; [intros k i _ _; destruct k; reflexivity|].
  split; [reflexivity|]. split; [reflexivity|].
  split; vm_compute; reflexivity.
Qed.

(** C4 fails as stated: with [numStandardDeviations = 2], variances 4
    and 1 and [multiplicativeConstant = -1], [Export] stores
    [lower(0,0) = -6] and [center(0,0) = -10], and [-6 <= -10] is false,
    in exact arithmetic and in binary64.  And on binary64 the reversed
    order holds no further than the stored values are numbers: with the
    finite inputs mean [2^1023], correction [-2^1023],
    [numStandardDeviations = 2^1023], variance 4 and the same constant,
    the stored lower bound is NaN and [center <= lower] is false too. *)
Lemma Export_negative_constant_counterexample :
  (let r := Init (fun _ => 0%R) 2 3 1 KpcaResult_new in
   let kernel_sum := (two_component_stats 10 4 20 1)%R in
   (0 <= 2)%R /\ variances_nonneg kernel_sum r /\
   exists r',
     Export 2%R (-1)%R 0%R kernel_sum r = Ok r' /\
     mat_at (kpca_projections_l_ r') 0 0 = Ok (-6)%R /\
     mat_at (kpca_projections_ r') 0 0 = Ok (-10)%R /\
     ~ (-6 <= -10)%R) /\
  (Export 2%float (-1)%float 0%float (two_component_stats 10 4 20 1)%float
     (Init (fun _ => nan) 2 3 1 KpcaResult_new)
   = Ok (with_bounds KpcaResult_new
           (mkMat 2 1 [-6; -18]) (mkMat 2 1 [-10; -20])
           (mkMat 2 1 [-14; -22]))%float /\
   PrimFloat.leb (-6) (-10) = false) /\
  (Export 0x1p1023%float (-1)%float (-0x1p1023)%float
     (two_component_stats 0x1p1023 4 0x1p1023 4)%float
     (Init (fun _ => nan) 2 3 1 KpcaResult_new)
   = Ok (with_bounds KpcaResult_new
           (mkMat 2 1 [nan; nan]) (mkMat 2 1 [neg_infinity; neg_infinity])
           (mkMat 2 1 [neg_infinity; neg_infinity])) /\
   (neg_infinity <=? nan)%float = false).
Proof.
  split; [|split].
  - intros r kernel_sum. split; [lra|].
    split; [apply two_component_variances_nonneg|].
    destruct (Export_cells 2%R (-1)%R 0%R kernel_sum r)
      as (r' & Hrun & _ & _ & _ & _ & _ & _ & _ & Hcells).
    { apply Init_bounds_wf. }
    { apply two_component_covers. }
    exists r'. split; [exact Hrun|].
    subst r. rewrite Init_unfold, !uword_of_int_nonneg in Hcells by lia.
    destruct (Hcells 0 0) as (Hl & Hc & _); [cbn; lia..|].
    rewrite Hl, Hc. unfold lower_of, center_of, deviation_of. cbn.
    rewrite sqrt_4. repeat split; [f_equal; lra..|lra].
  - split; vm_compute; reflexivity.
  - split; vm_compute; reflexivity.
Qed.

(** ** What Export reads, and what it does not check *)

Lemma for_loop_ext {S} (body body' : nat -> S -> outcome S) (n : nat) (s : S) :
  (forall j t, j < n -> body j t = body' j t) ->
  for_loop n body s = for_loop n body' s.
Proof.
  intros Hext. induction n as [|n IH]; [reflexivity|].
  rewrite !for_loop_S, IH by (intros j t Hj; apply Hext; lia).
  destruct (for_loop n body' s) as [t| |]; [|reflexivity..].
  rewrite !bind_Ok. apply Hext. lia.
Qed.

Section ExportAccess.
Context {T : Type} `{Scalar T}.
Implicit Types (r : KpcaResult T) (kernel_sum : MeanVariancePairMatrix T).

Lemma elem_of_extent_pairs (rows cols k i : nat) :
  (k, i) ∈ extent_pairs rows cols <-> k < rows /\ i < cols.
Proof.
  unfold extent_pairs. rewrite list_elem_of_bind. split.
  - intros (i' & Hin & Hi'). apply list_elem_of_bind in Hin as (k' & Hin & Hk').
    apply list_elem_of_singleton in Hin. injection Hin as -> ->.
    apply elem_of_seq in Hi', Hk'. lia.
  - intros [Hk Hi]. exists i. split; [|apply elem_of_seq; lia].
    apply list_elem_of_bind. exists k. split; [|apply elem_of_seq; lia].
    apply list_elem_of_singleton. reflexivity.
Qed.

Lemma elem_of_four_reads (pairs : list (nat * nat)) (p : nat * nat) :
  p ∈ four_reads pairs <-> p ∈ pairs.
Proof.
  unfold four_reads. rewrite list_elem_of_bind. split.
  - intros (q & Hin & Hq). rewrite !elem_of_cons, elem_of_nil in Hin.
    destruct Hin as [->|[->|[->|[->|[]]]]]; assumption.
  - intros Hp. exists p. split; [apply list_elem_of_here|assumption].
Qed.

(** [Export] consults the container only through [get] at the pairs of
    the result's extent. *)
Lemma Export_logged_ext (nsd mc corr : T) kernel_sum kernel_sum' r :
  (forall k i, k < n_rows (kpca_projections_ r) ->
     i < n_cols (kpca_projections_ r) ->
     mv_get kernel_sum' k i = mv_get kernel_sum k i) ->
  Export_logged nsd mc corr kernel_sum' r = Export_logged nsd mc corr kernel_sum r.
Proof.
  intros Hsame. unfold Export_logged.
  apply for_loop_ext. intros i st Hi.
  apply for_loop_ext. intros k [r' reads] Hk.
  unfold Export_body. rewrite (Hsame k i Hk Hi). reflexivity.
Qed.

Lemma Export_logged_reads (nsd mc corr : T) kernel_sum r r' (reads : list (nat * nat)) :
  bounds_wf r ->
  Export_logged nsd mc corr kernel_sum r = Ok (r', reads) ->
  reads = four_reads (extent_pairs (n_rows (kpca_projections_ r))
                        (n_cols (kpca_projections_ r))).
Proof.
  intros Hwf Hrun.
  pose proof (Export_logged_Ok_covers _ _ _ _ _ _ Hrun) as Hcov.
  destruct (Export_logged_spec nsd mc corr kernel_sum r Hwf Hcov)
    as (st & Hrun' & Hinv).
  rewrite Hrun in Hrun'. injection Hrun' as <-.
  destruct Hinv as (_ & _ & _ & _ & _ & _ & _ & _ & Hlog). cbn in Hlog.
  rewrite app_nil_r in Hlog. exact Hlog.
Qed.

Lemma Export_logged_outside (nsd mc corr : T) kernel_sum r (k i : nat) :
  k < n_rows (kpca_projections_ r) -> i < n_cols (kpca_projections_ r) ->
  mv_get kernel_sum k i = Undefined ->
  Export_logged nsd mc corr kernel_sum r = Undefined.
Proof.
  intros Hk Hi Hout.
  destruct (Export_logged nsd mc corr kernel_sum r) as [st|e|] eqn:Hrun.
  - pose proof (Export_logged_Ok_covers _ _ _ _ _ _ Hrun k i Hk Hi) as Hin.
    rewrite (mv_get_in _ _ _ Hin) in Hout. discriminate.
  - exfalso. exact (Export_logged_no_raise _ _ _ _ _ _ Hrun).
  - reflexivity.
Qed.
End ExportAccess.

(** C10. [Export] takes its iteration extent from [kpca_projections_]
    alone and validates no shape.  (1) A run that completes has called
    [kernel_sum.get] exactly at the pairs [(k, i)] with [k] below that
    matrix's row count and [i] below its column count, four times each, in
    loop order.  (2) On a well-formed result, a container whose extent
    covers the result's makes every access in bounds: the run completes.
    (3) What [Export] does is determined by what [get] answers at those
    pairs: entries elsewhere are never read.  (4) If some pair of the
    result's extent is outside the container's, the out-of-range branch of
    [get] is taken and the run is undefined. *)
Theorem Export_reads_result_extent (T : Type) (S : Scalar T)
    (num_standard_deviations mult_const correction_term_in : T)
    (kernel_sum : MeanVariancePairMatrix T) (r : KpcaResult T) :
  let rows := n_rows (kpca_projections_ r) in
  let cols := n_cols (kpca_projections_ r) in
  (bounds_wf r ->
   forall r' reads,
     Export_logged num_standard_deviations mult_const correction_term_in
       kernel_sum r = Ok (r', reads) ->
     reads = four_reads (extent_pairs rows cols) /\
     forall k i, (k, i) ∈ reads <-> k < rows /\ i < cols) /\
  (bounds_wf r -> covers kernel_sum r ->
   exists r' reads,
     Export_logged num_standard_deviations mult_const correction_term_in
       kernel_sum r = Ok (r', reads) /\
     Forall (fun p => mv_in_extent kernel_sum p.1 p.2) reads) /\
  (forall kernel_sum',
     (forall k i, k < rows -> i < cols ->
        mv_get kernel_sum' k i = mv_get kernel_sum k i) ->
     Export num_standard_deviations mult_const correction_term_in kernel_sum' r
     = Export num_standard_deviations mult_const correction_term_in kernel_sum r) /\
  (forall k i, k < rows -> i < cols -> ~ mv_in_extent kernel_sum k i ->
     mv_get kernel_sum k i = Undefined /\
     Export num_standard_deviations mult_const correction_term_in kernel_sum r
     = Undefined).
Proof.
  intros rows cols. split; [|split; [|split]].
  - intros Hwf r' reads Hrun.
    pose proof (Export_logged_reads _ _ _ _ _ _ _ Hwf Hrun) as ->.
    split; [reflexivity|]. intros k i.
    rewrite elem_of_four_reads. apply elem_of_extent_pairs.
  - intros Hwf Hcov.
    destruct (Export_logged_spec num_standard_deviations mult_const
                correction_term_in kernel_sum r Hwf Hcov) as ([r' reads] & Hrun & _).
    exists r', reads. split; [exact Hrun|].
    pose proof (Export_logged_reads _ _ _ _ _ _ _ Hwf Hrun) as ->.
    apply Forall_forall. intros [k i] Hin.
    apply elem_of_four_reads, elem_of_extent_pairs in Hin as [Hk Hi].
    exact (Hcov k i Hk Hi).
  - intros kernel_sum' Hsame. unfold Export.
    rewrite (Export_logged_ext _ _ _ kernel_sum kernel_sum' r Hsame). reflexivity.
  - intros k i Hk Hi Hout.
    assert (Hget : mv_get kernel_sum k i = Undefined).
    { unfold mv_get. rewrite decide_False; [reflexivity|assumption]. }
    split; [exact Hget|]. unfold Export.
    rewrite (Export_logged_outside _ _ _ kernel_sum r k i Hk Hi Hget). reflexivity.
Qed.

(** C10, at the scenario of the specification (every access in bounds,
    eight reads) and at a three-component result over the same
    two-component container (component 2 is out of range). *)
Lemma Export_reads_result_extent_witness :
  let kernel_sum := (two_component_stats 10 4 20 1)%float in
  (exists r' reads,
     Export_logged 2%float 1%float 0%float kernel_sum
       (Init (fun _ => nan) 2 3 1 KpcaResult_new) = Ok (r', reads) /\
     reads = [(0, 0); (0, 0); (0, 0); (0, 0); (1, 0); (1, 0); (1, 0); (1, 0)]) /\
  Export 2%float 1%float 0%float kernel_sum
    (Init (fun _ => nan) 3 3 1 KpcaResult_new) = Undefined.
Proof.
  intros kernel_sum. split.
  - pose proof (Export_reads_result_extent float binary64 2%float 1%float
                  0%float kernel_sum (Init (fun _ => nan) 2 3 1 KpcaResult_new))
      as (Hreads & Hruns & _ & _).
    destruct Hruns as (r' & reads & Hrun & _).
    { vm_compute. repeat split. }
    { apply two_component_covers. }
    exists r', reads. split; [exact Hrun|].
    destruct (Hreads ltac:(vm_compute; repeat split) r' reads Hrun) as [-> _].
    vm_compute. reflexivity.
  - pose proof (Export_reads_result_extent float binary64 2%float 1%float
                  0%float kernel_sum (Init (fun _ => nan) 3 3 1 KpcaResult_new))
      as (_ & _ & _ & Hout).
    apply (Hout 2 0).
    + vm_compute. lia.
    + vm_compute. lia.
    + unfold mv_in_extent. cbn. lia.
Defined.

(** C5 fails as stated: a two-component container against a
    one-component, one-query-point result is a shape mismatch, and
    [Export] proceeds to completion instead of failing. *)
Lemma Export_mismatch_counterexample :
  let r := Init (fun _ => nan) 1 3 1 KpcaResult_new in
  let kernel_sum := (two_component_stats 10 4 20 1)%float in
  (mv_n_rows kernel_sum, mv_n_cols kernel_sum)
    <> (n_rows (kpca_projections_ r), n_cols (kpca_projections_ r)) /\
  Export 2%float 1%float 0%float kernel_sum r
    = Ok (with_bounds KpcaResult_new
            (mkMat 1 1 [6]) (mkMat 1 1 [10]) (mkMat 1 1 [14]))%float /\
  Export 2%float 1%float 0%float kernel_sum r <> Raise DimensionMismatch.
Proof.
  intros r kernel_sum.
  assert (Hrun : Export 2%float 1%float 0%float kernel_sum r
            = Ok (with_bounds KpcaResult_new
                    (mkMat 1 1 [6]) (mkMat 1 1 [10]) (mkMat 1 1 [14]))%float).
  { vm_compute. reflexivity. }
  split; [vm_compute; discriminate|]. split; [exact Hrun|].
  rewrite Hrun. discriminate.
Qed.

(** C5 as amended. [Export] checks no shape and raises no error, a
    [DimensionMismatch] or any other, on any input; on a well-formed
    result it completes for every statistic container whose extent covers
    the result's, of the same extent or a larger one, leaving the
    dimensions of the bound matrices as they were. *)
Theorem Export_no_shape_check (T : Type) (S : Scalar T)
    (num_standard_deviations mult_const correction_term_in : T)
    (kernel_sum : MeanVariancePairMatrix T) (r : KpcaResult T) :
  (forall e : error,
     Export num_standard_deviations mult_const correction_term_in kernel_sum r
     <> Raise e) /\
  (bounds_wf r ->
   n_rows (kpca_projections_ r) <= mv_n_rows kernel_sum ->
   n_cols (kpca_projections_ r) <= mv_n_cols kernel_sum ->
   exists r',
     Export num_standard_deviations mult_const correction_term_in kernel_sum r
       = Ok r' /\
     same_layout (kpca_projections_l_ r') (kpca_projections_l_ r) /\
     same_layout (kpca_projections_ r') (kpca_projections_ r) /\
     same_layout (kpca_projections_u_ r') (kpca_projections_u_ r)).
Proof.
  split.
  - intros e Hraise. unfold Export in Hraise.
    destruct (Export_logged num_standard_deviations mult_const
                correction_term_in kernel_sum r) as [st|e'|] eqn:Hrun;
      try discriminate.
    injection Hraise as ->. exact (Export_logged_no_raise _ _ _ _ _ _ Hrun).
  - intros Hwf Hrows Hcols.
    destruct (Export_cells num_standard_deviations mult_const
                correction_term_in kernel_sum r Hwf)
      as (r' & Hrun & Hl & Hc & Hu & _).
    { intros k i Hk Hi. unfold mv_in_extent. lia. }
    exists r'. repeat split; assumption || apply Hl || apply Hc || apply Hu.
Qed.

(** C5 as amended, at the mismatching pair of the counterexample. *)
Lemma Export_no_shape_check_witness :
  let r := Init (fun _ => nan) 1 3 1 KpcaResult_new in
  let kernel_sum := (two_component_stats 10 4 20 1)%float in
  exists r', Export 2%float 1%float 0%float kernel_sum r = Ok r' /\
    same_layout (kpca_projections_ r') (kpca_projections_ r).
Proof.
  intros r kernel_sum.
  destruct (proj2 (Export_no_shape_check float binary64 2%float 1%float 0%float
                     kernel_sum r)) as (r' & Hrun & _ & Hc & _).
  - vm_compute. repeat split.
  - vm_compute. lia.
  - vm_compute. lia.
  - exists r'. split; [exact Hrun|exact Hc].
Defined.

(** ** Eigendecomposition results *)

(** *** The pairs handed to the sort *)

Section IndexPairs.
Context {T : Type} `{Scalar T}.

Lemma indexed_eigenvalues_Ok (v : Vec T) :
  indexed_eigenvalues v = Ok (index_pairs v).
Proof.
  unfold indexed_eigenvalues.
  destruct (for_loop_rule
    (fun j (w : list (nat * T)) =>
       length w = length v /\
       forall i, i < j -> w !! i = (fun x => (i, x)) <$> v !! i)
    (fun i w => x ← checked (v !! i);
       if decide (i < length w) then Ok (<[i := (i, x)]> w) else Undefined)
    (length v) (replicate (length v) (0, s_zero))) as (w & Hrun & Hlen & Hcells).
  - split; [apply length_replicate|]. intros i Hi. lia.
  - intros j w Hj [Hlen Hcells]. cbn beta.
    destruct (lookup_lt_is_Some_2 v j Hj) as [x Hx].
    rewrite Hx. cbn [checked]. rewrite bind_Ok.
    rewrite decide_True by lia. eexists. split; [reflexivity|].
    split; [rewrite length_insert; exact Hlen|].
    intros i Hi. destruct (decide (i = j)) as [->|Hne].
    + rewrite list_lookup_insert_eq by lia. rewrite Hx. reflexivity.
    + rewrite list_lookup_insert_ne by congruence. apply Hcells. lia.
  - rewrite Hrun. f_equal. apply list_eq. intros i.
    unfold index_pairs. rewrite list_lookup_imap.
    destruct (decide (i < length v)) as [Hi|Hi]; [apply Hcells, Hi|].
    rewrite !lookup_ge_None_2 by lia. reflexivity.
Qed.

Lemma elem_of_index_pairs (v : Vec T) (p : nat * T) :
  p ∈ index_pairs v <-> v !! p.1 = Some p.2.
Proof.
  unfold index_pairs. rewrite list_elem_of_lookup. split.
  - intros (i & Hi). rewrite list_lookup_imap in Hi.
    destruct (v !! i) as [x|] eqn:Hx; [|discriminate].
    injection Hi as <-. exact Hx.
  - intros Hp. exists p.1. rewrite list_lookup_imap, Hp. destruct p; reflexivity.
Qed.

Lemma NoDup_index_pairs (v : Vec T) : NoDup (index_pairs v).
Proof.
  apply NoDup_alt. intros i j p Hi Hj. unfold index_pairs in *.
  rewrite list_lookup_imap in Hi, Hj.
  destruct (v !! i); [|discriminate]. destruct (v !! j); [|discriminate].
  cbn in Hi, Hj. congruence.
Qed.

Lemma fmap_snd_index_pairs (v : Vec T) : (index_pairs v).*2 = v.
Proof.
  apply list_eq. intros i. unfold index_pairs.
  rewrite list_lookup_fmap, list_lookup_imap. destruct (v !! i); reflexivity.
Qed.

Lemma sorted_pairs_length (v : Vec T) (sorted : list (nat * T)) :
  index_pairs v ≡ₚ sorted -> length sorted = length v.
Proof.
  intros Hperm. rewrite <- Hperm. unfold index_pairs. apply length_imap.
Qed.

Lemma sorted_entry (v : Vec T) (sorted : list (nat * T)) (i : nat) (p : nat * T) :
  index_pairs v ≡ₚ sorted -> sorted !! i = Some p ->
  p.1 < length v /\ v !! p.1 = Some p.2.
Proof.
  intros Hperm Hp. apply list_elem_of_lookup_2 in Hp. rewrite <- Hperm in Hp.
  apply elem_of_index_pairs in Hp. split; [|exact Hp].
  apply lookup_lt_Some in Hp. exact Hp.
Qed.

(** The values of a sorted sequence of pairs are a rearrangement of the
    input in which no value exceeds an earlier one. *)
Lemma sorted_values_spec (v : Vec T) (sorted : list (nat * T)) :
  std_sort_post eigen_comp (index_pairs v) sorted ->
  v ≡ₚ sorted.*2 /\
  forall a b x y, a < b -> sorted.*2 !! a = Some x ->
    sorted.*2 !! b = Some y -> ~ s_gt y x.
Proof.
  intros [Hperm Hsorted]. split.
  - rewrite <- Hperm, fmap_snd_index_pairs. reflexivity.
  - intros a b x y Hab Ha Hb. rewrite list_lookup_fmap in Ha, Hb.
    destruct (sorted !! a) as [p|] eqn:Hp; [|discriminate].
    destruct (sorted !! b) as [q|] eqn:Hq; [|discriminate].
    injection Ha as <-. injection Hb as <-.
    exact (Hsorted a b p q Hab Hp Hq).
Qed.

(** With a sort that is stable on the input, pairs the comparator does
    not distinguish come out in ascending order of their indices. *)
Lemma stable_ties_ascending (v : Vec T) (sorted : list (nat * T))
    (a b : nat) (p q : nat * T) :
  std_sort_post eigen_comp (index_pairs v) sorted ->
  stable_on eigen_comp (index_pairs v) sorted ->
  a < b -> sorted !! a = Some p -> sorted !! b = Some q ->
  ~ eigen_comp p q -> p.1 < q.1.
Proof.
  intros [Hperm Hsorted] Hstable Hab Hp Hq Htie.
  pose proof (Hsorted a b p q Hab Hp Hq) as Htie'.
  assert (Hnodup : NoDup sorted).
  { rewrite <- Hperm. apply NoDup_index_pairs. }
  assert (Hin : forall i (w : nat * T), sorted !! i = Some w ->
            index_pairs v !! w.1 = Some w).
  { intros i w Hw. destruct (sorted_entry v sorted i w Hperm Hw) as [_ Hval].
    unfold index_pairs. rewrite list_lookup_imap, Hval. destruct w; reflexivity. }
  destruct (Nat.lt_trichotomy p.1 q.1) as [Hlt|[Heq|Hgt]]; [exact Hlt|exfalso..].
  - pose proof (Hin a p Hp) as Hp'. pose proof (Hin b q Hq) as Hq'.
    rewrite Heq in Hp'. assert (p = q) as -> by congruence.
    pose proof (NoDup_lookup _ _ _ _ Hnodup Hp Hq). lia.
  - destruct (Hstable q.1 p.1 q p Hgt (Hin b q Hq) (Hin a p Hp) Htie' Htie)
      as (a' & b' & Hab' & Hq' & Hp').
    pose proof (NoDup_lookup _ _ _ _ Hnodup Hp Hp').
    pose proof (NoDup_lookup _ _ _ _ Hnodup Hq Hq'). lia.
Qed.
End IndexPairs.

(** *** The loops, for any binding of the eigenvector argument *)

Section EigenLoops.
Context {T : Type} `{Scalar T}.
Variable covariance_eigenvectors_in : mat_ref T.
Variable sorted_eigenvalues : list (nat * T).
Implicit Types (r st : KpcaResult T).

(** The body of the loop over the rows of column [i], and of the loop
    over the columns. *)
Let copy_cell (i j : nat) st : outcome (KpcaResult T) :=
  q ← checked (sorted_eigenvalues !! i);
  x ← mat_at (read_mat covariance_eigenvectors_in st) j q.1;
  vecs ← mat_set (covariance_eigenvectors_ st) j i x;
  Ok (with_eigen st (kernel_eigenvalues_ st) vecs).

Let store_column (i : nat) st : outcome (KpcaResult T) :=
  p ← checked (sorted_eigenvalues !! i);
  vals ← vec_set (kernel_eigenvalues_ st) i p.2;
  let st := with_eigen st vals (covariance_eigenvectors_ st) in
  for_loop (n_rows (read_mat covariance_eigenvectors_in st)) (copy_cell i) st.

(** The object after the two calls of [set_size]. *)
Let resized (uninit : nat -> T) r : KpcaResult T :=
  let r :=
    with_eigen r
      (vec_set_size uninit (n_cols (read_mat covariance_eigenvectors_in r))
         (kernel_eigenvalues_ r))
      (covariance_eigenvectors_ r) in
  with_eigen r (kernel_eigenvalues_ r)
    (mat_set_size uninit (n_rows (read_mat covariance_eigenvectors_in r))
       (n_cols (read_mat covariance_eigenvectors_in r))
       (covariance_eigenvectors_ r)).

Lemma set_eigendecomposition_results_unfold (uninit : nat -> T)
    (std_sort : list (nat * T) -> outcome (list (nat * T)))
    (kernel_eigenvalues_in : vec_ref T) r :
  std_sort (index_pairs (read_vec kernel_eigenvalues_in r))
    = Ok sorted_eigenvalues ->
  set_eigendecomposition_results uninit std_sort kernel_eigenvalues_in
    covariance_eigenvectors_in r
  = for_loop (n_cols (read_mat covariance_eigenvectors_in (resized uninit r)))
      store_column (resized uninit r).
Proof.
  intros Hsort. unfold set_eigendecomposition_results.
  rewrite indexed_eigenvalues_Ok, bind_Ok, Hsort, bind_Ok. reflexivity.
Qed.

Lemma vec_set_no_raise (v : Vec T) (i : nat) (x : T) (e : error) :
  vec_set v i x <> Raise e.
Proof. unfold vec_set. destruct (decide _); discriminate. Qed.

Lemma copy_cell_no_raise (i j : nat) st (e : error) :
  copy_cell i j st <> Raise e.
Proof.
  unfold copy_cell. intros Hr.
  apply bind_Raise_inv in Hr as [Hr|(q & _ & Hr)];
    [exact (checked_no_raise _ _ Hr)|].
  apply bind_Raise_inv in Hr as [Hr|(x & _ & Hr)];
    [exact (checked_no_raise _ _ Hr)|].
  apply bind_Raise_inv in Hr as [Hr|(vecs & _ & Hr)]; [|discriminate].
  exact (mat_set_no_raise _ _ _ _ _ Hr).
Qed.

Lemma store_column_no_raise (e : error) (i : nat) st :
  store_column i st <> Raise e.
Proof.
  unfold store_column. intros Hr.
  apply bind_Raise_inv in Hr as [Hr|(p & _ & Hr)];
    [exact (checked_no_raise _ _ Hr)|].
  apply bind_Raise_inv in Hr as [Hr|(vals & _ & Hr)];
    [exact (vec_set_no_raise _ _ _ _ Hr)|].
  revert Hr. apply for_loop_no_raise. intros j t. apply copy_cell_no_raise.
Qed.

(** What a completed step leaves of the object: the two eigen fields are
    replaced by fields of the same size, everything else stays. *)
Let eigen_step st st' : Prop :=
  exists vals vecs,
    st' = with_eigen st vals vecs /\
    length vals = length (kernel_eigenvalues_ st) /\
    same_layout vecs (covariance_eigenvectors_ st).

Lemma eigen_step_refl st : eigen_step st st.
Proof.
  exists (kernel_eigenvalues_ st), (covariance_eigenvectors_ st).
  split; [destruct st; reflexivity|]. repeat split.
Qed.

Lemma eigen_step_trans st st' st'' :
  eigen_step st st' -> eigen_step st' st'' -> eigen_step st st''.
Proof.
  intros (vals & vecs & -> & Hlen & Hr & Hc & Hm)
         (vals' & vecs' & -> & Hlen' & Hr' & Hc' & Hm').
  cbn [with_eigen kernel_eigenvalues_ covariance_eigenvectors_] in *.
  exists vals', vecs'. split; [reflexivity|].
  split; [congruence|]. repeat split; congruence.
Qed.

Lemma copy_cell_step_of (i j : nat) st st' :
  copy_cell i j st = Ok st' -> eigen_step st st'.
Proof.
  unfold copy_cell. intros Hrun.
  apply bind_Ok_inv in Hrun as (q & _ & Hrun).
  apply bind_Ok_inv in Hrun as (x & _ & Hrun).
  apply bind_Ok_inv in Hrun as (vecs & Hset & Hrun). injection Hrun as <-.
  exists (kernel_eigenvalues_ st), vecs. split; [reflexivity|].
  split; [reflexivity|].
  unfold mat_set in Hset. destruct (decide _); [|discriminate].
  injection Hset as <-. repeat split. cbn [mem]. apply length_insert.
Qed.

Lemma store_column_step_of (i : nat) st st' :
  store_column i st = Ok st' -> eigen_step st st'.
Proof.
  unfold store_column. intros Hrun.
  apply bind_Ok_inv in Hrun as (p & _ & Hrun).
  apply bind_Ok_inv in Hrun as (vals & Hset & Hrun). cbn zeta in Hrun.
  apply (eigen_step_trans _ (with_eigen st vals (covariance_eigenvectors_ st))).
  - exists vals, (covariance_eigenvectors_ st). split; [reflexivity|].
    split; [|repeat split].
    unfold vec_set in Hset. destruct (decide _); [|discriminate].
    injection Hset as <-. apply length_insert.
  - refine (for_loop_preserves (eigen_step _) _ _ _ _ _ Hrun (eigen_step_refl _)).
    intros j u u' Hcell Hu.
    exact (eigen_step_trans _ _ _ Hu (copy_cell_step_of _ _ _ _ Hcell)).
Qed.

Lemma resized_step (uninit : nat -> T) r :
  exists vals vecs, resized uninit r = with_eigen r vals vecs.
Proof. unfold resized. cbn zeta. eauto. Qed.

Lemma store_columns_frame (uninit : nat -> T)
    (std_sort : list (nat * T) -> outcome (list (nat * T)))
    (kernel_eigenvalues_in : vec_ref T) r r' :
  std_sort (index_pairs (read_vec kernel_eigenvalues_in r))
    = Ok sorted_eigenvalues ->
  set_eigendecomposition_results uninit std_sort kernel_eigenvalues_in
    covariance_eigenvectors_in r = Ok r' ->
  exists vals vecs, r' = with_eigen r vals vecs.
Proof.
  intros Hsort Hrun.
  rewrite (set_eigendecomposition_results_unfold _ _ _ _ Hsort) in Hrun.
  assert (Hstep : eigen_step (resized uninit r) r').
  { refine (for_loop_preserves (eigen_step _) _ _ _ _ _ Hrun (eigen_step_refl _)).
    intros i u u' Hcol Hu.
    exact (eigen_step_trans _ _ _ Hu (store_column_step_of _ _ _ Hcol)). }
  destruct Hstep as (vals & vecs & -> & _).
  destruct (resized_step uninit r) as (vals0 & vecs0 & ->). eauto.
Qed.

(** The object the eigenvector argument is bound to keeps its layout
    through every step, whichever object that is. *)
Lemma read_mat_step st st' :
  eigen_step st st' ->
  same_layout (read_mat covariance_eigenvectors_in st')
    (read_mat covariance_eigenvectors_in st).
Proof.
  intros (vals & vecs & -> & Hlen & Hlay).
  destruct covariance_eigenvectors_in as [m| |];
    cbn [read_mat ref_read covariance_eigenvectors kernel_eigenvalues
         with_eigen covariance_eigenvectors_ kernel_eigenvalues_].
  - repeat split.
  - exact Hlay.
  - unfold vec_as_mat, same_layout. cbn [n_rows n_cols mem]. auto.
Qed.

(** After the two calls of [set_size], the object the eigenvector
    argument is bound to has the column count it had, and is well formed
    with a row if it was. *)
Lemma read_mat_resized (uninit : nat -> T) r :
  let before := read_mat covariance_eigenvectors_in r in
  let after := read_mat covariance_eigenvectors_in (resized uninit r) in
  n_cols after = n_cols before /\
  (mat_wf before -> mat_wf after) /\
  (0 < n_rows before -> 0 < n_rows after).
Proof.
  unfold resized.
  destruct covariance_eigenvectors_in as [m| |];
    cbn [read_mat ref_read covariance_eigenvectors kernel_eigenvalues
         with_eigen covariance_eigenvectors_ kernel_eigenvalues_].
  - auto.
  - destruct (mat_set_size_layout uninit
                (n_rows (covariance_eigenvectors_ r))
                (n_cols (covariance_eigenvectors_ r))
                (covariance_eigenvectors_ r)) as (Hr & Hc & Hm).
    split; [exact Hc|]. split.
    + intros _. unfold mat_wf. rewrite Hr, Hc. exact Hm.
    + rewrite Hr. auto.
  - unfold vec_as_mat, mat_wf. cbn [n_rows n_cols mem].
    rewrite vec_set_size_length. split; [reflexivity|]. split; intros; lia.
Qed.

(** X6. With fewer eigenvalues than eigenvector columns, the loop over
    the columns reads [sorted_eigenvalues[i]] beyond the end of the vector:
    the call is undefined (no error is raised), whichever objects the two
    arguments are bound to. *)
Theorem set_eigendecomposition_results_too_few_eigenvalues
    (uninit : nat -> T)
    (std_sort : list (nat * T) -> outcome (list (nat * T)))
    (kernel_eigenvalues_in : vec_ref T) r :
  std_sort (index_pairs (read_vec kernel_eigenvalues_in r))
    = Ok sorted_eigenvalues ->
  index_pairs (read_vec kernel_eigenvalues_in r) ≡ₚ sorted_eigenvalues ->
  length (read_vec kernel_eigenvalues_in r)
    < n_cols (read_mat covariance_eigenvectors_in r) ->
  set_eigendecomposition_results uninit std_sort kernel_eigenvalues_in
    covariance_eigenvectors_in r = Undefined.
Proof.
  intros Hsort Hperm Hfew. apply sorted_pairs_length in Hperm.
  rewrite (set_eigendecomposition_results_unfold _ _ _ _ Hsort).
  destruct (read_mat_resized uninit r) as (Hcols & _).
  apply (for_loop_undefined store_column _ (length sorted_eigenvalues)).
  - rewrite Hcols, Hperm. exact Hfew.
  - exact store_column_no_raise.
  - intros t t' _ Hrun. unfold store_column in Hrun.
    rewrite lookup_ge_None_2 in Hrun by lia. discriminate.
Qed.

(** X7. When one of the first [n_cols] sorted pairs records an index
    that is no column of the eigenvector matrix (possible only with more
    eigenvalues than columns) and the matrix has a row, copying that
    column reads beyond the matrix: the call is undefined, whichever
    objects the two arguments are bound to. *)
Theorem set_eigendecomposition_results_foreign_index (uninit : nat -> T)
    (std_sort : list (nat * T) -> outcome (list (nat * T)))
    (kernel_eigenvalues_in : vec_ref T) r (i : nat) (p : nat * T) :
  std_sort (index_pairs (read_vec kernel_eigenvalues_in r))
    = Ok sorted_eigenvalues ->
  mat_wf (read_mat covariance_eigenvectors_in r) ->
  0 < n_rows (read_mat covariance_eigenvectors_in r) ->
  i < n_cols (read_mat covariance_eigenvectors_in r) ->
  sorted_eigenvalues !! i = Some p ->
  n_cols (read_mat covariance_eigenvectors_in r) <= p.1 ->
  set_eigendecomposition_results uninit std_sort kernel_eigenvalues_in
    covariance_eigenvectors_in r = Undefined.
Proof.
  intros Hsort Hwf Hrows Hi Hp Hidx.
  rewrite (set_eigendecomposition_results_unfold _ _ _ _ Hsort).
  destruct (read_mat_resized uninit r) as (Hcols & Hwf' & Hrows').
  set (Inv := fun st =>
    mat_wf (read_mat covariance_eigenvectors_in st) /\
    0 < n_rows (read_mat covariance_eigenvectors_in st) /\
    n_cols (read_mat covariance_eigenvectors_in st) <= p.1).
  assert (Hkeep : forall st st', eigen_step st st' -> Inv st -> Inv st').
  { intros st st' Hstep (Hw & Hr & Hc).
    destruct (read_mat_step _ _ Hstep) as (Er & Ec & Em).
    unfold Inv, mat_wf in *. rewrite Er, Ec, Em. auto. }
  apply (for_loop_undefined_at Inv store_column _ i).
  - rewrite Hcols. exact Hi.
  - exact store_column_no_raise.
  - unfold Inv. rewrite Hcols. auto.
  - intros k t t' Hrun. apply Hkeep. exact (store_column_step_of _ _ _ Hrun).
  - intros t t' Hinv Hrun. unfold store_column in Hrun.
    rewrite Hp in Hrun. cbn [checked] in Hrun. rewrite bind_Ok in Hrun.
    apply bind_Ok_inv in Hrun as (vals & Hset & Hrun). cbn zeta in Hrun.
    set (t1 := with_eigen t vals (covariance_eigenvectors_ t)) in *.
    assert (Hinv1 : Inv t1).
    { apply (Hkeep t); [|exact Hinv].
      exists vals, (covariance_eigenvectors_ t). split; [reflexivity|].
      split; [|repeat split].
      unfold vec_set in Hset. destruct (decide _); [|discriminate].
      injection Hset as <-. apply length_insert. }
    destruct Hinv1 as (Hw1 & Hr1 & Hc1).
    destruct (for_loop_Ok_inv _ _ _ _ Hrun 0 Hr1) as (u & u' & Hu & Hcell).
    injection Hu as <-. unfold copy_cell in Hcell.
    rewrite Hp in Hcell. cbn [checked] in Hcell. rewrite bind_Ok in Hcell.
    apply bind_Ok_inv in Hcell as (x & Hx & _).
    unfold mat_at in Hx. apply checked_Ok_inv, lookup_lt_Some in Hx.
    unfold mat_wf in Hw1. nia.
Qed.
End EigenLoops.

(** A completed call wrote the two eigen fields only, whichever objects
    its arguments are bound to. *)
Lemma set_eigendecomposition_results_frame {T} `{Scalar T} (uninit : nat -> T)
    (std_sort : list (nat * T) -> outcome (list (nat * T)))
    (kernel_eigenvalues_in : vec_ref T) (covariance_eigenvectors_in : mat_ref T)
    (r r' : KpcaResult T) :
  set_eigendecomposition_results uninit std_sort kernel_eigenvalues_in
    covariance_eigenvectors_in r = Ok r' ->
  exists vals vecs, r' = with_eigen r vals vecs.
Proof.
  intros Hrun. pose proof Hrun as Hsteps.
  unfold set_eigendecomposition_results in Hsteps.
  apply bind_Ok_inv in Hsteps as (pairs & Hpairs & Hsteps).
  apply bind_Ok_inv in Hsteps as (sorted_eigenvalues & Hsort & _).
  rewrite indexed_eigenvalues_Ok in Hpairs. injection Hpairs as <-.
  exact (store_columns_frame covariance_eigenvectors_in sorted_eigenvalues
           uninit std_sort kernel_eigenvalues_in r r' Hsort Hrun).
Qed.

(** *** The eigenvector argument bound to an object of its own *)

Section EigenObject.
Context {T : Type} `{Scalar T}.
Variable covariance_eigenvectors_in : Mat T.
Variable sorted_eigenvalues : list (nat * T).

Let n := n_cols covariance_eigenvectors_in.
Let rows := n_rows covariance_eigenvectors_in.

(** The loops on the two fields they write. *)
Let copy_cell (i j : nat) (vecs : Mat T) : outcome (Mat T) :=
  q ← checked (sorted_eigenvalues !! i);
  x ← mat_at covariance_eigenvectors_in j q.1;
  mat_set vecs j i x.

Let store_column (i : nat) (st : list T * Mat T) : outcome (list T * Mat T) :=
  p ← checked (sorted_eigenvalues !! i);
  vals ← vec_set st.1 i p.2;
  vecs ← for_loop rows (copy_cell i) st.2;
  Ok (vals, vecs).

(** The argument is read from an object no store of the loops reaches, so
    the loops over the object are the loops over its two eigen fields. *)
Lemma set_eigendecomposition_results_object (uninit : nat -> T)
    (std_sort : list (nat * T) -> outcome (list (nat * T)))
    (kernel_eigenvalues_in : vec_ref T) (r : KpcaResult T) :
  std_sort (index_pairs (read_vec kernel_eigenvalues_in r))
    = Ok sorted_eigenvalues ->
  set_eigendecomposition_results uninit std_sort kernel_eigenvalues_in
    (mat_object covariance_eigenvectors_in) r
  = st ← for_loop n store_column
           (vec_set_size uninit n (kernel_eigenvalues_ r),
            mat_set_size uninit rows n (covariance_eigenvectors_ r));
    Ok (with_eigen r st.1 st.2).
Proof.
  intros Hsort.
  rewrite (set_eigendecomposition_results_unfold (mat_object _) _ _ _ _ _ Hsort).
  cbn [read_mat].
  rewrite (for_loop_lift
             (fun st : KpcaResult T =>
                (kernel_eigenvalues_ st, covariance_eigenvectors_ st))
             (fun st p => with_eigen st p.1 p.2) store_column).
  - reflexivity.
  - intros [? ? ? ? ? ? ?]. reflexivity.
  - intros t [vals vecs]. reflexivity.
  - reflexivity.
  - intros i st. unfold store_column. cbn [fst snd read_mat].
    destruct (checked (sorted_eigenvalues !! i)) as [p| |] eqn:Hp;
      [|reflexivity..].
    rewrite !bind_Ok.
    destruct (vec_set (kernel_eigenvalues_ st) i p.2) as [vals| |];
      [|reflexivity..].
    rewrite !bind_Ok. cbn zeta. fold rows.
    rewrite (for_loop_lift covariance_eigenvectors_
               (fun st vecs => with_eigen st (kernel_eigenvalues_ st) vecs)
               (copy_cell i)).
    + cbn [with_eigen covariance_eigenvectors_ kernel_eigenvalues_].
      destruct (for_loop rows (copy_cell i) (covariance_eigenvectors_ st));
        reflexivity.
    + intros [? ? ? ? ? ? ?]. reflexivity.
    + reflexivity.
    + reflexivity.
    + intros j t. unfold copy_cell. rewrite Hp, !bind_Ok.
      destruct (mat_at covariance_eigenvectors_in j p.1); reflexivity.
Qed.

Hypothesis eigenvectors_wf : mat_wf covariance_eigenvectors_in.
Hypothesis enough_pairs : n <= length sorted_eigenvalues.
Hypothesis leading_indices :
  forall i p, i < n -> sorted_eigenvalues !! i = Some p -> p.1 < n.

(** The eigenvector matrix under construction keeps the shape it was
    given by [set_size]. *)
Let vecs_layout (vecs : Mat T) : Prop :=
  n_rows vecs = rows /\ n_cols vecs = n /\ length (mem vecs) = rows * n.

(** Column [i] of [vecs] is, below row [j], the input column [idx]. *)
Let column_filled (vecs : Mat T) (i idx j : nat) : Prop :=
  forall j', j' < j ->
    exists x, mem covariance_eigenvectors_in !! (j' + idx * rows) = Some x /\
              mem vecs !! (j' + i * rows) = Some x.

(** Columns below [i] are complete copies of the columns the sorted
    pairs point at. *)
Let columns_done (vecs : Mat T) (i : nat) : Prop :=
  forall i' p, i' < i -> sorted_eigenvalues !! i' = Some p ->
    column_filled vecs i' p.1 rows.

Lemma copy_cell_step (i : nat) (p : nat * T) (j : nat) (vecs : Mat T) :
  i < n -> sorted_eigenvalues !! i = Some p -> j < rows ->
  vecs_layout vecs /\ columns_done vecs i /\ column_filled vecs i p.1 j ->
  exists vecs',
    copy_cell i j vecs = Ok vecs' /\
    vecs_layout vecs' /\ columns_done vecs' i /\ column_filled vecs' i p.1 (S j).
Proof.
  intros Hi Hp Hj ((Hr & Hc & Hlen) & Hdone & Hfill).
  pose proof (leading_indices i p Hi Hp) as Hidx.
  unfold copy_cell. rewrite Hp. cbn [checked]. rewrite bind_Ok.
  pose proof (cell_index_lt rows n j p.1 Hj Hidx) as Hsrc.
  destruct (lookup_lt_is_Some_2 (mem covariance_eigenvectors_in)
              (j + p.1 * rows)) as [x Hx].
  { rewrite eigenvectors_wf. exact Hsrc. }
  unfold mat_at. fold rows. rewrite Hx. cbn [checked]. rewrite bind_Ok.
  pose proof (cell_index_lt rows n j i Hj Hi) as Hdst.
  rewrite mat_set_in by (rewrite Hr, Hlen; exact Hdst).
  eexists. split; [reflexivity|]. rewrite Hr.
  split; [|split].
  - unfold vecs_layout. cbn [n_rows n_cols mem]. rewrite length_insert. auto.
  - intros i' p' Hi' Hp' j' Hj'. cbn [mem].
    destruct (Hdone i' p' Hi' Hp' j' Hj') as (y & Hy & Hy').
    exists y. split; [exact Hy|].
    rewrite list_lookup_insert_ne; [exact Hy'|].
    intros Heq. apply cell_index_inj in Heq as [_ ->]; [lia|assumption..].
  - intros j' Hj'. cbn [mem]. destruct (decide (j' = j)) as [->|Hne].
    + exists x. split; [exact Hx|].
      apply list_lookup_insert_eq. rewrite Hlen. exact Hdst.
    + destruct (Hfill j') as (y & Hy & Hy'); [lia|].
      exists y. split; [exact Hy|].
      rewrite list_lookup_insert_ne; [exact Hy'|].
      intros Heq. apply cell_index_inj in Heq as [-> _]; [congruence|lia..].
Qed.

Lemma copy_cells (i : nat) (p : nat * T) (vecs : Mat T) :
  i < n -> sorted_eigenvalues !! i = Some p ->
  vecs_layout vecs -> columns_done vecs i ->
  exists vecs',
    for_loop rows (copy_cell i) vecs = Ok vecs' /\
    vecs_layout vecs' /\ columns_done vecs' (S i).
Proof.
  intros Hi Hp Hlay Hdone.
  destruct (for_loop_rule
    (fun j vecs => vecs_layout vecs /\ columns_done vecs i /\
                   column_filled vecs i p.1 j)
    (copy_cell i) rows vecs) as (vecs' & Hrun & Hlay' & Hdone' & Hfill).
  - split; [exact Hlay|]. split; [exact Hdone|]. intros j' Hj'. lia.
  - intros j t Hj Hinv. apply (copy_cell_step i p j t Hi Hp Hj Hinv).
  - exists vecs'. split; [exact Hrun|]. split; [exact Hlay'|].
    intros i' p' Hi' Hp'. destruct (decide (i' = i)) as [->|Hne].
    + rewrite Hp in Hp'. injection Hp' as <-. exact Hfill.
    + apply Hdone'; [lia|exact Hp'].
Qed.

(** Invariant of the loop over the columns: eigenvalues and columns
    below [i] are in place. *)
Let columns_inv (i : nat) (st : list T * Mat T) : Prop :=
  length st.1 = n /\ vecs_layout st.2 /\ columns_done st.2 i /\
  forall i' p, i' < i -> sorted_eigenvalues !! i' = Some p ->
    st.1 !! i' = Some p.2.

Lemma store_columns (vals0 : list T) (vecs0 : Mat T) :
  length vals0 = n -> vecs_layout vecs0 ->
  exists st, for_loop n store_column (vals0, vecs0) = Ok st /\ columns_inv n st.
Proof.
  intros Hlen0 Hlay0. apply (for_loop_rule columns_inv).
  - split; [exact Hlen0|]. split; [exact Hlay0|].
    split; intros i' p Hi'; lia.
  - intros i [vals vecs] Hi (Hlen & Hlay & Hdone & Hvals). cbn [fst snd] in *.
    destruct (lookup_lt_is_Some_2 sorted_eigenvalues i) as [p Hp]; [lia|].
    destruct (copy_cells i p vecs Hi Hp Hlay Hdone) as (vecs' & Hrun & Hlay' & Hdone').
    unfold store_column. cbn [fst snd].
    rewrite Hp. cbn [checked]. rewrite bind_Ok.
    unfold vec_set. rewrite decide_True by lia. rewrite bind_Ok.
    rewrite Hrun, bind_Ok.
    eexists. split; [reflexivity|]. unfold columns_inv. cbn [fst snd].
    split; [rewrite length_insert; exact Hlen|].
    split; [exact Hlay'|]. split; [exact Hdone'|].
    intros i' p' Hi' Hp'. destruct (decide (i' = i)) as [->|Hne].
    + rewrite Hp in Hp'. injection Hp' as <-.
      apply list_lookup_insert_eq. lia.
    + rewrite list_lookup_insert_ne by congruence. apply Hvals; [lia|exact Hp'].
Qed.

(** What the call leaves when there are at least as many sorted pairs as
    columns and the leading pairs point at columns of the input. *)
Lemma set_eigendecomposition_results_leading (uninit : nat -> T)
    (std_sort : list (nat * T) -> outcome (list (nat * T)))
    (kernel_eigenvalues_in : vec_ref T) (r : KpcaResult T) :
  std_sort (index_pairs (read_vec kernel_eigenvalues_in r))
    = Ok sorted_eigenvalues ->
  exists vecs,
    set_eigendecomposition_results uninit std_sort kernel_eigenvalues_in
      (mat_object covariance_eigenvectors_in) r
    = Ok (with_eigen r (take n sorted_eigenvalues.*2) vecs) /\
    same_shape vecs covariance_eigenvectors_in /\ mat_wf vecs /\
    forall i p, i < n -> sorted_eigenvalues !! i = Some p ->
      column_copied covariance_eigenvectors_in p.1 vecs i.
Proof.
  intros Hsort. rewrite (set_eigendecomposition_results_object _ _ _ _ Hsort).
  destruct (store_columns (vec_set_size uninit n (kernel_eigenvalues_ r))
              (mat_set_size uninit rows n (covariance_eigenvectors_ r)))
    as ([vals vecs] & Hrun & Hlen & (Hr & Hc & Hmem) & Hdone & Hvals).
  { apply vec_set_size_length. }
  { apply mat_set_size_layout. }
  cbn [fst snd] in *. rewrite Hrun, bind_Ok. cbn [fst snd].
  assert (Hvals_eq : vals = take n sorted_eigenvalues.*2).
  { apply list_eq. intros i. destruct (decide (i < n)) as [Hi|Hi].
    - rewrite lookup_take_lt by exact Hi. rewrite list_lookup_fmap.
      destruct (lookup_lt_is_Some_2 sorted_eigenvalues i) as [p Hp]; [lia|].
      rewrite Hp. apply (Hvals i p Hi Hp).
    - rewrite lookup_take_ge by lia. apply lookup_ge_None_2. lia. }
  exists vecs. rewrite Hvals_eq. split; [reflexivity|].
  split; [split; assumption|].
  split; [unfold mat_wf; rewrite Hr, Hc; exact Hmem|].
  intros i p Hi Hp j Hj. fold rows in Hj.
  destruct (Hdone i p Hi Hp j Hj) as (x & Hx & Hx').
  exists x. unfold mat_at. fold rows. rewrite Hr, Hx, Hx'. split; reflexivity.
Qed.
End EigenObject.

(** *** The claims about the eigendecomposition *)

(** C2 as amended.  For [n] eigenvalues (handed over in an object of their
    own or in the result's own eigenvalue member) paired with a
    well-formed [n]-column eigenvector matrix that is an object of its own,
    and a sort that meets the contract of [std::sort] on the
    (index, eigenvalue) pairs, [set_eigendecomposition_results] completes
    and stores: an eigenvalue sequence that is a rearrangement of the
    input in which no eigenvalue exceeds an earlier one (non-increasing);
    and an eigenvector matrix of the input's shape whose column [j] holds,
    cell by cell, the input column at the original index recorded for the
    [j]-th sorted eigenvalue.  Both have the full input column count:
    nothing is truncated.  The other members are untouched. *)
Theorem set_eigendecomposition_results_sorted_permutation
    (T : Type) (S : Scalar T) (uninit : nat -> T)
    (std_sort : list (nat * T) -> outcome (list (nat * T)))
    (kernel_eigenvalues_in : vec_ref T) (covariance_eigenvectors_in : Mat T)
    (r : KpcaResult T) (sorted_eigenvalues : list (nat * T)) :
  mat_wf covariance_eigenvectors_in ->
  length (read_vec kernel_eigenvalues_in r) = n_cols covariance_eigenvectors_in ->
  std_sort (index_pairs (read_vec kernel_eigenvalues_in r))
    = Ok sorted_eigenvalues ->
  std_sort_post eigen_comp (index_pairs (read_vec kernel_eigenvalues_in r))
    sorted_eigenvalues ->
  exists r',
    set_eigendecomposition_results uninit std_sort kernel_eigenvalues_in
      (mat_object covariance_eigenvectors_in) r = Ok r' /\
    read_vec kernel_eigenvalues_in r ≡ₚ kernel_eigenvalues_ r' /\
    (forall a b x y, a < b ->
       kernel_eigenvalues_ r' !! a = Some x ->
       kernel_eigenvalues_ r' !! b = Some y -> ~ s_gt y x) /\
    length (kernel_eigenvalues_ r') = n_cols covariance_eigenvectors_in /\
    n_rows (covariance_eigenvectors_ r') = n_rows covariance_eigenvectors_in /\
    n_cols (covariance_eigenvectors_ r') = n_cols covariance_eigenvectors_in /\
    mat_wf (covariance_eigenvectors_ r') /\
    (forall j, j < n_cols covariance_eigenvectors_in ->
       exists idx e,
         sorted_eigenvalues !! j = Some (idx, e) /\
         idx < n_cols covariance_eigenvectors_in /\
         read_vec kernel_eigenvalues_in r !! idx = Some e /\
         kernel_eigenvalues_ r' !! j = Some e /\
         column_copied covariance_eigenvectors_in idx
           (covariance_eigenvectors_ r') j) /\
    kpca_projections_l_ r' = kpca_projections_l_ r /\
    kpca_projections_ r' = kpca_projections_ r /\
    kpca_projections_u_ r' = kpca_projections_u_ r /\
    reference_projections_ r' = reference_projections_ r /\
    kpca_components_ r' = kpca_components_ r.
Proof.
  intros Hwf Hlen Hsort Hpost.
  set (evals := read_vec kernel_eigenvalues_in r) in *.
  pose proof (sorted_pairs_length evals _ (proj1 Hpost)) as Hslen.
  assert (Hidx : forall i p, i < n_cols covariance_eigenvectors_in ->
            sorted_eigenvalues !! i = Some p ->
            p.1 < n_cols covariance_eigenvectors_in).
  { intros i p _ Hp.
    destruct (sorted_entry evals _ i p (proj1 Hpost) Hp) as [Hlt _]. lia. }
  destruct (set_eigendecomposition_results_leading covariance_eigenvectors_in
              sorted_eigenvalues Hwf ltac:(lia) Hidx uninit std_sort
              kernel_eigenvalues_in r Hsort)
    as (vecs & Hrun & [Hr Hc] & Hwf' & Hcols).
  rewrite take_ge in Hrun by (rewrite length_fmap; lia).
  destruct (sorted_values_spec evals _ Hpost) as [Hperm Hsorted].
  eexists. split; [exact Hrun|].
  cbn [with_eigen kernel_eigenvalues_ covariance_eigenvectors_
       kpca_projections_l_ kpca_projections_ kpca_projections_u_
       reference_projections_ kpca_components_].
  split; [exact Hperm|]. split; [exact Hsorted|].
  split; [rewrite length_fmap; lia|].
  do 3 (split; [assumption|]).
  split; [|repeat split].
  intros j Hj.
  destruct (lookup_lt_is_Some_2 sorted_eigenvalues j) as [[idx e] Hp]; [lia|].
  destruct (sorted_entry evals _ j _ (proj1 Hpost) Hp) as [Hlt Hval].
  exists idx, e. split; [exact Hp|]. split; [cbn in Hlt; lia|].
  split; [exact Hval|]. split; [|exact (Hcols j (idx, e) Hj Hp)].
  rewrite list_lookup_fmap, Hp. reflexivity.
Qed.

(** Case analysis on a position of a concrete list. *)
Ltac at_position H :=
  match type of H with
  | _ !! ?a = Some _ =>
      repeat (destruct a as [|a]; cbn in H; [injection H as <-|]);
      try match goal with
          | H' : _ !! _ = Some _ |- _ =>
              apply lookup_lt_Some in H'; cbn in H'; lia
          end
  end.

(** The scenario of the specification, evaluated with the sort of
    libstdc++: eigenvalues [3, 9, 1] with columns [v0, v1, v2] give
    [9, 3, 1] with columns [v1, v0, v2]. *)
Example set_eigendecomposition_results_scenario :
  set_eigendecomposition_results (fun _ => nan) std_sort_libstdcxx
    (vec_object three_eigenvalues) (mat_object three_eigenvectors)
    KpcaResult_new
  = Ok (with_eigen KpcaResult_new [9; 3; 1]
          (mkMat 2 3 [20; 21; 10; 11; 30; 31]))%float.
Proof. vm_compute. reflexivity. Qed.

Lemma three_eigenvalues_order :
  std_sort_libstdcxx (index_pairs three_eigenvalues)
  = Ok [(1, 9%float); (0, 3%float); (2, 1%float)].
Proof. vm_compute. reflexivity. Qed.

Lemma three_eigenvalues_sorted :
  std_sort_post eigen_comp (index_pairs three_eigenvalues)
    [(1, 9%float); (0, 3%float); (2, 1%float)].
Proof.
  split.
  - vm_compute. apply perm_swap.
  - intros a b x y Hab Ha Hb Hcomp.
    at_position Ha; at_position Hb; try lia;
      vm_compute in Hcomp; discriminate Hcomp.
Qed.

(** C2 as amended, at the scenario of the specification. *)
Lemma set_eigendecomposition_results_sorted_permutation_witness :
  exists r',
    set_eigendecomposition_results (fun _ => nan) std_sort_libstdcxx
      (vec_object three_eigenvalues) (mat_object three_eigenvectors)
      KpcaResult_new = Ok r' /\
    three_eigenvalues ≡ₚ kernel_eigenvalues_ r' /\
    length (kernel_eigenvalues_ r') = 3 /\
    n_cols (covariance_eigenvectors_ r') = 3.
Proof.
  destruct (set_eigendecomposition_results_sorted_permutation float binary64
              (fun _ => nan) std_sort_libstdcxx (vec_object three_eigenvalues)
              three_eigenvectors KpcaResult_new
              [(1, 9%float); (0, 3%float); (2, 1%float)])
    as (r' & Hrun & Hperm & _ & Hlen & _ & Hcols & _).
  - reflexivity.
  - reflexivity.
  - exact three_eigenvalues_order.
  - exact three_eigenvalues_sorted.
  - exists r'. repeat split; assumption.
Defined.

(** C2 fails as stated.  The arguments are references, and the function
    writes [covariance_eigenvectors_] while it still reads its argument.
    Called on the result's own eigen members, holding eigenvalues
    [3, 9, 1] and columns [v0, v1, v2], it overwrites column 0 with [v1]
    and then copies the overwritten column 0 into column 1: the stored
    columns are [v1, v1, v2], and column 1 is not the input column [v0]
    recorded for the second sorted eigenvalue. *)
Lemma set_eigendecomposition_results_alias_counterexample :
  kernel_eigenvalues_ eigen_scenario_result = [3; 9; 1]%float /\
  covariance_eigenvectors_ eigen_scenario_result
    = mkMat 2 3 [10; 11; 20; 21; 30; 31]%float /\
  std_sort_libstdcxx (index_pairs [3; 9; 1]%float)
    = Ok [(1, 9%float); (0, 3%float); (2, 1%float)] /\
  set_eigendecomposition_results (fun _ => nan) std_sort_libstdcxx
    vec_member_kernel_eigenvalues mat_member_covariance_eigenvectors
    eigen_scenario_result
  = Ok (with_eigen KpcaResult_new [9; 3; 1]
          (mkMat 2 3 [20; 21; 20; 21; 30; 31]))%float /\
  ~ column_copied (mkMat 2 3 [10; 11; 20; 21; 30; 31]%float) 0
      (mkMat 2 3 [20; 21; 20; 21; 30; 31]%float) 1.
Proof.
  split; [reflexivity|]. split; [reflexivity|].
  split; [vm_compute; reflexivity|]. split; [vm_compute; reflexivity|].
  intros Hcopy. destruct (Hcopy 0) as (x & Hin & Hout); [cbn; lia|].
  cbn in Hin, Hout. rewrite <- Hin in Hout.
  apply (f_equal (fun o : outcome float =>
                    match o with Ok y => PrimFloat.eqb y 20 | _ => false end))
    in Hout.
  vm_compute in Hout. discriminate Hout.
Qed.

(** C6 as amended.  The order among eigenvalues the comparator does not
    distinguish is whatever the sort leaves.  Each stored column is the
    input column at the index recorded for its position (for an
    eigenvector matrix that is an object of its own), and when the sort
    is stable on the input (which [std::sort] does not promise), the
    columns of tied eigenvalues appear in ascending order of their
    original indices. *)
Theorem set_eigendecomposition_results_ties
    (T : Type) (S : Scalar T) (uninit : nat -> T)
    (std_sort : list (nat * T) -> outcome (list (nat * T)))
    (kernel_eigenvalues_in : vec_ref T) (covariance_eigenvectors_in : Mat T)
    (r : KpcaResult T) (sorted_eigenvalues : list (nat * T)) :
  mat_wf covariance_eigenvectors_in ->
  length (read_vec kernel_eigenvalues_in r) = n_cols covariance_eigenvectors_in ->
  std_sort (index_pairs (read_vec kernel_eigenvalues_in r))
    = Ok sorted_eigenvalues ->
  std_sort_post eigen_comp (index_pairs (read_vec kernel_eigenvalues_in r))
    sorted_eigenvalues ->
  exists r',
    set_eigendecomposition_results uninit std_sort kernel_eigenvalues_in
      (mat_object covariance_eigenvectors_in) r = Ok r' /\
    (forall j idx e, sorted_eigenvalues !! j = Some (idx, e) ->
       column_copied covariance_eigenvectors_in idx
         (covariance_eigenvectors_ r') j) /\
    (stable_on eigen_comp (index_pairs (read_vec kernel_eigenvalues_in r))
       sorted_eigenvalues ->
     forall a b ia ea ib eb, a < b ->
       sorted_eigenvalues !! a = Some (ia, ea) ->
       sorted_eigenvalues !! b = Some (ib, eb) ->
       ~ s_gt ea eb ->
       ia < ib /\
       column_copied covariance_eigenvectors_in ia
         (covariance_eigenvectors_ r') a /\
       column_copied covariance_eigenvectors_in ib
         (covariance_eigenvectors_ r') b).
Proof.
  intros Hwf Hlen Hsort Hpost.
  set (evals := read_vec kernel_eigenvalues_in r) in *.
  pose proof (sorted_pairs_length evals _ (proj1 Hpost)) as Hslen.
  assert (Hidx : forall i p, i < n_cols covariance_eigenvectors_in ->
            sorted_eigenvalues !! i = Some p ->
            p.1 < n_cols covariance_eigenvectors_in).
  { intros i p _ Hp.
    destruct (sorted_entry evals _ i p (proj1 Hpost) Hp) as [Hlt _]. lia. }
  destruct (set_eigendecomposition_results_leading covariance_eigenvectors_in
              sorted_eigenvalues Hwf ltac:(lia) Hidx uninit std_sort
              kernel_eigenvalues_in r Hsort)
    as (vecs & Hrun & _ & _ & Hcols).
  eexists. split; [exact Hrun|]. cbn [with_eigen covariance_eigenvectors_].
  assert (Hcopied : forall j idx e, sorted_eigenvalues !! j = Some (idx, e) ->
            column_copied covariance_eigenvectors_in idx vecs j).
  { intros j idx e Hp. apply (Hcols j (idx, e)); [|exact Hp].
    apply lookup_lt_Some in Hp. lia. }
  split; [exact Hcopied|].
  intros Hstable a b ia ea ib eb Hab Ha Hb Htie.
  split.
  - exact (stable_ties_ascending evals _ a b (ia, ea) (ib, eb)
             Hpost Hstable Hab Ha Hb Htie).
  - split; [exact (Hcopied _ _ _ Ha)|exact (Hcopied _ _ _ Hb)].
Qed.

(** Two tied eigenvalues: the insertion sort libstdc++ applies to 16
    elements or fewer keeps them in input order. *)
Example tied_pair_scenario :
  set_eigendecomposition_results (fun _ => nan) std_sort_libstdcxx
    (vec_object tied_eigenvalues) (mat_object tied_eigenvectors) KpcaResult_new
  = Ok (with_eigen KpcaResult_new [5; 5] (mkMat 1 2 [1; 2]))%float.
Proof. vm_compute. reflexivity. Qed.

Lemma seventeen_tied_sorted :
  std_sort_post eigen_comp (index_pairs seventeen_tied_eigenvalues)
    ((fun i => (i, 5%float)) <$> seventeen_tied_order).
Proof.
  split.
  - change (index_pairs seventeen_tied_eigenvalues)
      with ((fun i => (i, 5%float)) <$> seq 0 17).
    apply fmap_Permutation.
    apply (bool_decide_unpack (seq 0 17 ≡ₚ seventeen_tied_order)).
    vm_compute. exact I.
  - intros a b x y _ Ha Hb Hcomp.
    rewrite list_lookup_fmap in Ha, Hb.
    destruct (seventeen_tied_order !! a); [|discriminate].
    destruct (seventeen_tied_order !! b); [|discriminate].
    injection Ha as <-. injection Hb as <-.
    vm_compute in Hcomp. discriminate Hcomp.
Qed.

(** C6 fails as stated.  The comparator looks at the values alone and
    [std::sort] does not keep equal elements in input order.  With
    seventeen equal eigenvalues, the sort of libstdc++ swaps the first pair
    with the middle one and then exchanges the pairs around the pivot: the
    tied pairs come out with the indices 8, 16, 15, ..., 9, 0, 7, ..., 1,
    and the stored columns are [v8, v16, ..., v1], not [v0, ..., v16]. *)
Lemma tied_eigenvalues_counterexample :
  mat_wf seventeen_eigenvectors /\
  length seventeen_tied_eigenvalues = n_cols seventeen_eigenvectors /\
  std_sort_libstdcxx (index_pairs seventeen_tied_eigenvalues)
    = Ok ((fun i => (i, 5%float)) <$> seventeen_tied_order) /\
  std_sort_post eigen_comp (index_pairs seventeen_tied_eigenvalues)
    ((fun i => (i, 5%float)) <$> seventeen_tied_order) /\
  seventeen_tied_order !! 0 = Some 8 /\
  seventeen_tied_order !! 9 = Some 0 /\
  set_eigendecomposition_results (fun _ => nan) std_sort_libstdcxx
    (vec_object seventeen_tied_eigenvalues) (mat_object seventeen_eigenvectors)
    KpcaResult_new
  = Ok (with_eigen KpcaResult_new (replicate 17 5)
          (mkMat 1 17 [108; 116; 115; 114; 113; 112; 111; 110; 109; 100;
                       107; 106; 105; 104; 103; 102; 101]))%float.
Proof.
  split; [reflexivity|]. split; [reflexivity|].
  split; [vm_compute; reflexivity|].
  split; [exact seventeen_tied_sorted|].
  split; [reflexivity|]. split; [reflexivity|].
  vm_compute. reflexivity.
Qed.

Lemma split_tie_order :
  std_sort_libstdcxx (index_pairs split_tie_eigenvalues)
  = Ok [(1, 9%float); (0, 3%float); (2, 3%float)].
Proof. vm_compute. reflexivity. Qed.

Lemma split_tie_sorted :
  std_sort_post eigen_comp (index_pairs split_tie_eigenvalues)
    [(1, 9%float); (0, 3%float); (2, 3%float)].
Proof.
  split.
  - vm_compute. apply perm_swap.
  - intros a b x y Hab Ha Hb Hcomp.
    at_position Ha; at_position Hb; try lia;
      vm_compute in Hcomp; discriminate Hcomp.
Qed.

Lemma split_tie_stable :
  stable_on eigen_comp (index_pairs split_tie_eigenvalues)
    [(1, 9%float); (0, 3%float); (2, 3%float)].
Proof.
  assert (Hpairs : index_pairs split_tie_eigenvalues
                   = [(0, 3%float); (1, 9%float); (2, 3%float)]) by reflexivity.
  rewrite Hpairs.
  intros a b x y Hab Ha Hb Hxy Hyx.
  at_position Ha; at_position Hb; try lia.
  - exfalso. apply Hyx. vm_compute. reflexivity.
  - exists 1, 2. split; [lia|]. split; reflexivity.
  - exfalso. apply Hxy. vm_compute. reflexivity.
Qed.

(** C6 as amended, at eigenvalues [3, 9, 3], which libstdc++ sorts by
    insertion: the two tied pairs come out at positions 1 and 2 with
    indices 0 and 2. *)
Lemma set_eigendecomposition_results_ties_witness :
  exists r',
    set_eigendecomposition_results (fun _ => nan) std_sort_libstdcxx
      (vec_object split_tie_eigenvalues) (mat_object split_tie_eigenvectors)
      KpcaResult_new = Ok r' /\
    (0 < 2 /\
     column_copied split_tie_eigenvectors 0 (covariance_eigenvectors_ r') 1 /\
     column_copied split_tie_eigenvectors 2 (covariance_eigenvectors_ r') 2).
Proof.
  destruct (set_eigendecomposition_results_ties float binary64
              (fun _ => nan) std_sort_libstdcxx (vec_object split_tie_eigenvalues)
              split_tie_eigenvectors KpcaResult_new
              [(1, 9%float); (0, 3%float); (2, 3%float)])
    as (r' & Hrun & _ & Hties).
  - reflexivity.
  - reflexivity.
  - exact split_tie_order.
  - exact split_tie_sorted.
  - exists r'. split; [exact Hrun|].
    apply (Hties split_tie_stable 1 2 0 3%float 2 3%float).
    + lia.
    + reflexivity.
    + reflexivity.
    + vm_compute. discriminate.
Defined.

(** X6, with no eigenvalue for a matrix of one column. *)
Lemma set_eigendecomposition_results_too_few_eigenvalues_witness :
  set_eigendecomposition_results (fun _ => nan) std_sort_libstdcxx
    (vec_object []) (mat_object one_eigenvector) KpcaResult_new = Undefined.
Proof.
  apply (set_eigendecomposition_results_too_few_eigenvalues
           (mat_object one_eigenvector) [] (fun _ => nan) std_sort_libstdcxx
           (vec_object []) KpcaResult_new).
  - reflexivity.
  - reflexivity.
  - cbn. lia.
Defined.

(** X7, with eigenvalues [3, 9, 1] for a matrix of one column: the
    largest eigenvalue was recorded at index 1. *)
Lemma set_eigendecomposition_results_foreign_index_witness :
  set_eigendecomposition_results (fun _ => nan) std_sort_libstdcxx
    (vec_object three_eigenvalues) (mat_object one_eigenvector)
    KpcaResult_new = Undefined.
Proof.
  apply (set_eigendecomposition_results_foreign_index
           (mat_object one_eigenvector)
           [(1, 9%float); (0, 3%float); (2, 1%float)]
           (fun _ => nan) std_sort_libstdcxx (vec_object three_eigenvalues)
           KpcaResult_new 0 (1, 9%float)).
  - exact three_eigenvalues_order.
  - reflexivity.
  - cbn. lia.
  - cbn. lia.
  - reflexivity.
  - cbn. lia.
Defined.

(** ** Serialization *)

Section SerializeProps.
Context {I T : Type} `{Scalar T}.
Variable cd : Codec I T.

Lemma serialize_save (ar : oarchive I) (version : nat) (r : KpcaResult T) :
  serialize (archive := oarchive_Archive cd) ar version r
  = Ok (mkOarchive
          (written ar ++ save_mat cd (kpca_projections_l_ r)
             ++ save_mat cd (kpca_projections_ r)
             ++ save_mat cd (kpca_projections_u_ r)
             ++ save_vec cd (kernel_eigenvalues_ r)
             ++ save_mat cd (covariance_eigenvectors_ r)), r).
Proof.
  unfold serialize. cbn. rewrite <- !app_assoc. destruct r; reflexivity.
Qed.

Lemma serialize_load (version : nat) (l c u vecs : Mat T) (vals : Vec T)
    (rest : list I) (r : KpcaResult T) :
  codec_roundtrip cd ->
  mat_wf l -> mat_wf c -> mat_wf u -> mat_wf vecs ->
  serialize (archive := iarchive_Archive cd)
    (mkIarchive (save_mat cd l ++ save_mat cd c ++ save_mat cd u
                   ++ save_vec cd vals ++ save_mat cd vecs ++ rest))
    version r
  = Ok (mkIarchive rest,
        mkKpcaResult l c u vals vecs
          (reference_projections_ r) (kpca_components_ r)).
Proof.
  intros [Hmat Hvec] Hl Hc Hu Hv. unfold serialize. cbn.
  rewrite (Hmat l _ Hl). cbn.
  rewrite (Hmat c _ Hc). cbn.
  rewrite (Hmat u _ Hu). cbn.
  rewrite (Hvec vals). cbn.
  rewrite (Hmat vecs _ Hv). cbn.
  reflexivity.
Qed.
End SerializeProps.

(** C7. With an encoding of matrices and vectors that reads back what
    it wrote, serializing a result with well-formed matrices writes, in
    this order, the lower, center and upper bound matrices, the
    eigenvalues and the eigenvectors, and nothing else; deserializing that
    archive into a default-constructed result consumes all of it and
    yields a result whose five fields equal the original's, while the
    reference projections and the components stay empty. *)
Theorem serialize_roundtrip (I T : Type) (S : Scalar T) (cd : Codec I T)
    (version : nat) (r : KpcaResult T) :
  codec_roundtrip cd ->
  mat_wf (kpca_projections_l_ r) -> mat_wf (kpca_projections_ r) ->
  mat_wf (kpca_projections_u_ r) -> mat_wf (covariance_eigenvectors_ r) ->
  exists out,
    serialize (archive := oarchive_Archive cd) (mkOarchive []) version r
      = Ok (out, r) /\
    written out
      = save_mat cd (kpca_projections_l_ r)
          ++ save_mat cd (kpca_projections_ r)
          ++ save_mat cd (kpca_projections_u_ r)
          ++ save_vec cd (kernel_eigenvalues_ r)
          ++ save_mat cd (covariance_eigenvectors_ r) /\
    serialize (archive := iarchive_Archive cd) (mkIarchive (written out)) version
      KpcaResult_new
      = Ok (mkIarchive [],
            mkKpcaResult (kpca_projections_l_ r) (kpca_projections_ r)
              (kpca_projections_u_ r) (kernel_eigenvalues_ r)
              (covariance_eigenvectors_ r) mat_empty mat_empty).
Proof.
  intros Hcd Hl Hc Hu Hv. eexists. split; [apply serialize_save|].
  cbn [written app]. split; [reflexivity|].
  rewrite <- (app_nil_r (save_mat cd (covariance_eigenvectors_ r))).
  rewrite (serialize_load cd version _ _ _ _ _ [] KpcaResult_new Hcd Hl Hc Hu Hv).
  reflexivity.
Qed.

Lemma read_values_fmap {T} (xs : list T) (rest : list (wire_item T)) :
  read_values (length xs) ((WValue <$> xs) ++ rest) = Some (xs, rest).
Proof.
  induction xs as [|x xs IH]; [reflexivity|]. cbn. rewrite IH. reflexivity.
Qed.

Lemma wire_codec_roundtrip (T : Type) : codec_roundtrip (wire_codec T).
Proof.
  split.
  - intros [r c xs] rest Hwf. unfold mat_wf in Hwf. cbn in *.
    rewrite <- Hwf, read_values_fmap. reflexivity.
  - intros v rest. cbn. apply read_values_fmap.
Qed.

(** C7, at a populated result and the dense encoding of the wire
    format. *)
Lemma serialize_roundtrip_witness :
  exists out,
    serialize (archive := oarchive_Archive (wire_codec float)) (mkOarchive []) 0
      populated_result = Ok (out, populated_result) /\
    serialize (archive := iarchive_Archive (wire_codec float))
      (mkIarchive (written out)) 0 KpcaResult_new
      = Ok (mkIarchive [],
            (mkKpcaResult (mkMat 2 1 [6; 18]) (mkMat 2 1 [10; 20])
               (mkMat 2 1 [14; 22]) [9; 3] (mkMat 2 2 [20; 21; 10; 11])
               mat_empty mat_empty)%float).
Proof.
  destruct (serialize_roundtrip (wire_item float) float binary64
              (wire_codec float) 0 populated_result)
    as (out & Hsave & _ & Hload).
  - apply wire_codec_roundtrip.
  - reflexivity.
  - reflexivity.
  - reflexivity.
  - reflexivity.
  - exists out. split; [exact Hsave|exact Hload].
Defined.

(** ** Print *)

Lemma string_app_assoc (a b c : string) : (a +:+ b) +:+ c = a +:+ (b +:+ c).
Proof.
  induction a as [|x a IH]; [reflexivity|]. exact (f_equal (String x) IH).
Qed.

Lemma string_app_nil_r (a : string) : a +:+ "" = a.
Proof.
  induction a as [|x a IH]; [reflexivity|]. exact (f_equal (String x) IH).
Qed.

Lemma foldr_text_snoc {A} (f : A -> string) (l : list A) (a : A) (tail : string) :
  foldr (fun x text => f x +:+ text) tail (l ++ [a])
  = foldr (fun x text => f x +:+ text) "" l +:+ (f a +:+ tail).
Proof.
  induction l as [|x l IH]; [reflexivity|].
  cbn [foldr app]. rewrite IH, string_app_assoc. reflexivity.
Qed.

Section PrintProps.
Context {T : Type}.
Variable format_g : T -> string.

Lemma fprintf_no_raise (stream : FILE) (text : string) (fs : FileSystem) (e : error) :
  fprintf stream text fs <> Raise e.
Proof. destruct stream; discriminate. Qed.

Lemma fclose_no_raise (stream : FILE) (fs : FileSystem) (e : error) :
  fclose stream fs <> Raise e.
Proof. destruct stream; discriminate. Qed.

Lemma print_columns_no_raise (stream : FILE) (m : Mat T) (fs : FileSystem) (e : error) :
  print_columns format_g stream m fs <> Raise e.
Proof.
  unfold print_columns. apply for_loop_no_raise. intros i fs' Hr.
  apply bind_Raise_inv in Hr as [Hr|(fs'' & _ & Hr)].
  - revert Hr. apply for_loop_no_raise. intros j fs'' Hr.
    apply bind_Raise_inv in Hr as [Hr|(x & _ & Hr)].
    + exact (checked_no_raise _ _ Hr).
    + exact (fprintf_no_raise _ _ _ _ Hr).
  - exact (fprintf_no_raise _ _ _ _ Hr).
Qed.

Lemma Print_no_raise (kpca_components_file_name kpca_projections_file_name : string)
    (r : KpcaResult T) (fs : FileSystem) (e : error) :
  Print format_g kpca_components_file_name kpca_projections_file_name r fs
  <> Raise e.
Proof.
  unfold Print.
  destruct (fopen_w kpca_projections_file_name fs) as [file_output fs1].
  intros Hr. apply bind_Raise_inv in Hr as [Hr|(fs2 & _ & Hr)].
  { exact (print_columns_no_raise _ _ _ _ Hr). }
  apply bind_Raise_inv in Hr as [Hr|(fs3 & _ & Hr)].
  { exact (fclose_no_raise _ _ _ Hr). }
  destruct (fopen_w kpca_components_file_name fs3) as [file_output' fs4].
  apply bind_Raise_inv in Hr as [Hr|(fs5 & _ & Hr)].
  { exact (print_columns_no_raise _ _ _ _ Hr). }
  exact (fclose_no_raise _ _ _ Hr).
Qed.

Lemma foldr_text_tail {A} (f : A -> string) (l : list A) (tail : string) :
  foldr (fun x text => f x +:+ text) tail l
  = foldr (fun x text => f x +:+ text) "" l +:+ tail.
Proof.
  induction l as [|x l IH]; [reflexivity|].
  cbn [foldr]. rewrite IH, string_app_assoc. reflexivity.
Qed.

Lemma fprintf_file (fs0 : FileSystem) (name cur text : string) (fs : FileSystem) :
  file_is fs0 name cur fs ->
  exists fs', fprintf (Some name) text fs = Ok fs' /\
    file_is fs0 name (cur +:+ text) fs'.
Proof.
  intros (Hopen & Hcur & Hother). eexists. split; [reflexivity|].
  unfold file_is. cbn [fs_files fs_can_open]. split; [exact Hopen|]. split.
  - rewrite lookup_insert_eq, Hcur. reflexivity.
  - intros other Hne. rewrite lookup_insert_ne by congruence. apply Hother, Hne.
Qed.

Lemma print_column_file (fs0 : FileSystem) (name base : string) (m : Mat T)
    (i : nat) (fs : FileSystem) :
  mat_wf m -> i < n_cols m ->
  file_is fs0 name base fs ->
  exists fs',
    (fs1 ← for_loop (n_rows m) (fun j fs =>
              x ← mat_at m j i;
              fprintf (Some name) (format_g x +:+ " ") fs) fs;
     fprintf (Some name) newline fs1) = Ok fs' /\
    file_is fs0 name (base +:+ column_text format_g m i) fs'.
Proof.
  intros Hwf Hi Hfile.
  set (cell := fun j => from_option (fun x => format_g x +:+ " ") ""
                          (mem m !! (j + i * n_rows m))).
  destruct (for_loop_rule
    (fun j fs => file_is fs0 name
                   (base +:+ foldr (fun j text => cell j +:+ text) "" (seq 0 j)) fs)
    (fun j fs => x ← mat_at m j i; fprintf (Some name) (format_g x +:+ " ") fs)
    (n_rows m) fs) as (fs1 & Hrun & Hfile1).
  - cbn [seq foldr]. rewrite string_app_nil_r. exact Hfile.
  - intros j t Hj Ht. cbn beta.
    destruct (lookup_lt_is_Some_2 (mem m) (j + i * n_rows m)) as [x Hx].
    { rewrite Hwf. apply cell_index_lt; assumption. }
    unfold mat_at. rewrite Hx. cbn [checked]. rewrite bind_Ok.
    destruct (fprintf_file fs0 name _ (format_g x +:+ " ") t Ht) as (t' & Hp & Ht').
    exists t'. split; [exact Hp|].
    rewrite seq_S, foldr_text_snoc. cbn [Nat.add].
    unfold cell at 2. rewrite Hx. cbn [from_option].
    rewrite string_app_nil_r, <- string_app_assoc. exact Ht'.
  - rewrite Hrun, bind_Ok.
    destruct (fprintf_file fs0 name _ newline fs1 Hfile1) as (fs' & Hp & Hfile').
    exists fs'. split; [exact Hp|].
    unfold column_text. fold cell. rewrite foldr_text_tail, <- string_app_assoc.
    exact Hfile'.
Qed.

Lemma print_columns_file (fs0 : FileSystem) (name base : string) (m : Mat T)
    (fs : FileSystem) :
  mat_wf m -> file_is fs0 name base fs ->
  exists fs', print_columns format_g (Some name) m fs = Ok fs' /\
    file_is fs0 name (base +:+ matrix_text format_g m) fs'.
Proof.
  intros Hwf Hfile. unfold print_columns.
  apply (for_loop_rule
    (fun i fs => file_is fs0 name
       (base +:+ foldr (fun i text => column_text format_g m i +:+ text) ""
                   (seq 0 i)) fs)).
  - cbn [seq foldr]. rewrite string_app_nil_r. exact Hfile.
  - intros i t Hi Ht.
    destruct (print_column_file fs0 name _ m i t Hwf Hi Ht) as (t' & Hp & Ht').
    exists t'. split; [exact Hp|].
    rewrite seq_S, foldr_text_snoc. cbn [Nat.add].
    rewrite string_app_nil_r, <- string_app_assoc. exact Ht'.
Qed.

Lemma fopen_w_file (name : string) (fs : FileSystem) :
  fs_can_open fs name = true ->
  exists fs', fopen_w name fs = (Some name, fs') /\ file_is fs name "" fs'.
Proof.
  intros Hopen. unfold fopen_w. rewrite Hopen. eexists. split; [reflexivity|].
  unfold file_is. cbn [fs_files fs_can_open]. split; [reflexivity|]. split.
  - apply lookup_insert_eq.
  - intros other Hne. apply lookup_insert_ne. congruence.
Qed.

(** With both destinations open, [Print] completes and leaves the two
    texts. *)
Lemma Print_files (kpca_components_file_name kpca_projections_file_name : string)
    (r : KpcaResult T) (fs : FileSystem) :
  fs_can_open fs kpca_projections_file_name = true ->
  fs_can_open fs kpca_components_file_name = true ->
  mat_wf (kpca_projections_ r) -> mat_wf (kpca_components_ r) ->
  exists fs',
    Print format_g kpca_components_file_name kpca_projections_file_name r fs
      = Ok fs' /\
    fs_can_open fs' = fs_can_open fs /\
    fs_files fs' !! kpca_components_file_name
      = Some (matrix_text format_g (kpca_components_ r)) /\
    (kpca_projections_file_name <> kpca_components_file_name ->
     fs_files fs' !! kpca_projections_file_name
       = Some (matrix_text format_g (kpca_projections_ r))) /\
    (forall other, other <> kpca_projections_file_name ->
       other <> kpca_components_file_name ->
       fs_files fs' !! other = fs_files fs !! other).
Proof.
  intros Hp Hc Hwp Hwc. unfold Print.
  destruct (fopen_w_file _ fs Hp) as (fs1 & -> & Hf1).
  destruct (print_columns_file fs _ "" _ fs1 Hwp Hf1) as (fs2 & -> & Hf2).
  rewrite bind_Ok. cbn [fclose]. rewrite bind_Ok.
  destruct Hf2 as (Hopen2 & Hproj & Hother2).
  destruct (fopen_w_file kpca_components_file_name fs2) as (fs3 & -> & Hf3).
  { rewrite Hopen2. exact Hc. }
  destruct (print_columns_file fs2 _ "" _ fs3 Hwc Hf3) as (fs4 & -> & Hf4).
  rewrite bind_Ok. cbn [fclose].
  destruct Hf4 as (Hopen4 & Hcomp & Hother4).
  exists fs4. split; [reflexivity|]. split; [congruence|]. split; [exact Hcomp|].
  split.
  - intros Hne. rewrite Hother4 by exact Hne. exact Hproj.
  - intros other Hne1 Hne2. rewrite Hother4, Hother2 by assumption. reflexivity.
Qed.

Lemma fprintf_can_open (stream : FILE) (text : string) (fs fs' : FileSystem) :
  fprintf stream text fs = Ok fs' -> fs_can_open fs' = fs_can_open fs.
Proof. destruct stream; [|discriminate]. intros Heq. injection Heq as <-. reflexivity. Qed.

Lemma print_columns_can_open (stream : FILE) (m : Mat T) (fs fs' : FileSystem) :
  print_columns format_g stream m fs = Ok fs' ->
  fs_can_open fs' = fs_can_open fs.
Proof.
  unfold print_columns. intros Hrun.
  apply (for_loop_preserves (fun t => fs_can_open t = fs_can_open fs) _ _ _ _)
    with (3 := eq_refl) in Hrun; [exact Hrun|].
  intros i u u' Hbody Hu. apply bind_Ok_inv in Hbody as (u1 & Hinner & Hnl).
  apply fprintf_can_open in Hnl. rewrite Hnl.
  apply (for_loop_preserves (fun t => fs_can_open t = fs_can_open fs) _ _ _ _)
    with (3 := Hu) in Hinner; [exact Hinner|].
  intros j v v' Hcell Hv. apply bind_Ok_inv in Hcell as (x & _ & Hp).
  apply fprintf_can_open in Hp. congruence.
Qed.

(** A run of [Print] that completes had both destinations open. *)
Lemma Print_Ok_inv (kpca_components_file_name kpca_projections_file_name : string)
    (r : KpcaResult T) (fs fs' : FileSystem) :
  Print format_g kpca_components_file_name kpca_projections_file_name r fs
    = Ok fs' ->
  fs_can_open fs kpca_projections_file_name = true /\
  fs_can_open fs kpca_components_file_name = true.
Proof.
  unfold Print, fopen_w.
  destruct (fs_can_open fs kpca_projections_file_name) eqn:Hp; intros Hrun.
  2:{ apply bind_Ok_inv in Hrun as (fs2 & _ & Hrun).
      apply bind_Ok_inv in Hrun as (fs3 & Hclose & _). discriminate Hclose. }
  split; [reflexivity|].
  apply bind_Ok_inv in Hrun as (fs2 & Hprint & Hrun).
  apply bind_Ok_inv in Hrun as (fs3 & Hclose & Hrun).
  injection Hclose as <-.
  apply print_columns_can_open in Hprint. cbn [fs_can_open] in Hprint.
  rewrite Hprint in Hrun.
  destruct (fs_can_open fs kpca_components_file_name); [reflexivity|].
  apply bind_Ok_inv in Hrun as (fs5 & _ & Hclose). discriminate Hclose.
Qed.

(** A destination that cannot be opened leaves a null stream, and the
    run is undefined. *)
Lemma Print_unopenable (kpca_components_file_name kpca_projections_file_name : string)
    (r : KpcaResult T) (fs : FileSystem) :
  fs_can_open fs kpca_projections_file_name = false \/
  fs_can_open fs kpca_components_file_name = false ->
  Print format_g kpca_components_file_name kpca_projections_file_name r fs
    = Undefined.
Proof.
  intros Hclosed.
  destruct (Print format_g kpca_components_file_name
              kpca_projections_file_name r fs) as [fs'|e|] eqn:Hrun.
  - apply Print_Ok_inv in Hrun as [Hp Hc]. destruct Hclosed; congruence.
  - exfalso. exact (Print_no_raise _ _ _ _ _ Hrun).
  - reflexivity.
Qed.
End PrintProps.

(** C9 fails as stated: when the projections path, or the components
    path, cannot be opened, [fopen] returns a null stream that [Print]
    passes on unchecked; the run is undefined and raises no [IOError]
    naming the path. *)
Lemma Print_unopenable_counterexample :
  fs_can_open closed_fs "projections.txt" = false /\
  (forall format_g : float -> string,
     Print format_g "components.txt" "projections.txt" populated_result closed_fs
       = Undefined /\
     Print format_g "components.txt" "projections.txt" populated_result closed_fs
       <> Raise (IOError "projections.txt")) /\
  (forall format_g : float -> string,
     let fs := mkFileSystem ∅ (fun name => bool_decide (name = "projections.txt")) in
     fs_can_open fs "components.txt" = false /\
     Print format_g "components.txt" "projections.txt" populated_result fs
       = Undefined /\
     Print format_g "components.txt" "projections.txt" populated_result fs
       <> Raise (IOError "components.txt")).
Proof.
  split; [reflexivity|]. split.
  - intros format_g.
    assert (Hrun : Print format_g "components.txt" "projections.txt"
                     populated_result closed_fs = Undefined).
    { apply Print_unopenable. left. reflexivity. }
    split; [exact Hrun|]. rewrite Hrun. discriminate.
  - intros format_g fs. split; [reflexivity|].
    assert (Hrun : Print format_g "components.txt" "projections.txt"
                     populated_result fs = Undefined).
    { apply Print_unopenable. right. reflexivity. }
    split; [exact Hrun|]. rewrite Hrun. discriminate.
Qed.

(** C9 as amended. [Print] does not test what [fopen] returns and raises
    no error, an [IOError] or any other, on any input.  When both
    destinations can be opened and both matrices are well formed, it
    completes: the components file holds the components matrix and, when
    the projections path is another path, the projections file holds the
    center projections, each column on a line of its own, every value
    followed by a space.  When the two paths are the same, the second
    [fopen] truncates the file and only the components remain.  No other
    file changes. *)
Theorem Print_no_open_check (T : Type) (format_g : T -> string)
    (kpca_components_file_name kpca_projections_file_name : string)
    (r : KpcaResult T) (fs : FileSystem) :
  (forall e : error,
     Print format_g kpca_components_file_name kpca_projections_file_name r fs
     <> Raise e) /\
  (fs_can_open fs kpca_projections_file_name = true ->
   fs_can_open fs kpca_components_file_name = true ->
   mat_wf (kpca_projections_ r) -> mat_wf (kpca_components_ r) ->
   exists fs',
     Print format_g kpca_components_file_name kpca_projections_file_name r fs
       = Ok fs' /\
     fs_files fs' !! kpca_components_file_name
       = Some (matrix_text format_g (kpca_components_ r)) /\
     (kpca_projections_file_name <> kpca_components_file_name ->
      fs_files fs' !! kpca_projections_file_name
        = Some (matrix_text format_g (kpca_projections_ r))) /\
     (kpca_projections_file_name = kpca_components_file_name ->
      fs_files fs' !! kpca_projections_file_name
        = Some (matrix_text format_g (kpca_components_ r))) /\
     (forall other, other <> kpca_projections_file_name ->
        other <> kpca_components_file_name ->
        fs_files fs' !! other = fs_files fs !! other)).
Proof.
  split.
  - intros e. apply Print_no_raise.
  - intros Hp Hc Hwp Hwc.
    destruct (Print_files format_g _ _ r fs Hp Hc Hwp Hwc)
      as (fs' & Hrun & _ & Hcomp & Hproj & Hother).
    exists fs'. split; [exact Hrun|]. split; [exact Hcomp|].
    split; [exact Hproj|]. split; [|exact Hother].
    intros ->. exact Hcomp.
Qed.

(** C9 as amended, at a populated result and a file system in which
    every file can be opened: with two paths, and with one path for both
    files.  The format tells the values of the component column (1, 0)
    from those of the projection column (10, 20); in the second run the
    file holds the components. *)
Lemma Print_no_open_check_witness :
  let format_g := fun x : float => if (x <? 5)%float then "c" else "p" in
  (exists fs',
     Print format_g "components.txt" "projections.txt" populated_result open_fs
       = Ok fs' /\
     fs_files fs' !! "components.txt" = Some ("c c " +:+ newline) /\
     fs_files fs' !! "projections.txt" = Some ("p p " +:+ newline)) /\
  (exists fs',
     Print format_g "out.txt" "out.txt" populated_result open_fs = Ok fs' /\
     fs_files fs' !! "out.txt" = Some ("c c " +:+ newline)).
Proof.
  intros format_g. split.
  - destruct (proj2 (Print_no_open_check float format_g "components.txt"
                       "projections.txt" populated_result open_fs))
      as (fs' & Hrun & Hcomp & Hproj & _).
    + reflexivity.
    + reflexivity.
    + reflexivity.
    + reflexivity.
    + exists fs'. split; [exact Hrun|]. split; [exact Hcomp|].
      apply Hproj. discriminate.
  - destruct (proj2 (Print_no_open_check float format_g "out.txt" "out.txt"
                       populated_result open_fs))
      as (fs' & Hrun & _ & _ & Hsame & _).
    + reflexivity.
    + reflexivity.
    + reflexivity.
    + reflexivity.
    + exists fs'. split; [exact Hrun|]. apply Hsame. reflexivity.
Defined.

(** ** Loops that do nothing *)

Lemma for_loop_skip {S} (body : nat -> S -> outcome S) (n : nat) (s : S) :
  (forall j, j < n -> body j s = Ok s) -> for_loop n body s = Ok s.
Proof.
  intros Hbody.
  destruct (for_loop_rule (fun _ t => t = s) body n s) as (t & Hrun & ->).
  - reflexivity.
  - intros j t Hj ->. exists s. split; [apply Hbody, Hj|reflexivity].
  - exact Hrun.
Qed.

(** ** Matrices are determined by their cells *)

Lemma cell_of_index (rows cols j : nat) :
  j < rows * cols ->
  j mod rows < rows /\ j / rows < cols /\ j = j mod rows + j / rows * rows.
Proof.
  intros Hj. assert (Hrows : rows <> 0) by lia.
  split; [apply Nat.mod_upper_bound, Hrows|]. split.
  - apply Nat.Div0.div_lt_upper_bound. lia.
  - rewrite (Nat.div_mod_eq j rows) at 1. lia.
Qed.

Lemma mat_eq_cells {T} (a b : Mat T) :
  mat_wf a -> mat_wf b -> same_shape a b ->
  (forall k i, k < n_rows a -> i < n_cols a ->
     mem a !! (k + i * n_rows a) = mem b !! (k + i * n_rows a)) ->
  a = b.
Proof.
  destruct a as [ra ca ma], b as [rb cb mb]. unfold mat_wf, same_shape.
  cbn [n_rows n_cols mem]. intros Ha Hb [<- <-] Hcells. f_equal.
  apply list_eq. intros j. destruct (decide (j < ra * ca)) as [Hj|Hj].
  - destruct (cell_of_index ra ca j Hj) as (Hk & Hi & ->).
    apply Hcells; assumption.
  - rewrite !lookup_ge_None_2 by lia. reflexivity.
Qed.

(** ** The class invariant *)

Section InvariantProps.
Context {T : Type} `{Scalar T}.
Implicit Types (r : KpcaResult T) (kernel_sum : MeanVariancePairMatrix T).

Lemma bounds_wf_same_bounds r r' : same_bounds r r' -> bounds_wf r -> bounds_wf r'.
Proof. unfold bounds_wf. intros (-> & -> & ->). auto. Qed.

Lemma same_layout_wf (a b : Mat T) : same_layout a b -> mat_wf b -> mat_wf a.
Proof. unfold same_layout, mat_wf. intros (-> & -> & ->). auto. Qed.

Lemma bounds_wf_same_layout r r' :
  same_layout (kpca_projections_l_ r') (kpca_projections_l_ r) ->
  same_layout (kpca_projections_ r') (kpca_projections_ r) ->
  same_layout (kpca_projections_u_ r') (kpca_projections_u_ r) ->
  bounds_wf r -> bounds_wf r'.
Proof.
  intros Hl Hc Hu (Hwl & Hwc & Hwu & Hsl & Hsu).
  split; [exact (same_layout_wf _ _ Hl Hwl)|].
  split; [exact (same_layout_wf _ _ Hc Hwc)|].
  split; [exact (same_layout_wf _ _ Hu Hwu)|].
  destruct Hl as (Hl1 & Hl2 & _), Hc as (Hc1 & Hc2 & _), Hu as (Hu1 & Hu2 & _).
  unfold same_shape in *. rewrite Hl1, Hl2, Hc1, Hc2, Hu1, Hu2. auto.
Qed.

Lemma mat_zeros_layout (m : Mat T) : same_layout (mat_zeros m) m.
Proof.
  unfold same_layout, mat_zeros. cbn. rewrite length_replicate. auto.
Qed.

Lemma SetZero_bounds_wf r : bounds_wf r -> bounds_wf (SetZero r).
Proof. apply bounds_wf_same_layout; apply mat_zeros_layout. Qed.

Lemma KpcaResult_new_bounds_wf : bounds_wf (KpcaResult_new (T := T)).
Proof. repeat split. Qed.

(** A completed [Export] kept the layout of the bound matrices. *)
Lemma Export_Ok_layout (nsd mc corr : T) kernel_sum r r' :
  bounds_wf r -> Export nsd mc corr kernel_sum r = Ok r' ->
  same_layout (kpca_projections_l_ r') (kpca_projections_l_ r) /\
  same_layout (kpca_projections_ r') (kpca_projections_ r) /\
  same_layout (kpca_projections_u_ r') (kpca_projections_u_ r).
Proof.
  intros Hwf Hrun.
  destruct (Export_Ok_logged _ _ _ _ _ _ Hrun) as (reads & Hlog).
  pose proof (Export_logged_Ok_covers _ _ _ _ _ _ Hlog) as Hcov.
  destruct (Export_cells nsd mc corr kernel_sum r Hwf Hcov)
    as (r'' & Hrun' & Hl & Hc & Hu & _).
  rewrite Hrun in Hrun'. injection Hrun' as <-. auto.
Qed.

(** X1. The class invariant: the three bound matrices are well formed and
    of one shape.  The constructor and [Init] establish it; [SetZero], a
    completed [Export], a completed [set_eigendecomposition_results] and
    an assignment through any of the four accessors keep it. *)
Theorem bounds_wf_invariant :
  bounds_wf (KpcaResult_new (T := T)) /\
  (forall uninit C R Q r, bounds_wf (Init uninit C R Q r)) /\
  (forall r, bounds_wf r -> bounds_wf (SetZero r)) /\
  (forall nsd mc corr kernel_sum r r',
     bounds_wf r -> Export nsd mc corr kernel_sum r = Ok r' -> bounds_wf r') /\
  (forall uninit std_sort kernel_eigenvalues_in covariance_eigenvectors_in r r',
     bounds_wf r ->
     set_eigendecomposition_results uninit std_sort kernel_eigenvalues_in
       covariance_eigenvectors_in r = Ok r' ->
     bounds_wf r') /\
  (forall r (m : Mat T) (v : Vec T),
     bounds_wf r ->
     bounds_wf (ref_assign reference_projections m r) /\
     bounds_wf (ref_assign kpca_components m r) /\
     bounds_wf (ref_assign kernel_eigenvalues v r) /\
     bounds_wf (ref_assign covariance_eigenvectors m r)).
Proof.
  split; [exact KpcaResult_new_bounds_wf|].
  split; [intros; apply Init_bounds_wf|].
  split; [exact SetZero_bounds_wf|].
  split; [|split].
  - intros nsd mc corr kernel_sum r r' Hwf Hrun.
    destruct (Export_Ok_layout _ _ _ _ _ _ Hwf Hrun) as (Hl & Hc & Hu).
    exact (bounds_wf_same_layout _ _ Hl Hc Hu Hwf).
  - intros uninit std_sort vals_in vecs_in r r' Hwf Hrun.
    apply set_eigendecomposition_results_frame in Hrun as (vals & vecs & ->).
    exact Hwf.
  - intros r m v Hwf. repeat split; apply Hwf.
Qed.
End InvariantProps.

(** ** SetZero, and Export on an empty extent *)

Section SetZeroProps.
Context {T : Type} `{Scalar T}.
Implicit Types (r : KpcaResult T) (kernel_sum : MeanVariancePairMatrix T).

Lemma mat_zeros_same_layout (a b : Mat T) :
  same_layout a b -> mat_zeros a = mat_zeros b.
Proof. unfold same_layout, mat_zeros. intros (-> & -> & ->). reflexivity. Qed.

Lemma mat_zeros_cell (m : Mat T) (j : nat) :
  j < length (mem m) -> mem (mat_zeros m) !! j = Some s_zero.
Proof. intros Hj. cbn. apply lookup_replicate_2, Hj. Qed.

(** X2. [SetZero] zeroes the three bound matrices in place: dimensions
    and allocated size stay, every element becomes zero, the four other
    fields are untouched, and a second [SetZero] changes nothing.  After
    an [Export] it restores the state [SetZero] would have left before
    it; in particular it restores what [Init] had established. *)
Theorem SetZero_zeroes_in_place r :
  Forall2 (fun m' m =>
      same_layout m' m /\
      forall j, j < length (mem m) -> mem m' !! j = Some s_zero)
    [kpca_projections_l_ (SetZero r); kpca_projections_ (SetZero r);
     kpca_projections_u_ (SetZero r)]
    [kpca_projections_l_ r; kpca_projections_ r; kpca_projections_u_ r] /\
  kernel_eigenvalues_ (SetZero r) = kernel_eigenvalues_ r /\
  covariance_eigenvectors_ (SetZero r) = covariance_eigenvectors_ r /\
  reference_projections_ (SetZero r) = reference_projections_ r /\
  kpca_components_ (SetZero r) = kpca_components_ r /\
  SetZero (SetZero r) = SetZero r /\
  (forall nsd mc corr kernel_sum r',
     bounds_wf r -> Export nsd mc corr kernel_sum r = Ok r' ->
     SetZero r' = SetZero r) /\
  (forall uninit C R Q nsd mc corr kernel_sum r',
     Export nsd mc corr kernel_sum (Init uninit C R Q r) = Ok r' ->
     SetZero r' = Init uninit C R Q r).
Proof.
  assert (Hexport : forall nsd mc corr kernel_sum r0 r',
            bounds_wf r0 -> Export nsd mc corr kernel_sum r0 = Ok r' ->
            SetZero r' = SetZero r0).
  { intros nsd mc corr kernel_sum r0 r' Hwf Hrun.
    pose proof Hrun as Hrun'.
    apply Export_Ok_logged in Hrun' as (reads & Hlog).
    pose proof (Export_logged_Ok_covers _ _ _ _ _ _ Hlog) as Hcov.
    destruct (Export_cells nsd mc corr kernel_sum r0 Hwf Hcov)
      as (r'' & Hrun'' & Hl & Hc & Hu & Hv & He & Hr & Hk & _).
    rewrite Hrun in Hrun''. injection Hrun'' as <-.
    unfold SetZero, with_bounds.
    rewrite (mat_zeros_same_layout _ _ Hl), (mat_zeros_same_layout _ _ Hc),
      (mat_zeros_same_layout _ _ Hu), Hv, He, Hr, Hk. reflexivity. }
  split.
  { repeat constructor; try apply mat_zeros_layout;
      intros j Hj; apply mat_zeros_cell, Hj. }
  do 4 (split; [reflexivity|]). split; [|split].
  - unfold SetZero, with_bounds. cbn.
    rewrite !(mat_zeros_same_layout _ _ (mat_zeros_layout _)). reflexivity.
  - intros nsd mc corr kernel_sum r'. apply Hexport.
  - intros uninit C R Q nsd mc corr kernel_sum r' Hrun.
    rewrite (Hexport _ _ _ _ _ _ (Init_bounds_wf uninit C R Q r) Hrun).
    rewrite Init_unfold. unfold SetZero, with_bounds, mat_zeros. cbn.
    rewrite !length_replicate. reflexivity.
Qed.
End SetZeroProps.

Section ExportEdges.
Context {T : Type} `{Scalar T}.
Implicit Types (r : KpcaResult T) (kernel_sum : MeanVariancePairMatrix T).

(** X3. On a result whose extent is empty (no component or no query
    point; a default-constructed result is one) [Export] calls
    [kernel_sum.get] not once and returns the object as it was, whatever
    the container is. *)
Theorem Export_empty_extent (nsd mc corr : T) kernel_sum r :
  n_rows (kpca_projections_ r) = 0 \/ n_cols (kpca_projections_ r) = 0 ->
  Export_logged nsd mc corr kernel_sum r = Ok (r, []) /\
  Export nsd mc corr kernel_sum r = Ok r.
Proof.
  intros Hempty.
  assert (Hlog : Export_logged nsd mc corr kernel_sum r = Ok (r, [])).
  { unfold Export_logged. destruct Hempty as [-> | ->]; [|reflexivity].
    apply for_loop_skip. reflexivity. }
  split; [exact Hlog|]. unfold Export. rewrite Hlog. reflexivity.
Qed.
End ExportEdges.

(** X3, for a default-constructed result and a container without
    entries. *)
Lemma Export_empty_extent_witness :
  let kernel_sum :=
    mkMeanVariancePairMatrix 0 0 (fun _ _ => mkMeanVariancePair 0 0)%float in
  Export_logged 2%float 1%float 0%float kernel_sum KpcaResult_new
    = Ok (KpcaResult_new, []) /\
  Export 2%float 1%float 0%float kernel_sum KpcaResult_new = Ok KpcaResult_new.
Proof.
  intros kernel_sum.
  apply (Export_empty_extent 2%float 1%float 0%float kernel_sum KpcaResult_new).
  left. reflexivity.
Defined.

(** ** Export overwrites the bounds *)

Section ExportOverwrite.
Context {T : Type} `{Scalar T}.
Implicit Types (r : KpcaResult T) (kernel_sum : MeanVariancePairMatrix T).

Lemma mat_at_Ok_lookup (m : Mat T) (k i : nat) (x : T) :
  mat_at m k i = Ok x -> mem m !! (k + i * n_rows m) = Some x.
Proof. unfold mat_at. apply checked_Ok_inv. Qed.

(** Two matrices of one shape holding the same value at every cell. *)
Lemma mat_eq_at (a b : Mat T) (f : nat -> nat -> T) :
  mat_wf a -> mat_wf b -> same_shape a b ->
  (forall k i, k < n_rows a -> i < n_cols a ->
     mat_at a k i = Ok (f k i) /\ mat_at b k i = Ok (f k i)) ->
  a = b.
Proof.
  intros Ha Hb Hs Hcells. apply mat_eq_cells; try assumption.
  intros k i Hk Hi. destruct (Hcells k i Hk Hi) as [Hx Hy].
  apply mat_at_Ok_lookup in Hx, Hy. destruct Hs as [Hrows _].
  rewrite <- Hrows in Hy. congruence.
Qed.

(** The outcome of [Export] is the same from any two well-formed objects
    of one extent that agree outside the three bound matrices. *)
Lemma Export_determined (nsd mc corr : T) kernel_sum r r0 :
  bounds_wf r -> covers kernel_sum r -> bounds_wf r0 ->
  same_shape (kpca_projections_ r0) (kpca_projections_ r) ->
  kernel_eigenvalues_ r0 = kernel_eigenvalues_ r ->
  covariance_eigenvectors_ r0 = covariance_eigenvectors_ r ->
  reference_projections_ r0 = reference_projections_ r ->
  kpca_components_ r0 = kpca_components_ r ->
  exists r', Export nsd mc corr kernel_sum r = Ok r' /\
             Export nsd mc corr kernel_sum r0 = Ok r' /\
             bounds_wf r' /\
             same_shape (kpca_projections_ r') (kpca_projections_ r).
Proof.
  intros Hwf Hcov Hwf0 [Hrows Hcols] Hv He Hr Hk.
  assert (Hcov0 : covers kernel_sum r0).
  { intros k i Hk0 Hi0. apply Hcov; congruence. }
  destruct (Export_cells nsd mc corr kernel_sum r Hwf Hcov)
    as (r' & Hrun & Hl & Hc & Hu & Hv' & He' & Hr' & Hk' & Hcells).
  destruct (Export_cells nsd mc corr kernel_sum r0 Hwf0 Hcov0)
    as (r0' & Hrun0 & Hl0 & Hc0 & Hu0 & Hv0 & He0 & Hr0 & Hk0 & Hcells0).
  pose proof (bounds_wf_same_layout _ _ Hl Hc Hu Hwf) as Hwf'.
  pose proof (bounds_wf_same_layout _ _ Hl0 Hc0 Hu0 Hwf0) as Hwf0'.
  assert (Hshape : same_shape (kpca_projections_ r') (kpca_projections_ r)).
  { destruct Hc as (? & ? & _). split; assumption. }
  assert (Hshape0 : same_shape (kpca_projections_ r0') (kpca_projections_ r)).
  { destruct Hc0 as (? & ? & _). split; congruence. }
  exists r'. split; [exact Hrun|]. split; [|split; assumption].
  rewrite Hrun0. f_equal.
  destruct Hwf' as (Hwl & Hwc & Hwu & [Hsl1 Hsl2] & [Hsu1 Hsu2]).
  destruct Hwf0' as (Hwl0 & Hwc0 & Hwu0 & [Hsl01 Hsl02] & [Hsu01 Hsu02]).
  destruct Hshape as [Hs1 Hs2], Hshape0 as [Hs01 Hs02].
  assert (Hcl : kpca_projections_l_ r0' = kpca_projections_l_ r').
  { apply (mat_eq_at _ _ (fun k i => lower_of nsd mc corr (mv_entry kernel_sum k i)));
      try assumption; [split; congruence|].
    intros k i Hk1 Hi1. split.
    - apply Hcells0; congruence.
    - apply Hcells; congruence. }
  assert (Hcc : kpca_projections_ r0' = kpca_projections_ r').
  { apply (mat_eq_at _ _ (fun k i => center_of mc corr (mv_entry kernel_sum k i)));
      try assumption; [split; congruence|].
    intros k i Hk1 Hi1. split.
    - apply Hcells0; congruence.
    - apply Hcells; congruence. }
  assert (Hcu : kpca_projections_u_ r0' = kpca_projections_u_ r').
  { apply (mat_eq_at _ _ (fun k i => upper_of nsd mc corr (mv_entry kernel_sum k i)));
      try assumption; [split; congruence|].
    intros k i Hk1 Hi1. split.
    - apply Hcells0; congruence.
    - apply Hcells; congruence. }
  destruct r' as [l' c' u' v' e' rp' kc'], r0' as [l0' c0' u0' v0' e0' rp0' kc0'].
  cbn in *. congruence.
Qed.

(** X4. [Export] overwrites every cell of the three bound matrices: from
    a well-formed result and a covering container its outcome does not
    depend on what the bound matrices held before (only on their shape),
    and a second [Export] with the same arguments changes nothing. *)
Theorem Export_overwrites (nsd mc corr : T) kernel_sum r r0 :
  bounds_wf r -> covers kernel_sum r -> bounds_wf r0 ->
  same_shape (kpca_projections_ r0) (kpca_projections_ r) ->
  kernel_eigenvalues_ r0 = kernel_eigenvalues_ r ->
  covariance_eigenvectors_ r0 = covariance_eigenvectors_ r ->
  reference_projections_ r0 = reference_projections_ r ->
  kpca_components_ r0 = kpca_components_ r ->
  exists r', Export nsd mc corr kernel_sum r = Ok r' /\
             Export nsd mc corr kernel_sum r0 = Ok r' /\
             Export nsd mc corr kernel_sum r' = Ok r'.
Proof.
  intros Hwf Hcov Hwf0 Hshape Hv He Hr Hk.
  destruct (Export_determined nsd mc corr kernel_sum r r0 Hwf Hcov Hwf0 Hshape
              Hv He Hr Hk) as (r' & Hrun & Hrun0 & Hwf' & Hshape').
  exists r'. split; [exact Hrun|]. split; [exact Hrun0|].
  destruct (Export_cells nsd mc corr kernel_sum r Hwf Hcov)
    as (r'' & Hrun'' & _ & _ & _ & Hv' & He' & Hr' & Hk' & _).
  rewrite Hrun in Hrun''. injection Hrun'' as <-.
  destruct (Export_determined nsd mc corr kernel_sum r r' Hwf Hcov Hwf' Hshape'
              Hv' He' Hr' Hk') as (r2 & Hrun2 & Hrun2' & _).
  rewrite Hrun in Hrun2. injection Hrun2 as <-. exact Hrun2'.
Qed.
End ExportOverwrite.

(** X4, at the scenario of the specification: a result initialised from
    uninitialised memory and one that already holds other bounds. *)
Lemma Export_overwrites_witness :
  let r := Init (fun _ => nan) 2 3 1 KpcaResult_new in
  let r0 :=
    (with_bounds KpcaResult_new (mkMat 2 1 [1; 2]) (mkMat 2 1 [3; 4])
       (mkMat 2 1 [5; 6]))%float in
  let kernel_sum := (two_component_stats 10 4 20 1)%float in
  exists r', Export 2%float 1%float 0%float kernel_sum r = Ok r' /\
             Export 2%float 1%float 0%float kernel_sum r0 = Ok r' /\
             Export 2%float 1%float 0%float kernel_sum r' = Ok r'.
Proof.
  intros r r0 kernel_sum.
  apply (Export_overwrites 2%float 1%float 0%float kernel_sum r r0).
  - apply Init_bounds_wf.
  - apply two_component_covers.
  - repeat split.
  - split; reflexivity.
  - reflexivity.
  - reflexivity.
  - reflexivity.
  - reflexivity.
Defined.

(** ** Stores beyond the bound matrices *)

Section ExportStores.
Context {T : Type} `{Scalar T}.
Implicit Types (r : KpcaResult T) (kernel_sum : MeanVariancePairMatrix T).

(** The bound matrices of [r'] have the dimensions and allocated sizes of
    those of [r]. *)
Let layouts (r r' : KpcaResult T) : Prop :=
  same_layout (kpca_projections_l_ r') (kpca_projections_l_ r) /\
  same_layout (kpca_projections_ r') (kpca_projections_ r) /\
  same_layout (kpca_projections_u_ r') (kpca_projections_u_ r).

Lemma mat_set_Ok_inv (m m' : Mat T) (k i : nat) (v : T) :
  mat_set m k i v = Ok m' ->
  k + i * n_rows m < length (mem m) /\ same_layout m' m.
Proof.
  unfold mat_set. destruct (decide _) as [Hlt|]; [|discriminate].
  intros Heq. injection Heq as <-. split; [exact Hlt|].
  unfold same_layout. cbn. rewrite length_insert. auto.
Qed.

Lemma same_layout_trans (a b c : Mat T) :
  same_layout a b -> same_layout b c -> same_layout a c.
Proof. unfold same_layout. intros (-> & -> & ->) (-> & -> & ->). auto. Qed.

(** A completed iteration stored inside the two outer matrices and kept
    every layout. *)
Lemma Export_body_stores (nsd mc corr : T) kernel_sum (i k : nat)
    (st st' : export_state) :
  Export_body nsd mc corr kernel_sum i k st = Ok st' ->
  k + i * n_rows (kpca_projections_l_ st.1) < length (mem (kpca_projections_l_ st.1)) /\
  k + i * n_rows (kpca_projections_u_ st.1) < length (mem (kpca_projections_u_ st.1)) /\
  layouts st.1 st'.1.
Proof.
  destruct st as [r reads]. unfold Export_body. intros Hrun.
  apply bind_Ok_inv in Hrun as (p0 & _ & Hrun).
  apply bind_Ok_inv in Hrun as (p1 & _ & Hrun).
  apply bind_Ok_inv in Hrun as (l & Hl & Hrun).
  apply bind_Ok_inv in Hrun as (p2 & _ & Hrun).
  apply bind_Ok_inv in Hrun as (c & Hc & Hrun).
  apply bind_Ok_inv in Hrun as (p3 & _ & Hrun).
  apply bind_Ok_inv in Hrun as (u & Hu & Hrun).
  injection Hrun as <-.
  apply mat_set_Ok_inv in Hl as [Hl Hll], Hc as [_ Hcl], Hu as [Hu Hul].
  cbn [fst]. repeat split; assumption || apply Hll || apply Hcl || apply Hul.
Qed.

Lemma layouts_refl r : layouts r r.
Proof. repeat split. Qed.

Lemma layouts_trans r r' r'' : layouts r r' -> layouts r' r'' -> layouts r r''.
Proof.
  intros (Hl & Hc & Hu) (Hl' & Hc' & Hu').
  repeat split; eapply same_layout_trans; eassumption.
Qed.

Lemma Export_column_layouts (nsd mc corr : T) kernel_sum (i n : nat)
    (st st' : export_state) :
  for_loop n (fun k st => Export_body nsd mc corr kernel_sum i k st) st = Ok st' ->
  layouts st.1 st'.1.
Proof.
  intros Hrun.
  refine (for_loop_preserves (fun t => layouts st.1 t.1) _ _ _ _ _ Hrun
            (layouts_refl _)).
  intros k u u' Hb Hu. cbn beta in *.
  apply Export_body_stores in Hb as (_ & _ & Hb).
  exact (layouts_trans _ _ _ Hu Hb).
Qed.

(** X5. [Export] takes its loop bounds from [kpca_projections_] alone and
    stores into the two other bound matrices unchecked: when
    [kpca_projections_l_] or [kpca_projections_u_] has no element at some
    pair of that extent, the run is undefined, for every container. *)
Theorem Export_store_out_of_bounds (nsd mc corr : T) kernel_sum r (k i : nat) :
  k < n_rows (kpca_projections_ r) -> i < n_cols (kpca_projections_ r) ->
  length (mem (kpca_projections_l_ r)) <= k + i * n_rows (kpca_projections_l_ r) \/
  length (mem (kpca_projections_u_ r)) <= k + i * n_rows (kpca_projections_u_ r) ->
  Export nsd mc corr kernel_sum r = Undefined.
Proof.
  intros Hk Hi Hout.
  assert (Hlog : Export_logged nsd mc corr kernel_sum r = Undefined).
  { unfold Export_logged. apply (for_loop_undefined _ _ i); [exact Hi| |].
    - intros e i' t. apply for_loop_no_raise. intros k' t'.
      apply Export_body_no_raise.
    - intros t t' Hprefix Hcol.
      assert (Hlay : layouts r t.1).
      { refine (for_loop_preserves (fun u => layouts r u.1) _ _ _ _ _ Hprefix
                  (layouts_refl _)).
        intros i' u u' Hb Hu. cbn beta in *.
        apply Export_column_layouts in Hb. exact (layouts_trans _ _ _ Hu Hb). }
      destruct (for_loop_Ok_inv _ _ _ _ Hcol k Hk) as (u & u' & Hu & Hbody).
      pose proof (layouts_trans _ _ _ Hlay
                    (Export_column_layouts _ _ _ _ _ _ _ _ Hu)) as Hlay'.
      destruct (Export_body_stores _ _ _ _ _ _ _ _ Hbody) as (Hl & Hu' & _).
      destruct Hlay' as ((Hl1 & _ & Hl3) & _ & (Hu1 & _ & Hu3)).
      rewrite Hl1, Hl3 in Hl. rewrite Hu1, Hu3 in Hu'. lia. }
  unfold Export. rewrite Hlog. reflexivity.
Qed.
End ExportStores.

(** X5, for a result whose lower-bound matrix is empty while
    [kpca_projections_] is 1 x 1 (as after loading such an archive). *)
Lemma Export_store_out_of_bounds_witness :
  let r :=
    (mkKpcaResult mat_empty (mkMat 1 1 [0]) (mkMat 1 1 [0]) [] mat_empty
       mat_empty mat_empty)%float in
  Export 2%float 1%float 0%float (two_component_stats 10 4 20 1)%float r
  = Undefined.
Proof.
  intros r.
  apply (Export_store_out_of_bounds 2%float 1%float 0%float
           (two_component_stats 10 4 20 1)%float r 0 0).
  - cbn. lia.
  - cbn. lia.
  - left. cbn. lia.
Defined.

(** ** Eigendecomposition results: more eigenvalues than columns *)

Section EigenSizeProps.
Context {T : Type} `{Scalar T}.
Implicit Types (r : KpcaResult T).

(** X8. With at least as many eigenvalues as eigenvector columns, an
    eigenvector matrix that is an object of its own, and the first
    [n_cols] sorted pairs recording columns of the matrix, the call
    completes and keeps the top [n_cols]: the stored eigenvalues followed
    by the dropped ones are a non-increasing rearrangement of the input,
    and stored column [i] is a copy of the input column recorded in the
    [i]-th sorted pair.  Nothing else changes. *)
Theorem set_eigendecomposition_results_truncates
    (uninit : nat -> T)
    (std_sort : list (nat * T) -> outcome (list (nat * T)))
    (kernel_eigenvalues_in : vec_ref T) (covariance_eigenvectors_in : Mat T) r
    (sorted_eigenvalues : list (nat * T)) :
  mat_wf covariance_eigenvectors_in ->
  n_cols covariance_eigenvectors_in
    <= length (read_vec kernel_eigenvalues_in r) ->
  std_sort (index_pairs (read_vec kernel_eigenvalues_in r))
    = Ok sorted_eigenvalues ->
  std_sort_post eigen_comp (index_pairs (read_vec kernel_eigenvalues_in r))
    sorted_eigenvalues ->
  (forall i p, i < n_cols covariance_eigenvectors_in ->
     sorted_eigenvalues !! i = Some p ->
     p.1 < n_cols covariance_eigenvectors_in) ->
  exists r' dropped,
    set_eigendecomposition_results uninit std_sort kernel_eigenvalues_in
      (mat_object covariance_eigenvectors_in) r = Ok r' /\
    length (kernel_eigenvalues_ r') = n_cols covariance_eigenvectors_in /\
    read_vec kernel_eigenvalues_in r ≡ₚ kernel_eigenvalues_ r' ++ dropped /\
    (forall a b x y, a < b ->
       (kernel_eigenvalues_ r' ++ dropped) !! a = Some x ->
       (kernel_eigenvalues_ r' ++ dropped) !! b = Some y -> ~ s_gt y x) /\
    same_shape (covariance_eigenvectors_ r') covariance_eigenvectors_in /\
    mat_wf (covariance_eigenvectors_ r') /\
    (forall i, i < n_cols covariance_eigenvectors_in ->
       exists idx e,
         sorted_eigenvalues !! i = Some (idx, e) /\
         read_vec kernel_eigenvalues_in r !! idx = Some e /\
         kernel_eigenvalues_ r' !! i = Some e /\
         column_copied covariance_eigenvectors_in idx
           (covariance_eigenvectors_ r') i) /\
    same_bounds r r' /\
    reference_projections_ r' = reference_projections_ r /\
    kpca_components_ r' = kpca_components_ r.
Proof.
  intros Hwf Hn Hsort [Hperm' Hsorted'] Hidx.
  set (n := n_cols covariance_eigenvectors_in) in *.
  set (evals := read_vec kernel_eigenvalues_in r) in *.
  pose proof (sorted_pairs_length evals _ Hperm') as Hlen.
  destruct (set_eigendecomposition_results_leading covariance_eigenvectors_in
              sorted_eigenvalues Hwf ltac:(fold n; lia) Hidx uninit std_sort
              kernel_eigenvalues_in r Hsort)
    as (vecs & Hrun & Hshape & Hwfv & Hcols).
  fold n in Hrun, Hcols.
  exists (with_eigen r (take n sorted_eigenvalues.*2) vecs),
         (drop n sorted_eigenvalues.*2).
  split; [exact Hrun|]. cbn [with_eigen kernel_eigenvalues_
    covariance_eigenvectors_ reference_projections_ kpca_components_].
  rewrite take_drop.
  split; [rewrite length_take, length_fmap; lia|].
  split; [rewrite <- (fmap_snd_index_pairs evals) at 1;
          apply fmap_Permutation, Hperm'|].
  split.
  { intros a b x y Hab Ha Hb. rewrite list_lookup_fmap in Ha, Hb.
    destruct (sorted_eigenvalues !! a) as [pa|] eqn:Hpa; [|discriminate].
    destruct (sorted_eigenvalues !! b) as [pb|] eqn:Hpb; [|discriminate].
    injection Ha as <-. injection Hb as <-.
    exact (Hsorted' a b pa pb Hab Hpa Hpb). }
  split; [exact Hshape|]. split; [exact Hwfv|].
  split; [|repeat split].
  intros i Hi.
  destruct (lookup_lt_is_Some_2 sorted_eigenvalues i) as [[idx e] Hp]; [lia|].
  exists idx, e. split; [exact Hp|]. split; [|split].
  - exact (proj2 (sorted_entry evals _ i _ Hperm' Hp)).
  - rewrite lookup_take_lt by exact Hi. rewrite list_lookup_fmap, Hp. reflexivity.
  - exact (Hcols i (idx, e) Hi Hp).
Qed.

(** X9. With both arguments bound to objects of their own, every element
    of the two resized eigen fields is written before the call returns:
    what it leaves there depends neither on the contents of freshly
    allocated memory nor on the eigen fields the object held before, and
    a second call with the same arguments changes nothing. *)
Theorem set_eigendecomposition_results_overwrites
    (uninit uninit' : nat -> T)
    (std_sort : list (nat * T) -> outcome (list (nat * T)))
    (kernel_eigenvalues_in : Vec T) (covariance_eigenvectors_in : Mat T) r r0
    (sorted_eigenvalues : list (nat * T)) :
  mat_wf covariance_eigenvectors_in ->
  n_cols covariance_eigenvectors_in <= length kernel_eigenvalues_in ->
  std_sort (index_pairs kernel_eigenvalues_in) = Ok sorted_eigenvalues ->
  index_pairs kernel_eigenvalues_in ≡ₚ sorted_eigenvalues ->
  (forall i p, i < n_cols covariance_eigenvectors_in ->
     sorted_eigenvalues !! i = Some p ->
     p.1 < n_cols covariance_eigenvectors_in) ->
  exists vals vecs,
    set_eigendecomposition_results uninit std_sort
      (vec_object kernel_eigenvalues_in) (mat_object covariance_eigenvectors_in)
      r = Ok (with_eigen r vals vecs) /\
    set_eigendecomposition_results uninit' std_sort
      (vec_object kernel_eigenvalues_in) (mat_object covariance_eigenvectors_in)
      r0 = Ok (with_eigen r0 vals vecs) /\
    set_eigendecomposition_results uninit' std_sort
      (vec_object kernel_eigenvalues_in) (mat_object covariance_eigenvectors_in)
      (with_eigen r vals vecs)
    = Ok (with_eigen r vals vecs).
Proof.
  intros Hwf Hn Hsort Hperm Hidx.
  pose proof (sorted_pairs_length _ _ Hperm) as Hlen.
  assert (Henough : n_cols covariance_eigenvectors_in
                    <= length sorted_eigenvalues) by lia.
  pose proof (fun u s =>
    set_eigendecomposition_results_leading covariance_eigenvectors_in
      sorted_eigenvalues Hwf Henough Hidx u std_sort
      (vec_object kernel_eigenvalues_in) s Hsort) as Hspec.
  destruct (Hspec uninit r) as (vecs & Hrun & Hshape & Hwfv & Hcols).
  assert (Hsame : forall u s,
            set_eigendecomposition_results u std_sort
              (vec_object kernel_eigenvalues_in)
              (mat_object covariance_eigenvectors_in) s
            = Ok (with_eigen s
                    (take (n_cols covariance_eigenvectors_in)
                       sorted_eigenvalues.*2)
                    vecs)).
  { intros u s.
    destruct (Hspec u s) as (vecs' & Hrun' & Hshape' & Hwfv' & Hcols').
    rewrite Hrun'. do 2 f_equal.
    apply mat_eq_cells; try assumption.
    - destruct Hshape as [? ?], Hshape' as [? ?]. split; congruence.
    - intros k i Hk Hi. destruct Hshape' as [Hr' Hc'], Hshape as [Hr Hc].
      destruct (lookup_lt_is_Some_2 sorted_eigenvalues i) as [p Hp]; [lia|].
      destruct (Hcols' i p ltac:(lia) Hp k ltac:(lia)) as (x & Hx & Hx').
      destruct (Hcols i p ltac:(lia) Hp k ltac:(lia)) as (y & Hy & Hy').
      unfold mat_at in Hx', Hy'. apply checked_Ok_inv in Hx', Hy'.
      rewrite Hr in Hy'. rewrite Hr' in *. congruence. }
  eexists _, vecs. split; [exact Hrun|]. split; [apply Hsame|].
  rewrite Hsame. reflexivity.
Qed.
End EigenSizeProps.

Lemma three_eigenvalues_leading (i : nat) (p : nat * float) :
  i < 2 -> [(1, 9%float); (0, 3%float); (2, 1%float)] !! i = Some p ->
  p.1 < 2.
Proof.
  intros Hi Hp.
  destruct i as [|[|i]]; [| |lia]; injection Hp as <-; cbn; lia.
Qed.

(** X8, with eigenvalues [3, 9, 1] for the two columns [v0], [v1]: the
    eigenvalues 9 and 3 are kept. *)
Lemma set_eigendecomposition_results_truncates_witness :
  exists r' dropped,
    set_eigendecomposition_results (fun _ => nan) std_sort_libstdcxx
      (vec_object three_eigenvalues) (mat_object two_eigenvectors)
      KpcaResult_new = Ok r' /\
    length (kernel_eigenvalues_ r') = 2 /\
    three_eigenvalues ≡ₚ kernel_eigenvalues_ r' ++ dropped.
Proof.
  destruct (set_eigendecomposition_results_truncates (fun _ => nan)
              std_sort_libstdcxx (vec_object three_eigenvalues)
              two_eigenvectors KpcaResult_new
              [(1, 9%float); (0, 3%float); (2, 1%float)])
    as (r' & dropped & Hrun & Hlen & Hperm & _).
  - reflexivity.
  - cbn. lia.
  - exact three_eigenvalues_order.
  - exact three_eigenvalues_sorted.
  - exact three_eigenvalues_leading.
  - exists r', dropped. auto.
Defined.

(** X9, at the same input, from two different objects and two different
    contents of fresh memory. *)
Lemma set_eigendecomposition_results_overwrites_witness :
  exists vals vecs,
    set_eigendecomposition_results (fun _ => nan) std_sort_libstdcxx
      (vec_object three_eigenvalues) (mat_object two_eigenvectors)
      KpcaResult_new
    = Ok (with_eigen KpcaResult_new vals vecs) /\
    set_eigendecomposition_results (fun _ => 1%float) std_sort_libstdcxx
      (vec_object three_eigenvalues) (mat_object two_eigenvectors)
      populated_result
    = Ok (with_eigen populated_result vals vecs) /\
    set_eigendecomposition_results (fun _ => 1%float) std_sort_libstdcxx
      (vec_object three_eigenvalues) (mat_object two_eigenvectors)
      (with_eigen KpcaResult_new vals vecs)
    = Ok (with_eigen KpcaResult_new vals vecs).
Proof.
  apply (set_eigendecomposition_results_overwrites (fun _ => nan)
           (fun _ => 1%float) std_sort_libstdcxx three_eigenvalues
           two_eigenvectors KpcaResult_new populated_result
           [(1, 9%float); (0, 3%float); (2, 1%float)]).
  - reflexivity.
  - cbn. lia.
  - exact three_eigenvalues_order.
  - exact (proj1 three_eigenvalues_sorted).
  - exact three_eigenvalues_leading.
Defined.

(** ** Eigendecomposition results: the eigenvector member passed to its
    own object *)

Section EigenAlias.
Context {T : Type} `{Scalar T}.
Variable sorted_eigenvalues : list (nat * T).
Variable input : Mat T.

Let n := n_cols input.
Let rows := n_rows input.

(** The loops on the two fields they write; the source of a copy is the
    matrix being written. *)
Let copy_cell (i j : nat) (vecs : Mat T) : outcome (Mat T) :=
  q ← checked (sorted_eigenvalues !! i);
  x ← mat_at vecs j q.1;
  mat_set vecs j i x.

Let store_column (i : nat) (st : list T * Mat T) : outcome (list T * Mat T) :=
  p ← checked (sorted_eigenvalues !! i);
  vals ← vec_set st.1 i p.2;
  vecs ← for_loop (n_rows st.2) (copy_cell i) st.2;
  Ok (vals, vecs).

Hypothesis input_wf : mat_wf input.

(** [set_size] with the dimensions the matrix has keeps it as it is. *)
Lemma mat_set_size_same (uninit : nat -> T) :
  mat_set_size uninit rows n input = input.
Proof.
  unfold mat_set_size, rows, n. rewrite decide_True by (symmetry; exact input_wf).
  destruct input. reflexivity.
Qed.

Lemma set_eigendecomposition_results_member (uninit : nat -> T)
    (std_sort : list (nat * T) -> outcome (list (nat * T)))
    (kernel_eigenvalues_in : vec_ref T) (r : KpcaResult T) :
  covariance_eigenvectors_ r = input ->
  std_sort (index_pairs (read_vec kernel_eigenvalues_in r))
    = Ok sorted_eigenvalues ->
  set_eigendecomposition_results uninit std_sort kernel_eigenvalues_in
    mat_member_covariance_eigenvectors r
  = st ← for_loop n store_column
           (vec_set_size uninit n (kernel_eigenvalues_ r), input);
    Ok (with_eigen r st.1 st.2).
Proof.
  intros Hinput Hsort.
  rewrite (set_eigendecomposition_results_unfold
             mat_member_covariance_eigenvectors _ _ _ _ _ Hsort).
  cbn [read_mat ref_read covariance_eigenvectors with_eigen
       covariance_eigenvectors_ kernel_eigenvalues_].
  rewrite Hinput. fold rows n. rewrite mat_set_size_same. fold n.
  rewrite (for_loop_lift
             (fun st : KpcaResult T =>
                (kernel_eigenvalues_ st, covariance_eigenvectors_ st))
             (fun st p => with_eigen st p.1 p.2) store_column).
  - reflexivity.
  - intros [? ? ? ? ? ? ?]. reflexivity.
  - intros t [vals vecs]. reflexivity.
  - reflexivity.
  - intros i st. unfold store_column. cbn [fst snd].
    destruct (checked (sorted_eigenvalues !! i)) as [p| |] eqn:Hp;
      [|reflexivity..].
    rewrite !bind_Ok.
    destruct (vec_set (kernel_eigenvalues_ st) i p.2) as [vals| |];
      [|reflexivity..].
    rewrite !bind_Ok. cbn zeta.
    cbn [with_eigen covariance_eigenvectors_ kernel_eigenvalues_].
    rewrite (for_loop_lift covariance_eigenvectors_
               (fun st vecs => with_eigen st (kernel_eigenvalues_ st) vecs)
               (copy_cell i)).
    + cbn [with_eigen covariance_eigenvectors_ kernel_eigenvalues_].
      destruct (for_loop (n_rows (covariance_eigenvectors_ st)) (copy_cell i)
                  (covariance_eigenvectors_ st)); reflexivity.
    + intros [? ? ? ? ? ? ?]. reflexivity.
    + reflexivity.
    + reflexivity.
    + intros j t. unfold copy_cell. rewrite Hp, !bind_Ok.
      cbn [read_mat ref_read covariance_eigenvectors].
      destruct (mat_at (covariance_eigenvectors_ t) j p.1); reflexivity.
Qed.

Hypothesis enough_pairs : n <= length sorted_eigenvalues.
Hypothesis leading_indices :
  forall i p, i < n -> sorted_eigenvalues !! i = Some p -> p.1 < n.

Let vecs_layout (vecs : Mat T) : Prop :=
  n_rows vecs = rows /\ n_cols vecs = n /\ length (mem vecs) = rows * n.

(** While column [i] is copied from column [idx] of the same matrix:
    below row [j] column [i] holds what column [idx] held on entry, and
    every other cell is as on entry. *)
Let copying (entry : Mat T) (i idx j : nat) (vecs : Mat T) : Prop :=
  forall j' c, j' < rows -> c < n ->
    mem vecs !! (j' + c * rows)
    = mem entry !! (j' + (if decide (c = i /\ j' < j) then idx else c) * rows).

Lemma alias_copy_cell_step (entry : Mat T) (i : nat) (p : nat * T) (j : nat)
    (vecs : Mat T) :
  i < n -> sorted_eigenvalues !! i = Some p -> j < rows ->
  vecs_layout entry ->
  vecs_layout vecs /\ copying entry i p.1 j vecs ->
  exists vecs',
    copy_cell i j vecs = Ok vecs' /\
    vecs_layout vecs' /\ copying entry i p.1 (S j) vecs'.
Proof.
  intros Hi Hp Hj (_ & _ & Hlen0) ((Hr & Hc & Hlen) & Hcopy).
  pose proof (leading_indices i p Hi Hp) as Hidx.
  unfold copy_cell. rewrite Hp. cbn [checked]. rewrite bind_Ok.
  pose proof (cell_index_lt rows n j p.1 Hj Hidx) as Hsrc.
  destruct (lookup_lt_is_Some_2 (mem entry) (j + p.1 * rows)) as [x Hx].
  { rewrite Hlen0. exact Hsrc. }
  assert (Hread : mem vecs !! (j + p.1 * rows) = Some x).
  { rewrite (Hcopy j p.1 Hj Hidx).
    rewrite decide_False by lia. exact Hx. }
  unfold mat_at. rewrite Hr, Hread. cbn [checked]. rewrite bind_Ok.
  pose proof (cell_index_lt rows n j i Hj Hi) as Hdst.
  rewrite mat_set_in by (rewrite Hr, Hlen; exact Hdst).
  eexists. split; [reflexivity|]. rewrite Hr. split.
  - unfold vecs_layout. cbn [n_rows n_cols mem]. rewrite length_insert. auto.
  - intros j' c Hj' Hc'. cbn [mem].
    destruct (decide (c = i /\ j' = j)) as [[-> ->]|Hne].
    + rewrite list_lookup_insert_eq by (rewrite Hlen; exact Hdst).
      rewrite decide_True by lia. symmetry. exact Hx.
    + rewrite list_lookup_insert_ne.
      * rewrite (Hcopy j' c Hj' Hc').
        destruct (decide (c = i /\ j' < j)) as [[-> Hlt]|Hn1].
        -- rewrite decide_True by lia. reflexivity.
        -- rewrite decide_False by lia. reflexivity.
      * intros Heq. apply cell_index_inj in Heq as [-> ->]; [|lia..].
        apply Hne. auto.
Qed.

Lemma alias_copy_cells (i : nat) (p : nat * T) (entry : Mat T) :
  i < n -> sorted_eigenvalues !! i = Some p -> vecs_layout entry ->
  exists vecs',
    for_loop (n_rows entry) (copy_cell i) entry = Ok vecs' /\
    vecs_layout vecs' /\
    forall j c, j < rows -> c < n ->
      mem vecs' !! (j + c * rows)
      = mem entry !! (j + (if decide (c = i) then p.1 else c) * rows).
Proof.
  intros Hi Hp Hlay. rewrite (proj1 Hlay).
  destruct (for_loop_rule
    (fun j vecs => vecs_layout vecs /\ copying entry i p.1 j vecs)
    (copy_cell i) rows entry) as (vecs' & Hrun & Hlay' & Hcopy).
  - split; [exact Hlay|]. intros j' c Hj' Hc.
    rewrite decide_False by lia. reflexivity.
  - intros j t Hj Hinv. exact (alias_copy_cell_step entry i p j t Hi Hp Hj Hlay Hinv).
  - exists vecs'. split; [exact Hrun|]. split; [exact Hlay'|].
    intros j c Hj Hc. rewrite (Hcopy j c Hj Hc).
    destruct (decide (c = i)) as [->|Hne].
    + rewrite decide_True by lia. reflexivity.
    + rewrite decide_False by (intros [? _]; congruence). reflexivity.
Qed.

(** Invariant of the loop over the columns: the columns from [i] on are
    as in the input; a column below [i] holds the input column recorded
    for it when that one lies at or right of it, and otherwise what the
    column at the recorded index holds now. *)
Let alias_inv (i : nat) (st : list T * Mat T) : Prop :=
  length st.1 = n /\ vecs_layout st.2 /\
  (forall i' p, i' < i -> sorted_eigenvalues !! i' = Some p ->
     st.1 !! i' = Some p.2) /\
  (forall j c, j < rows -> i <= c < n ->
     mem st.2 !! (j + c * rows) = mem input !! (j + c * rows)) /\
  (forall i' p j, i' < i -> sorted_eigenvalues !! i' = Some p -> j < rows ->
     mem st.2 !! (j + i' * rows)
     = if decide (i' <= p.1) then mem input !! (j + p.1 * rows)
       else mem st.2 !! (j + p.1 * rows)).

Lemma alias_store_columns (vals0 : list T) :
  length vals0 = n ->
  exists st, for_loop n store_column (vals0, input) = Ok st /\ alias_inv n st.
Proof.
  intros Hlen0. apply (for_loop_rule alias_inv).
  - split; [exact Hlen0|]. split; [repeat split; exact input_wf|].
    split; [intros; lia|]. split; [reflexivity|intros; lia].
  - intros i [vals vecs] Hi (Hlen & Hlay & Hvals & Hkeep & Hdone).
    cbn [fst snd] in *.
    destruct (lookup_lt_is_Some_2 sorted_eigenvalues i) as [p Hp]; [lia|].
    pose proof (leading_indices i p Hi Hp) as Hidx.
    destruct (alias_copy_cells i p vecs Hi Hp Hlay) as (vecs' & Hrun & Hlay' & Hcells).
    unfold store_column. cbn [fst snd].
    rewrite Hp. cbn [checked]. rewrite bind_Ok.
    unfold vec_set. rewrite decide_True by lia. rewrite bind_Ok.
    rewrite Hrun, bind_Ok.
    eexists. split; [reflexivity|]. unfold alias_inv. cbn [fst snd].
    split; [rewrite length_insert; exact Hlen|].
    split; [exact Hlay'|]. split; [|split].
    + intros i' p' Hi' Hp'. destruct (decide (i' = i)) as [->|Hne].
      * rewrite Hp in Hp'. injection Hp' as <-.
        apply list_lookup_insert_eq. lia.
      * rewrite list_lookup_insert_ne by congruence. apply Hvals; [lia|exact Hp'].
    + intros j c Hj Hc. rewrite (Hcells j c Hj ltac:(lia)).
      rewrite decide_False by lia. apply Hkeep; [exact Hj|lia].
    + intros i' p' j Hi' Hp' Hj.
      pose proof (leading_indices i' p' ltac:(lia) Hp') as Hidx'.
      rewrite (Hcells j i' Hj ltac:(lia)).
      destruct (decide (i' = i)) as [->|Hne].
      * rewrite Hp in Hp'. injection Hp' as <-.
        destruct (decide (i <= p.1)) as [Hle|Hgt].
        -- apply Hkeep; [exact Hj|lia].
        -- rewrite (Hcells j p.1 Hj Hidx). rewrite decide_False by lia.
           reflexivity.
      * rewrite (Hdone i' p' j ltac:(lia) Hp' Hj).
        destruct (decide (i' <= p'.1)) as [Hle|Hgt]; [reflexivity|].
        rewrite (Hcells j p'.1 Hj Hidx'). rewrite decide_False by lia.
        reflexivity.
Qed.

(** X20. Called with the result's own eigenvector member as the
    eigenvector argument (well formed, with at least as many sorted pairs
    as columns, the leading ones recording columns of it), the call
    completes and permutes in place, reading columns it may have
    overwritten: stored column [i] is the input column recorded for it
    when that column lies at [i] or to its right, and otherwise a copy of
    the column already stored at the recorded index.  When every leading
    pair records its own position, the matrix is left as it was. *)
Theorem set_eigendecomposition_results_in_place (uninit : nat -> T)
    (std_sort : list (nat * T) -> outcome (list (nat * T)))
    (kernel_eigenvalues_in : vec_ref T) (r : KpcaResult T) :
  covariance_eigenvectors_ r = input ->
  std_sort (index_pairs (read_vec kernel_eigenvalues_in r))
    = Ok sorted_eigenvalues ->
  exists vecs,
    set_eigendecomposition_results uninit std_sort kernel_eigenvalues_in
      mat_member_covariance_eigenvectors r
    = Ok (with_eigen r (take n sorted_eigenvalues.*2) vecs) /\
    same_shape vecs input /\ mat_wf vecs /\
    (forall i p, i < n -> sorted_eigenvalues !! i = Some p ->
       (i <= p.1 -> column_copied input p.1 vecs i) /\
       (p.1 < i -> column_copied vecs p.1 vecs i)) /\
    ((forall i p, i < n -> sorted_eigenvalues !! i = Some p -> p.1 = i) ->
     vecs = input).
Proof.
  intros Hinput Hsort.
  rewrite (set_eigendecomposition_results_member _ _ _ _ Hinput Hsort).
  destruct (alias_store_columns (vec_set_size uninit n (kernel_eigenvalues_ r)))
    as ([vals vecs] & Hrun & Hlen & (Hr & Hc & Hmem) & Hvals & _ & Hdone).
  { apply vec_set_size_length. }
  cbn [fst snd] in *. rewrite Hrun, bind_Ok. cbn [fst snd].
  assert (Hvals_eq : vals = take n sorted_eigenvalues.*2).
  { apply list_eq. intros i. destruct (decide (i < n)) as [Hi|Hi].
    - rewrite lookup_take_lt by exact Hi. rewrite list_lookup_fmap.
      destruct (lookup_lt_is_Some_2 sorted_eigenvalues i) as [p Hp]; [lia|].
      rewrite Hp. apply (Hvals i p Hi Hp).
    - rewrite lookup_take_ge by lia. apply lookup_ge_None_2. lia. }
  assert (Hwfv : mat_wf vecs) by (unfold mat_wf; rewrite Hr, Hc; exact Hmem).
  exists vecs. rewrite Hvals_eq. split; [reflexivity|].
  split; [split; assumption|]. split; [exact Hwfv|]. split.
  - intros i p Hi Hp. pose proof (leading_indices i p Hi Hp) as Hidx.
    split; intros Hcmp j Hj.
    + fold rows in Hj.
      destruct (lookup_lt_is_Some_2 (mem input) (j + p.1 * rows)) as [x Hx].
      { rewrite input_wf. apply cell_index_lt; assumption. }
      exists x. unfold mat_at. fold rows. rewrite Hr, Hx.
      rewrite (Hdone i p j Hi Hp Hj), decide_True by exact Hcmp.
      rewrite Hx. split; reflexivity.
    + rewrite Hr in Hj.
      destruct (lookup_lt_is_Some_2 (mem vecs) (j + p.1 * rows)) as [x Hx].
      { rewrite Hmem. apply cell_index_lt; assumption. }
      exists x. unfold mat_at. rewrite Hr, Hx.
      rewrite (Hdone i p j Hi Hp Hj), decide_False by lia.
      rewrite Hx. split; reflexivity.
  - intros Hid. apply mat_eq_cells; [exact Hwfv|exact input_wf|split; assumption|].
    intros k i Hk Hi. rewrite Hr in Hk. rewrite Hc in Hi. rewrite Hr.
    destruct (lookup_lt_is_Some_2 sorted_eigenvalues i) as [p Hp]; [lia|].
    rewrite (Hdone i p k Hi Hp Hk).
    rewrite (Hid i p Hi Hp), decide_True by lia. reflexivity.
Qed.
End EigenAlias.

Lemma eigen_scenario_leading (i : nat) (p : nat * float) :
  i < 3 -> [(1, 9%float); (0, 3%float); (2, 1%float)] !! i = Some p ->
  p.1 < 3.
Proof.
  intros Hi Hp.
  destruct i as [|[|[|i]]]; [| | |lia]; injection Hp as <-; cbn; lia.
Qed.

(** X20, at the eigen scenario held by the result itself: the stored
    columns are [v1, v1, v2]. *)
Lemma set_eigendecomposition_results_in_place_witness :
  exists vecs,
    set_eigendecomposition_results (fun _ => nan) std_sort_libstdcxx
      vec_member_kernel_eigenvalues mat_member_covariance_eigenvectors
      eigen_scenario_result
    = Ok (with_eigen eigen_scenario_result [9; 3; 1]%float vecs) /\
    column_copied three_eigenvectors 1 vecs 0 /\
    column_copied vecs 0 vecs 1 /\
    column_copied three_eigenvectors 2 vecs 2.
Proof.
  assert (Henough : n_cols three_eigenvectors
                    <= length [(1, 9%float); (0, 3%float); (2, 1%float)]).
  { cbn. lia. }
  destruct (set_eigendecomposition_results_in_place
              [(1, 9%float); (0, 3%float); (2, 1%float)] three_eigenvectors
              eq_refl Henough eigen_scenario_leading
              (fun _ => nan) std_sort_libstdcxx vec_member_kernel_eigenvalues
              eigen_scenario_result eq_refl three_eigenvalues_order)
    as (vecs & Hrun & _ & _ & Hcols & _).
  exists vecs. split; [exact Hrun|].
  split; [apply (Hcols 0 (1, 9%float)); [cbn; lia|reflexivity|cbn; lia]|].
  split; [apply (Hcols 1 (0, 3%float)); [cbn; lia|reflexivity|cbn; lia]|].
  apply (Hcols 2 (2, 1%float)); [cbn; lia|reflexivity|cbn; lia].
Defined.

(** ** Serialization: what the archive depends on *)

Section SerializeMore.
Context {I T : Type} `{Scalar T}.
Variable cd : Codec I T.

Lemma saved_unfold (version : nat) (r : KpcaResult T) :
  saved cd version r
  = Ok (save_mat cd (kpca_projections_l_ r)
          ++ save_mat cd (kpca_projections_ r)
          ++ save_mat cd (kpca_projections_u_ r)
          ++ save_vec cd (kernel_eigenvalues_ r)
          ++ save_mat cd (covariance_eigenvectors_ r)).
Proof. unfold saved. rewrite serialize_save. reflexivity. Qed.

Lemma load_saved (version : nat) (r target : KpcaResult T) (rest : list I) :
  codec_roundtrip cd -> serialized_wf r ->
  serialize (archive := iarchive_Archive cd)
    (mkIarchive
       ((save_mat cd (kpca_projections_l_ r)
           ++ save_mat cd (kpca_projections_ r)
           ++ save_mat cd (kpca_projections_u_ r)
           ++ save_vec cd (kernel_eigenvalues_ r)
           ++ save_mat cd (covariance_eigenvectors_ r)) ++ rest))
    version target
  = Ok (mkIarchive rest,
        mkKpcaResult (kpca_projections_l_ r) (kpca_projections_ r)
          (kpca_projections_u_ r) (kernel_eigenvalues_ r)
          (covariance_eigenvectors_ r)
          (reference_projections_ target) (kpca_components_ target)).
Proof.
  intros Hcd (Hl & Hc & Hu & He).
  rewrite <- !app_assoc. apply serialize_load; assumption.
Qed.

(** X10. The archive [serialize] writes is a function of the three bound
    matrices, the eigenvalues and the eigenvectors, and of nothing else:
    two results produce the same archive exactly when they agree on these
    five fields.  The version number is not used, and what a caller
    stores through [reference_projections()] or [kpca_components()] never
    reaches the archive. *)
Theorem serialize_five_fields (version version' : nat) (r1 r2 : KpcaResult T) :
  codec_roundtrip cd -> serialized_wf r1 -> serialized_wf r2 ->
  (saved cd version r1 = saved cd version' r2 <-> same_serialized r1 r2) /\
  (forall m : Mat T,
     saved cd version (ref_assign reference_projections m r1)
       = saved cd version r1 /\
     saved cd version (ref_assign kpca_components m r1)
       = saved cd version r1).
Proof.
  intros Hcd Hwf1 Hwf2. split; [split|].
  - rewrite !saved_unfold. intros Heq. injection Heq as Heq.
    pose proof (load_saved 0 r1 r1 [] Hcd Hwf1) as Hload1.
    pose proof (load_saved 0 r2 r1 [] Hcd Hwf2) as Hload2.
    rewrite Heq, Hload2 in Hload1. injection Hload1 as Hl Hc Hu Hv He.
    repeat split; congruence.
  - intros (Hl & Hc & Hu & Hv & He). rewrite !saved_unfold.
    rewrite Hl, Hc, Hu, Hv, He. reflexivity.
  - intros m. rewrite !saved_unfold. split; reflexivity.
Qed.

(** X11. Two results written one after the other to one archive are read
    back in that order, each read consuming exactly what one [serialize]
    wrote.  Reading replaces the five serialized fields of the target,
    whatever it held, and leaves its reference projections and
    components as they were. *)
Theorem serialize_sequence (version : nat) (r1 r2 target1 target2 : KpcaResult T) :
  codec_roundtrip cd -> serialized_wf r1 -> serialized_wf r2 ->
  exists out1 out2 rest,
    serialize (archive := oarchive_Archive cd) (mkOarchive []) version r1
      = Ok (out1, r1) /\
    serialize (archive := oarchive_Archive cd) out1 version r2
      = Ok (out2, r2) /\
    serialize (archive := iarchive_Archive cd) (mkIarchive (written out2))
      version target1
      = Ok (rest,
            mkKpcaResult (kpca_projections_l_ r1) (kpca_projections_ r1)
              (kpca_projections_u_ r1) (kernel_eigenvalues_ r1)
              (covariance_eigenvectors_ r1)
              (reference_projections_ target1) (kpca_components_ target1)) /\
    serialize (archive := iarchive_Archive cd) rest version target2
      = Ok (mkIarchive [],
            mkKpcaResult (kpca_projections_l_ r2) (kpca_projections_ r2)
              (kpca_projections_u_ r2) (kernel_eigenvalues_ r2)
              (covariance_eigenvectors_ r2)
              (reference_projections_ target2) (kpca_components_ target2)).
Proof.
  intros Hcd Hwf1 Hwf2.
  eexists _, _, _. split; [apply serialize_save|].
  split; [apply serialize_save|]. cbn [written app].
  split; [apply (load_saved version r1 target1 _ Hcd Hwf1)|].
  rewrite <- (app_nil_r (save_mat cd (kpca_projections_l_ r2) ++ _)).
  apply (load_saved version r2 target2 [] Hcd Hwf2).
Qed.
End SerializeMore.

(** X10, for the populated result and the same result with other
    reference projections, in the dense encoding. *)
Lemma serialize_five_fields_witness :
  let r2 := ref_assign reference_projections (mkMat 1 1 [5%float])
              populated_result in
  saved (wire_codec float) 0 populated_result = saved (wire_codec float) 1 r2
  <-> same_serialized populated_result r2.
Proof.
  intros r2.
  apply (serialize_five_fields (wire_codec float) 0 1 populated_result r2).
  - apply wire_codec_roundtrip.
  - repeat split.
  - repeat split.
Defined.

(** X11, for the populated result followed by a default-constructed one,
    in the dense encoding. *)
Lemma serialize_sequence_witness :
  exists out1 out2 rest,
    serialize (archive := oarchive_Archive (wire_codec float)) (mkOarchive [])
      0 populated_result = Ok (out1, populated_result) /\
    serialize (archive := oarchive_Archive (wire_codec float)) out1
      0 KpcaResult_new = Ok (out2, KpcaResult_new) /\
    serialize (archive := iarchive_Archive (wire_codec float))
      (mkIarchive (written out2)) 0 KpcaResult_new
      = Ok (rest,
            mkKpcaResult (kpca_projections_l_ populated_result)
              (kpca_projections_ populated_result)
              (kpca_projections_u_ populated_result)
              (kernel_eigenvalues_ populated_result)
              (covariance_eigenvectors_ populated_result)
              mat_empty mat_empty) /\
    serialize (archive := iarchive_Archive (wire_codec float)) rest
      0 populated_result
      = Ok (mkIarchive [],
            mkKpcaResult mat_empty mat_empty mat_empty [] mat_empty
              (reference_projections_ populated_result)
              (kpca_components_ populated_result)).
Proof.
  apply (serialize_sequence (wire_codec float) 0 populated_result
           KpcaResult_new KpcaResult_new populated_result).
  - apply wire_codec_roundtrip.
  - repeat split.
  - repeat split.
Defined.

(** ** Init, Export and Print in sequence *)

Lemma foldr_ext_in {A B} (f g : A -> B -> B) (b : B) (l : list A) :
  (forall x y, x ∈ l -> f x y = g x y) -> foldr f b l = foldr g b l.
Proof.
  induction l as [|x l IH]; intros Hext; [reflexivity|].
  cbn [foldr]. rewrite IH.
  - apply Hext, list_elem_of_here.
  - intros x' y Hin. apply Hext, list_elem_of_further, Hin.
Qed.

Section Pipeline.
Context {T : Type} `{Scalar T}.
Variable format_g : T -> string.

(** The text of a matrix whose cells are known. *)
Lemma matrix_text_cells (m : Mat T) (f : nat -> nat -> T) :
  (forall k i, k < n_rows m -> i < n_cols m -> mat_at m k i = Ok (f k i)) ->
  matrix_text format_g m
  = foldr (fun i text =>
             foldr (fun k text => (format_g (f k i) +:+ " ") +:+ text)
               newline (seq 0 (n_rows m)) +:+ text)
      "" (seq 0 (n_cols m)).
Proof.
  intros Hcells. unfold matrix_text, column_text.
  apply foldr_ext_in. intros i text Hi. apply elem_of_seq in Hi. f_equal.
  apply foldr_ext_in. intros k text' Hk. apply elem_of_seq in Hk.
  pose proof (Hcells k i ltac:(lia) ltac:(lia)) as Hx.
  unfold mat_at in Hx. apply checked_Ok_inv in Hx. rewrite Hx. reflexivity.
Qed.

(** X12. [Init], then [Export], then [Print]: with nonnegative [int]
    dimensions [C] and [Q], a container with at least [C] x [Q] entries,
    and two distinct paths that can be opened, the three calls complete
    and the projections file holds, for each of the [Q] query points, one
    line with the [C] values [(mean(k,i) - correctionTerm) *
    multiplicativeConstant], each followed by a space; the components
    file holds the components matrix, which [Init] and [Export] left
    alone. *)
Theorem Init_Export_Print (uninit : nat -> T) (C R Q : Z) (nsd mc corr : T)
    (kernel_sum : MeanVariancePairMatrix T)
    (kpca_components_file_name kpca_projections_file_name : string)
    (r : KpcaResult T) (fs : FileSystem) :
  (0 <= C < 2 ^ 31)%Z -> (0 <= Q < 2 ^ 31)%Z ->
  Z.to_nat C <= mv_n_rows kernel_sum -> Z.to_nat Q <= mv_n_cols kernel_sum ->
  mat_wf (kpca_components_ r) ->
  fs_can_open fs kpca_projections_file_name = true ->
  fs_can_open fs kpca_components_file_name = true ->
  kpca_projections_file_name <> kpca_components_file_name ->
  exists r' fs',
    Export nsd mc corr kernel_sum (Init uninit C R Q r) = Ok r' /\
    Print format_g kpca_components_file_name kpca_projections_file_name r' fs
      = Ok fs' /\
    fs_files fs' !! kpca_projections_file_name
      = Some (center_text format_g mc corr kernel_sum
                (Z.to_nat C) (Z.to_nat Q)) /\
    fs_files fs' !! kpca_components_file_name
      = Some (matrix_text format_g (kpca_components_ r)) /\
    forall other, other <> kpca_projections_file_name ->
      other <> kpca_components_file_name ->
      fs_files fs' !! other = fs_files fs !! other.
Proof.
  intros HC HQ Hrows Hcols Hwfc Hproj Hcomp Hne.
  pose proof (Init_bounds_wf uninit C R Q r) as Hwf.
  assert (Hdims : n_rows (kpca_projections_ (Init uninit C R Q r)) = Z.to_nat C /\
                  n_cols (kpca_projections_ (Init uninit C R Q r)) = Z.to_nat Q).
  { rewrite Init_unfold, !uword_of_int_nonneg by assumption. split; reflexivity. }
  destruct Hdims as [Hr0 Hc0].
  destruct (Export_cells nsd mc corr kernel_sum (Init uninit C R Q r) Hwf)
    as (r' & Hrun & _ & (Hr' & Hc' & Hlen') & _ & _ & _ & _ & Hk & Hcells).
  { intros k i Hk Hi. split; lia. }
  assert (Hwf' : mat_wf (kpca_projections_ r')).
  { destruct Hwf as (_ & Hw & _). unfold mat_wf in *. congruence. }
  assert (Hcomp_same : kpca_components_ r' = kpca_components_ r).
  { rewrite Hk, Init_unfold. reflexivity. }
  destruct (Print_files format_g kpca_components_file_name
              kpca_projections_file_name r' fs Hproj Hcomp Hwf')
    as (fs' & Hprint & _ & Hfc & Hfp & Hother).
  { rewrite Hcomp_same. exact Hwfc. }
  exists r', fs'. split; [exact Hrun|]. split; [exact Hprint|].
  split; [|split; [rewrite Hfc, Hcomp_same; reflexivity|exact Hother]].
  rewrite (Hfp Hne). f_equal.
  rewrite (matrix_text_cells _
             (fun k i => center_of mc corr (mv_entry kernel_sum k i))).
  - rewrite Hr', Hc', Hr0, Hc0. reflexivity.
  - intros k i Hk1 Hi1. apply Hcells; congruence.
Qed.
End Pipeline.

(** X12, at the scenario of the specification, with every value printed
    as ["x"]. *)
Lemma Init_Export_Print_witness :
  let kernel_sum := (two_component_stats 10 4 20 1)%float in
  exists r' fs',
    Export 2%float 1%float 0%float kernel_sum
      (Init (fun _ => nan) 2 3 1 KpcaResult_new) = Ok r' /\
    Print (fun _ => "x") "components.txt" "projections.txt" r' open_fs
      = Ok fs' /\
    fs_files fs' !! "projections.txt"
      = Some (center_text (fun _ => "x") 1%float 0%float kernel_sum 2 1).
Proof.
  intros kernel_sum.
  destruct (Init_Export_Print (fun _ : float => "x") (fun _ => nan) 2 3 1
              2%float 1%float 0%float kernel_sum
              "components.txt" "projections.txt" KpcaResult_new open_fs)
    as (r' & fs' & Hrun & Hprint & Hproj & _).
  - lia.
  - lia.
  - cbn. lia.
  - cbn. lia.
  - reflexivity.
  - reflexivity.
  - reflexivity.
  - discriminate.
  - exists r', fs'. auto.
Defined.

(** ** Sums and differences in binary64 are monotone *)

Section Rounding64Sums.
Local Open Scope Z_scope.

Lemma key_finite_negb (s : bool) (m : positive) (e : Z) :
  key (S754_finite (negb s) m e) = - key (S754_finite s m e).
Proof. destruct s; cbn [key negb]; lia. Qed.

(** A sum or difference of zeros and finite floats is the rounding of the
    exact sum or difference of the keys. *)
Lemma SFadd_key (x d : spec_float) :
  valid_binary x = true -> valid_binary d = true ->
  finite_or_zero x = true -> finite_or_zero d = true ->
  key (SFadd prec emax x d) = RK (-1074) (key x + key d).
Proof.
  intros Hx Hd Fx Fd.
  destruct x as [sx|sx| |sx mx ex]; try discriminate Fx;
    destruct d as [sd|sd| |sd md ed]; try discriminate Fd.
  - destruct sx, sd; reflexivity.
  - cbn [SFadd]. change (key (S754_zero sx)) with 0.
    rewrite Z.add_0_l, RK_key_finite by assumption. reflexivity.
  - cbn [SFadd]. change (key (S754_zero sd)) with 0.
    rewrite Z.add_0_r, RK_key_finite by assumption. reflexivity.
  - apply SFadd_key_finite; assumption.
Qed.

Lemma SFsub_key (x d : spec_float) :
  valid_binary x = true -> valid_binary d = true ->
  finite_or_zero x = true -> finite_or_zero d = true ->
  key (SFsub prec emax x d) = RK (-1074) (key x - key d).
Proof.
  intros Hx Hd Fx Fd.
  destruct x as [sx|sx| |sx mx ex]; try discriminate Fx;
    destruct d as [sd|sd| |sd md ed]; try discriminate Fd.
  - destruct sx, sd; reflexivity.
  - cbn [SFsub]. change (key (S754_zero sx)) with 0.
    rewrite Z.sub_0_l, <- key_finite_negb, RK_key_finite by exact Hd.
    reflexivity.
  - cbn [SFsub]. change (key (S754_zero sd)) with 0.
    rewrite Z.sub_0_r, RK_key_finite by assumption. reflexivity.
  - apply SFsub_key_finite; assumption.
Qed.

Lemma finite_or_zero_key (f : spec_float) :
  valid_binary f = true -> finite_or_zero f = true -> - cap < key f < cap.
Proof.
  intros Hv Hf. pose proof cap_pos.
  destruct f as [s|s| |s m e]; try discriminate Hf; cbn [key]; [lia|].
  apply valid_finite in Hv as [Hc Hb].
  pose proof (finite_key_bounds m e Hc Hb). destruct s; lia.
Qed.

(** The three kinds of a float that is not NaN. *)
Lemma not_nan_cases (f : spec_float) :
  not_nan f ->
  finite_or_zero f = true \/ f = S754_infinity false \/ f = S754_infinity true.
Proof.
  intros Hn. destruct f as [s|s| |s m e].
  - left. reflexivity.
  - destruct s; auto.
  - contradiction Hn. reflexivity.
  - left. reflexivity.
Qed.

(** Addition is monotone in its second operand. *)
Lemma SFadd_mono_r (x d1 d2 : spec_float) :
  valid_binary x = true -> valid_binary d1 = true -> valid_binary d2 = true ->
  not_nan d1 -> not_nan d2 -> key d1 <= key d2 ->
  not_nan (SFadd prec emax x d1) -> not_nan (SFadd prec emax x d2) ->
  key (SFadd prec emax x d1) <= key (SFadd prec emax x d2).
Proof.
  intros Hx H1 H2 N1 N2 Hle R1 R2. pose proof cap_pos as Hcap.
  assert (Nx : not_nan x).
  { intros ->. apply R1. reflexivity. }
  destruct (not_nan_cases x Nx) as [Fx|[-> | ->]].
  - destruct (not_nan_cases d1 N1) as [F1|[-> | ->]];
      destruct (not_nan_cases d2 N2) as [F2|[-> | ->]];
      try pose proof (finite_or_zero_key d1 H1 F1);
      try pose proof (finite_or_zero_key d2 H2 F2);
      cbn [key] in Hle; try lia;
      rewrite ?(SFadd_key x d1), ?(SFadd_key x d2) by assumption.
    + apply RK_mono; lia.
    + pose proof (RK_bounds (-1074) (key x + key d1) ltac:(lia)).
      destruct x; try discriminate Fx; cbn [SFadd key] in *; lia.
    + pose proof (RK_bounds (-1074) (key x + key d2) ltac:(lia)).
      destruct x; try discriminate Fx; cbn [SFadd key] in *; lia.
    + destruct x; try discriminate Fx; cbn [SFadd key] in *; lia.
  - destruct d1 as [s1|s1| |s1 m1 e1], d2 as [s2|s2| |s2 m2 e2];
      try (contradiction N1; reflexivity); try (contradiction N2; reflexivity);
      try destruct s1; try destruct s2; cbn [SFadd Bool.eqb] in *;
      try (contradiction R1; reflexivity); try (contradiction R2; reflexivity);
      cbn [key]; lia.
  - destruct d1 as [s1|s1| |s1 m1 e1], d2 as [s2|s2| |s2 m2 e2];
      try (contradiction N1; reflexivity); try (contradiction N2; reflexivity);
      try destruct s1; try destruct s2; cbn [SFadd Bool.eqb] in *;
      try (contradiction R1; reflexivity); try (contradiction R2; reflexivity);
      cbn [key]; lia.
Qed.

(** Subtraction is antitone in its second operand. *)
Lemma SFsub_antimono_r (x d1 d2 : spec_float) :
  valid_binary x = true -> valid_binary d1 = true -> valid_binary d2 = true ->
  not_nan d1 -> not_nan d2 -> key d1 <= key d2 ->
  not_nan (SFsub prec emax x d1) -> not_nan (SFsub prec emax x d2) ->
  key (SFsub prec emax x d2) <= key (SFsub prec emax x d1).
Proof.
  intros Hx H1 H2 N1 N2 Hle R1 R2. pose proof cap_pos as Hcap.
  assert (Nx : not_nan x).
  { intros ->. apply R1. reflexivity. }
  destruct (not_nan_cases x Nx) as [Fx|[-> | ->]].
  - destruct (not_nan_cases d1 N1) as [F1|[-> | ->]];
      destruct (not_nan_cases d2 N2) as [F2|[-> | ->]];
      try pose proof (finite_or_zero_key d1 H1 F1);
      try pose proof (finite_or_zero_key d2 H2 F2);
      cbn [key] in Hle; try lia;
      rewrite ?(SFsub_key x d1), ?(SFsub_key x d2) by assumption.
    + apply RK_mono; lia.
    + pose proof (RK_bounds (-1074) (key x - key d1) ltac:(lia)).
      destruct x; try discriminate Fx; cbn [SFsub negb key] in *; lia.
    + pose proof (RK_bounds (-1074) (key x - key d2) ltac:(lia)).
      destruct x; try discriminate Fx; cbn [SFsub negb key] in *; lia.
    + destruct x; try discriminate Fx; cbn [SFsub negb key] in *; lia.
  - destruct d1 as [s1|s1| |s1 m1 e1], d2 as [s2|s2| |s2 m2 e2];
      try (contradiction N1; reflexivity); try (contradiction N2; reflexivity);
      try destruct s1; try destruct s2; cbn [SFsub negb Bool.eqb] in *;
      try (contradiction R1; reflexivity); try (contradiction R2; reflexivity);
      cbn [key]; lia.
  - destruct d1 as [s1|s1| |s1 m1 e1], d2 as [s2|s2| |s2 m2 e2];
      try (contradiction N1; reflexivity); try (contradiction N2; reflexivity);
      try destruct s1; try destruct s2; cbn [SFsub negb Bool.eqb] in *;
      try (contradiction R1; reflexivity); try (contradiction R2; reflexivity);
      cbn [key]; lia.
Qed.

(** A square root is NaN or carries no minus sign, whatever its operand. *)
Lemma SFsqrt_sign (v : spec_float) :
  SFsqrt prec emax v = S754_nan \/ nonneg (SFsqrt prec emax v) = true.
Proof.
  destruct v as [s|s| |s m e]; try destruct s; cbn [SFsqrt nonneg]; auto.
  destruct (SFsqrt_core_binary prec emax (Z.pos m) e) as [[mz ez] lz].
  exact (binary_round_aux_sign false mz ez lz).
Qed.
End Rounding64Sums.

(** ** A larger number of standard deviations *)

Section Binary64Nesting.
Local Open Scope float_scope.

Lemma mul_is_number_r (x y : float) : is_number (x * y) -> is_number y.
Proof.
  rewrite !is_number_spec, mul_spec. intros Hxy Hy. apply Hxy.
  rewrite Hy. apply SFmul_nan_r.
Qed.

Lemma leb_is_number (x y : float) :
  (x <=? y) = true -> is_number x /\ is_number y.
Proof.
  rewrite leb_spec, !is_number_spec. apply SFleb_not_nan.
Qed.

Lemma sqrt_nonneg_binary64 (v : float) :
  is_number (sqrt v) -> nonneg (Prim2SF (sqrt v)) = true.
Proof.
  rewrite is_number_spec, sqrt_spec. intros Hn.
  destruct (SFsqrt_sign (Prim2SF v)) as [Hnan|Hs]; [|exact Hs].
  contradiction Hn.
Qed.

(** A larger factor gives a larger product with a square root. *)
Lemma deviation_mono_binary64 (nsd1 nsd2 v : float) :
  (nsd1 <=? nsd2) = true ->
  is_number (nsd1 * sqrt v) -> is_number (nsd2 * sqrt v) ->
  (key (Prim2SF (nsd1 * sqrt v)) <= key (Prim2SF (nsd2 * sqrt v)))%Z.
Proof.
  intros Hle H1 H2. destruct (leb_is_number _ _ Hle) as [N1 N2].
  pose proof (sqrt_nonneg_binary64 v (mul_is_number_r _ _ H1)) as Hs.
  apply (leb_key _ _ N1 N2) in Hle.
  apply is_number_spec in N1, N2, H1, H2. rewrite mul_spec in H1, H2.
  rewrite !mul_spec.
  apply SFmul_mono; try apply Prim2SF_valid; assumption.
Qed.

Lemma sub_antimono_binary64 (x d1 d2 : float) :
  (key (Prim2SF d1) <= key (Prim2SF d2))%Z ->
  is_number (x - d1) -> is_number (x - d2) ->
  (key (Prim2SF (x - d2)) <= key (Prim2SF (x - d1)))%Z.
Proof.
  intros Hle H1 H2.
  pose proof (sub_is_number_r _ _ H1) as N1.
  pose proof (sub_is_number_r _ _ H2) as N2.
  apply is_number_spec in N1, N2, H1, H2. rewrite sub_spec in H1, H2.
  rewrite !sub_spec.
  apply SFsub_antimono_r; try apply Prim2SF_valid; assumption.
Qed.

Lemma add_mono_binary64 (x d1 d2 : float) :
  (key (Prim2SF d1) <= key (Prim2SF d2))%Z ->
  is_number (x + d1) -> is_number (x + d2) ->
  (key (Prim2SF (x + d1)) <= key (Prim2SF (x + d2)))%Z.
Proof.
  intros Hle H1 H2.
  pose proof (add_is_number_r _ _ H1) as N1.
  pose proof (add_is_number_r _ _ H2) as N2.
  apply is_number_spec in N1, N2, H1, H2. rewrite add_spec in H1, H2.
  rewrite !add_spec.
  apply SFadd_mono_r; try apply Prim2SF_valid; assumption.
Qed.

(** One statistic: the bounds for a larger number of standard deviations
    enclose the bounds for a smaller one. *)
Lemma bounds_nested_binary64 (nsd1 nsd2 mc corr : float)
    (p : MeanVariancePair float) :
  (nsd1 <=? nsd2) = true -> (0 <=? mc) = true ->
  le_binary64 (lower_of nsd2 mc corr p) (lower_of nsd1 mc corr p) /\
  le_binary64 (upper_of nsd1 mc corr p) (upper_of nsd2 mc corr p).
Proof.
  intros Hle Hmc. unfold lower_of, upper_of, deviation_of.
  cbn [s_mul s_sub s_add s_sqrt binary64].
  set (x := sample_mean p - corr). set (v := sample_mean_variance p).
  split; intros Hleft Hright.
  - apply mul_le_binary64; [exact Hmc| |exact Hleft|exact Hright].
    pose proof (mul_is_number_l _ _ Hleft) as H2.
    pose proof (mul_is_number_l _ _ Hright) as H1.
    apply sub_antimono_binary64; [|exact H1|exact H2].
    apply deviation_mono_binary64;
      [exact Hle|exact (sub_is_number_r _ _ H1)|exact (sub_is_number_r _ _ H2)].
  - apply mul_le_binary64; [exact Hmc| |exact Hleft|exact Hright].
    pose proof (mul_is_number_l _ _ Hleft) as H1.
    pose proof (mul_is_number_l _ _ Hright) as H2.
    apply add_mono_binary64; [|exact H1|exact H2].
    apply deviation_mono_binary64;
      [exact Hle|exact (add_is_number_r _ _ H1)|exact (add_is_number_r _ _ H2)].
Qed.

(** X13. On binary64, with [multiplicativeConstant >= 0]: [Export] with a
    larger [numStandardDeviations], everything else the same, stores the
    same centers, lower bounds that are not larger and upper bounds that
    are not smaller, at every component and query point where the two
    values compared are numbers.  No condition on the variances. *)
Theorem Export_wider_interval (nsd1 nsd2 mult_const correction_term_in : float)
    (kernel_sum : MeanVariancePairMatrix float) (r : KpcaResult float) :
  bounds_wf r -> covers kernel_sum r ->
  (nsd1 <=? nsd2) = true -> (0 <=? mult_const) = true ->
  exists r1 r2,
    Export nsd1 mult_const correction_term_in kernel_sum r = Ok r1 /\
    Export nsd2 mult_const correction_term_in kernel_sum r = Ok r2 /\
    kpca_projections_ r1 = kpca_projections_ r2 /\
    forall k i, (k < n_rows (kpca_projections_ r))%nat ->
      (i < n_cols (kpca_projections_ r))%nat ->
      exists lower1 upper1 lower2 upper2,
        mat_at (kpca_projections_l_ r1) k i = Ok lower1 /\
        mat_at (kpca_projections_u_ r1) k i = Ok upper1 /\
        mat_at (kpca_projections_l_ r2) k i = Ok lower2 /\
        mat_at (kpca_projections_u_ r2) k i = Ok upper2 /\
        le_binary64 lower2 lower1 /\ le_binary64 upper1 upper2.
Proof.
  intros Hwf Hcov Hle Hmc.
  destruct (Export_cells nsd1 mult_const correction_term_in kernel_sum r Hwf Hcov)
    as (r1 & Hrun1 & Hl1 & Hc1 & Hu1 & _ & _ & _ & _ & Hcells1).
  destruct (Export_cells nsd2 mult_const correction_term_in kernel_sum r Hwf Hcov)
    as (r2 & Hrun2 & Hl2 & Hc2 & Hu2 & _ & _ & _ & _ & Hcells2).
  exists r1, r2. split; [exact Hrun1|]. split; [exact Hrun2|]. split.
  - destruct Hwf as (_ & Hwc & _).
    destruct Hc1 as (Hr1 & Hcc1 & Hm1), Hc2 as (Hr2 & Hcc2 & Hm2).
    apply (mat_eq_at _ _
             (fun k i => center_of mult_const correction_term_in
                           (mv_entry kernel_sum k i))).
    + unfold mat_wf in *. congruence.
    + unfold mat_wf in *. congruence.
    + split; congruence.
    + intros k i Hk Hi. split.
      * apply Hcells1; congruence.
      * apply Hcells2; congruence.
  - intros k i Hk Hi.
    destruct (Hcells1 k i Hk Hi) as (Hcl1 & _ & Hcu1).
    destruct (Hcells2 k i Hk Hi) as (Hcl2 & _ & Hcu2).
    do 4 eexists. do 4 (split; [eassumption|]).
    apply bounds_nested_binary64; assumption.
Qed.
End Binary64Nesting.

(** X13, at the scenario of the specification, with one and with two
    standard deviations. *)
Lemma Export_wider_interval_witness :
  let r := Init (fun _ => nan) 2 3 1 KpcaResult_new in
  let kernel_sum := (two_component_stats 10 4 20 1)%float in
  exists r1 r2,
    Export 1%float 1%float 0%float kernel_sum r = Ok r1 /\
    Export 2%float 1%float 0%float kernel_sum r = Ok r2 /\
    kpca_projections_ r1 = kpca_projections_ r2 /\
    forall k i, k < n_rows (kpca_projections_ r) ->
      i < n_cols (kpca_projections_ r) ->
      exists lower1 upper1 lower2 upper2,
        mat_at (kpca_projections_l_ r1) k i = Ok lower1 /\
        mat_at (kpca_projections_u_ r1) k i = Ok upper1 /\
        mat_at (kpca_projections_l_ r2) k i = Ok lower2 /\
        mat_at (kpca_projections_u_ r2) k i = Ok upper2 /\
        le_binary64 lower2 lower1 /\ le_binary64 upper1 upper2.
Proof.
  intros r kernel_sum.
  apply (Export_wider_interval 1%float 2%float 1%float 0%float kernel_sum r).
  - apply Init_bounds_wf.
  - apply two_component_covers.
  - reflexivity.
  - reflexivity.
Defined.



(** ** The decision stump program *)

Section RunProps.

Lemma run_bind_Returns {A B} (m : run A) (f : A -> run B) (events events' : list event)
    (a : A) :
  m events = (Returns a, events') -> (m ≫= f) events = f a events'.
Proof. intros Hm. unfold mbind, run_bind. rewrite Hm. reflexivity. Qed.

Lemma run_bind_Fatal {A B} (m : run A) (f : A -> run B) (events events' : list event)
    (message : string) :
  m events = (Fatal message, events') ->
  (m ≫= f) events = (Fatal message, events').
Proof. intros Hm. unfold mbind, run_bind. rewrite Hm. reflexivity. Qed.

Lemma run_bind_Returns_inv {A B} (m : run A) (f : A -> run B)
    (events events' : list event) (b : B) :
  (m ≫= f) events = (Returns b, events') ->
  exists a events1, m events = (Returns a, events1) /\
                    f a events1 = (Returns b, events').
Proof.
  unfold mbind, run_bind. destruct (m events) as [[a|message|] events1];
    intros Heq; try discriminate. eauto.
Qed.

Lemma run_bind_Fatal_inv {A B} (m : run A) (f : A -> run B)
    (events events' : list event) (message : string) :
  (m ≫= f) events = (Fatal message, events') ->
  m events = (Fatal message, events') \/
  exists a events1, m events = (Returns a, events1) /\
                    f a events1 = (Fatal message, events').
Proof.
  unfold mbind, run_bind. destruct (m events) as [[a|message'|] events1];
    intros Heq; try discriminate; [right; eauto|left; congruence].
Qed.

Lemma call_no_fatal {A} (result : option A) (events events' : list event)
    (message : string) :
  call result events <> (Fatal message, events').
Proof. destruct result; discriminate. Qed.

Lemma emit_no_fatal (e : event) (events events' : list event) (message : string) :
  emit e events <> (Fatal message, events').
Proof. discriminate. Qed.

Lemma mret_no_fatal {A} (a : A) (events events' : list event) (message : string) :
  (mret a : run A) events <> (Fatal message, events').
Proof. discriminate. Qed.
End RunProps.

Section MainProps.
Context {T : Type} (lib : StumpLibrary T).
Implicit Types (cli : Params lib) (model : DSModel lib) (events : list event).

(** Training and loading never end in [Log::Fatal]. *)
Lemma obtain_model_no_fatal cli events events' (message : string) :
  obtain_model lib cli events <> (Fatal message, events').
Proof.
  unfold obtain_model. intros Hrun.
  destruct (param_training cli) as [trainingData|];
    [|exact (call_no_fatal _ _ _ _ Hrun)].
  repeat match type of Hrun with
         | (_ ≫= _) _ = (Fatal _, _) =>
             apply run_bind_Fatal_inv in Hrun as [Hrun|(? & ? & _ & Hrun)]
         | call _ _ = (Fatal _, _) => exact (call_no_fatal _ _ _ _ Hrun)
         | emit _ _ = (Fatal _, _) => exact (emit_no_fatal _ _ _ _ Hrun)
         | mret _ _ = (Fatal _, _) => exact (mret_no_fatal _ _ _ _ Hrun)
         | match param_labels cli with _ => _ end _ = _ =>
             destruct (param_labels cli)
         end.
Qed.

(** The only fatal ending of the classification step. *)
Lemma classify_test_fatal cli model events events' (message : string) :
  classify_test lib cli model events = (Fatal message, events') ->
  exists testingData,
    param_test cli = Some testingData /\
    n_rows testingData <= SplitDimension lib (stump model) /\
    message = too_few_dimensions lib (n_rows testingData)
                (SplitDimension lib (stump model)) /\
    events' = events.
Proof.
  unfold classify_test. intros Hrun.
  destruct (param_test cli) as [testingData|];
    [|destruct (mret_no_fatal _ _ _ _ Hrun)].
  exists testingData. split; [reflexivity|].
  apply run_bind_Fatal_inv in Hrun as [Hrun|(? & ? & _ & Hrun)].
  - unfold when in Hrun.
    destruct (n_rows testingData <=? SplitDimension lib (stump model)) eqn:Hle;
      [|destruct (mret_no_fatal _ _ _ _ Hrun)].
    apply Nat.leb_le in Hle. injection Hrun as <- <-. auto.
  - exfalso.
    repeat match type of Hrun with
           | (_ ≫= _) _ = (Fatal _, _) =>
               apply run_bind_Fatal_inv in Hrun as [Hrun|(? & ? & _ & Hrun)]
           | call _ _ = (Fatal _, _) => exact (call_no_fatal _ _ _ _ Hrun)
           | emit _ _ = (Fatal _, _) => exact (emit_no_fatal _ _ _ _ Hrun)
           | mret _ _ = (Fatal _, _) => exact (mret_no_fatal _ _ _ _ Hrun)
           | (if has_predictions cli then _ else _) _ = _ =>
               destruct (has_predictions cli)
           end.
Qed.

Lemma too_few_dimensions_other (n d : nat) :
  too_few_dimensions lib n d <> both_given /\
  too_few_dimensions lib n d <> neither_given.
Proof. split; discriminate. Qed.

(** After the two checks of the model source, a fatal ending can only
    come from the check of the test data. *)
Ltac past_checks :=
  intros Hrun;
  repeat match type of Hrun with
         | (_ ≫= _) _ = (Fatal _, _) =>
             apply run_bind_Fatal_inv in Hrun as [Hrun|(? & ? & _ & Hrun)]
         end;
  first [ destruct (mret_no_fatal _ _ _ _ Hrun)
        | destruct (obtain_model_no_fatal _ _ _ _ Hrun)
        | apply classify_test_fatal in Hrun as (? & _ & _ & -> & _); eauto
        | match type of Hrun with
          | when ?c _ _ = _ => destruct c; discriminate Hrun
          end ].

(** X14. [mlpackMain] ends in the fatal error "Both ... are specified"
    exactly when [training] and [input_model] are both passed, and in
    "Neither ... are given" exactly when neither is; in both cases it
    ends before anything is logged, trained, loaded or classified. *)
Theorem mlpackMain_model_source cli events :
  (is_Some (param_training cli) /\ is_Some (param_input_model cli) <->
   exists events', mlpackMain lib cli events = (Fatal both_given, events')) /\
  (param_training cli = None /\ param_input_model cli = None <->
   exists events', mlpackMain lib cli events = (Fatal neither_given, events')) /\
  (forall message events',
     message = both_given \/ message = neither_given ->
     mlpackMain lib cli events = (Fatal message, events') -> events' = events).
Proof.
  assert (Hinv : forall message events',
            mlpackMain lib cli events = (Fatal message, events') ->
            (message = both_given /\ events' = events /\
             is_Some (param_training cli) /\ is_Some (param_input_model cli)) \/
            (message = neither_given /\ events' = events /\
             param_training cli = None /\ param_input_model cli = None) \/
            exists n d, message = too_few_dimensions lib n d).
  { intros message events' Hrun. unfold mlpackMain in Hrun.
    destruct (param_training cli) as [trainingData|] eqn:Htr;
      destruct (param_input_model cli) as [model0|] eqn:Hin;
      cbn [when bool_decide andb negb] in Hrun.
    - rewrite !bool_decide_true in Hrun by eauto. cbn in Hrun.
      injection Hrun as <- <-. left. eauto 6.
    - rewrite bool_decide_true, bool_decide_false in Hrun
        by (eauto || apply is_Some_None).
      right. right. cbn [andb negb when] in Hrun. revert Hrun. past_checks.
    - rewrite bool_decide_false, bool_decide_true in Hrun
        by (eauto || apply is_Some_None).
      right. right. cbn [andb negb when] in Hrun. revert Hrun. past_checks.
    - rewrite !bool_decide_false in Hrun by apply is_Some_None.
      cbn in Hrun. injection Hrun as <- <-. right. left. auto. }
  split; [|split].
  - split.
    + intros [[trainingData Htr] [model0 Hin]]. exists events.
      unfold mlpackMain. rewrite Htr, Hin.
      rewrite !bool_decide_true by eauto. reflexivity.
    + intros [events' Hrun].
      destruct (Hinv _ _ Hrun) as [(_ & _ & ? & ?)|[(Hm & _)|(n & d & Hm)]];
        [auto|discriminate Hm|].
      destruct (too_few_dimensions_other n d) as [Hne _]. congruence.
  - split.
    + intros [Htr Hin]. exists events.
      unfold mlpackMain. rewrite Htr, Hin.
      rewrite !bool_decide_false by apply is_Some_None. reflexivity.
    + intros [events' Hrun].
      destruct (Hinv _ _ Hrun) as [(Hm & _)|[(_ & _ & ? & ?)|(n & d & Hm)]];
        [discriminate Hm|auto|].
      destruct (too_few_dimensions_other n d) as [_ Hne]. congruence.
  - intros message events' Hmsg Hrun.
    destruct (Hinv _ _ Hrun) as [(_ & ? & _)|[(_ & ? & _)|(n & d & Hm)]];
      [assumption..|].
    destruct (too_few_dimensions_other n d) as [Hne1 Hne2].
    destruct Hmsg; congruence.
Qed.

Lemma when_Returns_inv (condition : bool) (action : run unit)
    events events' (u : unit) :
  when condition action events = (Returns u, events') ->
  (condition = false /\ events' = events) \/
  (condition = true /\ action events = (Returns u, events')).
Proof.
  unfold when. destruct condition; intros Hrun; [right; auto|left].
  injection Hrun as <- <-. auto.
Qed.

(** A run that returned got past the two checks of the model source and
    obtained a model; what it returned is the result of the
    classification step and, if asked for, that model. *)
Lemma mlpackMain_Returns_inv cli events events' (out : Outputs lib) :
  mlpackMain lib cli events = (Returns out, events') ->
  (is_Some (param_training cli) <-> param_input_model cli = None) /\
  exists model events0 events1,
    obtain_model lib cli events0 = (Returns model, events1) /\
    classify_test lib cli model events1 = (Returns (predictions out), events') /\
    output_model out = (if has_output_model cli then Some model else None).
Proof.
  unfold mlpackMain. intros Hrun.
  apply run_bind_Returns_inv in Hrun as ([] & ev1 & Hboth & Hrun).
  apply run_bind_Returns_inv in Hrun as ([] & ev2 & Hneither & Hrun).
  apply run_bind_Returns_inv in Hrun as ([] & ev3 & _ & Hrun).
  apply run_bind_Returns_inv in Hrun as (model & ev4 & Hmodel & Hrun).
  apply run_bind_Returns_inv in Hrun as (predicted & ev5 & Hclass & Hrun).
  injection Hrun as <- <-. split.
  - apply when_Returns_inv in Hboth as [[Hboth _]|[_ Hboth]]; [|discriminate].
    apply when_Returns_inv in Hneither as [[Hneither _]|[_ Hneither]];
      [|discriminate].
    destruct (param_training cli), (param_input_model cli).
    + rewrite !bool_decide_true in Hboth by eauto. discriminate.
    + split; eauto.
    + split; [intros [? ?]|]; discriminate.
    + rewrite !bool_decide_false in Hneither by apply is_Some_None. discriminate.
  - exists model, ev3, ev4. auto.
Qed.

Lemma call_Returns_inv {A} (result : option A) events events' (a : A) :
  call result events = (Returns a, events') -> result = Some a /\ events' = events.
Proof. destruct result; intros Heq; [|discriminate]. injection Heq as -> ->. auto. Qed.

(** The classification step assigns predictions exactly when there is a
    test set and predictions were asked for. *)
Lemma classify_test_Returns_inv cli model events events'
    (predicted : option (list nat)) :
  classify_test lib cli model events = (Returns predicted, events') ->
  (is_Some predicted <-> is_Some (param_test cli) /\ has_predictions cli = true) /\
  forall testingData, param_test cli = Some testingData ->
    SplitDimension lib (stump model) < n_rows testingData /\
    exists predictedLabels,
      Classify lib (stump model) testingData = Some predictedLabels /\
      (has_predictions cli = true ->
       exists actualLabels,
         RevertLabels lib predictedLabels (mappings model) = Some actualLabels /\
         predicted = Some actualLabels).
Proof.
  unfold classify_test. intros Hrun.
  destruct (param_test cli) as [testingData|].
  - apply run_bind_Returns_inv in Hrun as ([] & ev1 & Hdim & Hrun).
    apply run_bind_Returns_inv in Hrun as ([] & ev2 & _ & Hrun).
    apply run_bind_Returns_inv in Hrun as (predictedLabels & ev3 & Hcls & Hrun).
    apply run_bind_Returns_inv in Hrun as ([] & ev4 & _ & Hrun).
    apply call_Returns_inv in Hcls as [Hcls _].
    apply when_Returns_inv in Hdim as [[Hdim _]|[_ Hdim]]; [|discriminate].
    apply Nat.leb_gt in Hdim.
    destruct (has_predictions cli).
    + apply run_bind_Returns_inv in Hrun as (actualLabels & ev5 & Hrev & Hrun).
      apply call_Returns_inv in Hrev as [Hrev _]. injection Hrun as <- <-.
      split; [split; eauto|].
      intros d Hd. injection Hd as <-. split; [exact Hdim|]. eauto.
    + injection Hrun as <- <-. split.
      * split; [intros [? ?]; discriminate|intros [_ ?]; discriminate].
      * intros d Hd. injection Hd as <-. split; [exact Hdim|].
        exists predictedLabels. split; [exact Hcls|discriminate].
  - injection Hrun as <- <-. split.
    + split; [intros [? ?]; discriminate|intros [[? ?] _]; discriminate].
    + discriminate.
Qed.

(** X15. A run of [mlpackMain] that returns had exactly one of
    [training] and [input_model]; it assigned [predictions] exactly when
    both [test] and [predictions] were passed (asking for predictions
    without a test set yields none, and no error), and [output_model]
    exactly when it was asked for; a model that was loaded is passed on
    unchanged; and a test set that was passed has more rows than the
    split dimension of the model. *)
Theorem mlpackMain_outputs cli events events' (out : Outputs lib) :
  mlpackMain lib cli events = (Returns out, events') ->
  (is_Some (param_training cli) <-> param_input_model cli = None) /\
  (is_Some (predictions out) <->
   is_Some (param_test cli) /\ has_predictions cli = true) /\
  (is_Some (output_model out) <-> has_output_model cli = true) /\
  (forall loaded saved, param_input_model cli = Some loaded ->
     output_model out = Some saved -> saved = loaded) /\
  (forall testingData loaded, param_test cli = Some testingData ->
     param_input_model cli = Some loaded ->
     SplitDimension lib (stump loaded) < n_rows testingData).
Proof.
  intros Hrun.
  apply mlpackMain_Returns_inv in Hrun
    as (Hone & model & ev0 & ev1 & Hmodel & Hclass & Hout).
  apply classify_test_Returns_inv in Hclass as [Hpred Htest].
  assert (Hloaded : forall loaded, param_input_model cli = Some loaded ->
                                   model = loaded).
  { intros loaded Hin. unfold obtain_model in Hmodel.
    destruct (param_training cli) as [trainingData|].
    - destruct Hone as [Hone _]. rewrite Hone in Hin by eauto. discriminate.
    - apply call_Returns_inv in Hmodel as [Hmodel _]. congruence. }
  split; [exact Hone|]. split; [exact Hpred|]. split; [|split].
  - rewrite Hout. destruct (has_output_model cli); split; eauto;
      try discriminate. intros [? ?]. discriminate.
  - intros loaded saved Hin Hsaved. rewrite Hout in Hsaved.
    destruct (has_output_model cli); [|discriminate].
    injection Hsaved as <-. apply Hloaded, Hin.
  - intros testingData loaded Htd Hin.
    rewrite <- (Hloaded loaded Hin). apply (Htest testingData Htd).
Qed.

(** X16. With a loaded model: [mlpackMain] ends in a fatal error exactly
    when a test set is passed that has no more rows than the split
    dimension of the stump; the message names both numbers.  The check
    comes before the classification and before [output_model] is
    assigned, so nothing is stored in that case. *)
Theorem mlpackMain_test_dimensionality cli events (loaded : DSModel lib) :
  param_training cli = None -> param_input_model cli = Some loaded ->
  ((exists testingData,
      param_test cli = Some testingData /\
      n_rows testingData <= SplitDimension lib (stump loaded)) <->
   exists message events', mlpackMain lib cli events = (Fatal message, events')) /\
  (forall message events',
     mlpackMain lib cli events = (Fatal message, events') ->
     exists testingData,
       param_test cli = Some testingData /\
       message = too_few_dimensions lib (n_rows testingData)
                   (SplitDimension lib (stump loaded)) /\
       Forall (fun e => e <> TimerStart "testing") (drop (length events) events')).
Proof.
  intros Htr Hin.
  assert (Hstart : forall ev0,
            mlpackMain lib cli ev0
            = (classify_test lib cli loaded
                 ≫= λ predicted,
                      mret (mkOutputs predicted
                              (if has_output_model cli then Some loaded else None)))
                (if negb (has_output_model cli) && negb (has_predictions cli)
                 then ev0 ++ [Warn no_output] else ev0)).
  { intros ev0. unfold mlpackMain, obtain_model. rewrite Htr, Hin.
    rewrite bool_decide_false, bool_decide_true by (eauto || apply is_Some_None).
    cbn [andb negb when].
    destruct (negb (has_output_model cli) && negb (has_predictions cli));
      reflexivity. }
  assert (Hinv : forall message events',
            mlpackMain lib cli events = (Fatal message, events') ->
            exists testingData,
              param_test cli = Some testingData /\
              n_rows testingData <= SplitDimension lib (stump loaded) /\
              message = too_few_dimensions lib (n_rows testingData)
                          (SplitDimension lib (stump loaded)) /\
              events' = (if negb (has_output_model cli) && negb (has_predictions cli)
                         then events ++ [Warn no_output] else events)).
  { intros message events' Hrun. rewrite Hstart in Hrun.
    apply run_bind_Fatal_inv in Hrun as [Hrun|(? & ? & _ & Hrun)];
      [|destruct (mret_no_fatal _ _ _ _ Hrun)].
    apply classify_test_fatal in Hrun as (d & Hd & Hle & -> & ->). eauto. }
  split; [split|].
  - intros (testingData & Htd & Hle). rewrite Hstart. eexists _, _.
    apply run_bind_Fatal. unfold classify_test. rewrite Htd.
    apply run_bind_Fatal. unfold when.
    rewrite (proj2 (Nat.leb_le _ _) Hle). reflexivity.
  - intros (message & events' & Hrun).
    destruct (Hinv _ _ Hrun) as (d & Hd & Hle & _). eauto.
  - intros message events' Hrun.
    destruct (Hinv _ _ Hrun) as (d & Hd & _ & -> & ->).
    exists d. split; [exact Hd|]. split; [reflexivity|].
    destruct (negb (has_output_model cli) && negb (has_predictions cli)).
    + rewrite drop_app_length. repeat constructor. discriminate.
    + rewrite drop_all. constructor.
Qed.
End MainProps.

(** X15, for a loaded stump and a test set of two rows and three
    columns, with both outputs asked for. *)
Lemma mlpackMain_outputs_witness :
  let cli := load_and_test (mkMat 2 3 [1; 2; 3; 4; 5; 6]) true true in
  mlpackMain toy_library cli []
    = (Returns (mkOutputs (Some [0; 0; 0]) (Some toy_model)),
       [TimerStart "testing"; TimerStop "testing"]) /\
  (is_Some (Some [0; 0; 0]) <->
   is_Some (param_test cli) /\ has_predictions cli = true).
Proof.
  intros cli.
  assert (Hrun : mlpackMain toy_library cli []
                 = (Returns (mkOutputs (Some [0; 0; 0]) (Some toy_model)),
                    [TimerStart "testing"; TimerStop "testing"]))
    by reflexivity.
  split; [exact Hrun|].
  exact (proj1 (proj2 (mlpackMain_outputs toy_library cli [] _ _ Hrun))).
Defined.

(** X16, for the same stump and a test set of one row. *)
Lemma mlpackMain_test_dimensionality_witness :
  let cli := load_and_test (mkMat 1 2 [1; 2]) true true in
  exists message events',
    mlpackMain toy_library cli [] = (Fatal message, events').
Proof.
  intros cli.
  apply (proj1 (mlpackMain_test_dimensionality toy_library cli [] toy_model
                  eq_refl eq_refl)).
  eexists. split; [reflexivity|]. cbn. lia.
Defined.

Section MainCompose.
Context {T : Type} (lib : StumpLibrary T).
Implicit Types (cli : Params lib) (model : DSModel lib) (events : list event).

(** The model [obtain_model] returns depends on the training set, the
    labels, the bucket size and the model that was passed, and on nothing
    else: not on the other parameters, not on what was logged before. *)
Lemma obtain_model_value cli cli' events events' events1 model :
  param_training cli' = param_training cli ->
  param_labels cli' = param_labels cli ->
  param_input_model cli' = param_input_model cli ->
  param_bucket_size cli' = param_bucket_size cli ->
  obtain_model lib cli events = (Returns model, events1) ->
  exists events1', obtain_model lib cli' events' = (Returns model, events1').
Proof.
  intros Htr Hlb Hin Hbs. unfold obtain_model. rewrite Htr, Hlb, Hin, Hbs.
  destruct (param_training cli) as [trainingData|].
  - unfold mbind, run_bind, mret, run_ret, call, emit.
    destruct (param_labels cli) as [labelsIn|]; cbn [fst snd].
    + destruct (NormalizeLabels lib labelsIn) as [normalized|]; [|discriminate].
      destruct (labels_max lib normalized.1) as [largest|]; [|discriminate].
      destruct (Train lib _ _ _ _ _) as [trained|]; [|discriminate].
      intros Heq. injection Heq as <- _. eauto.
    + destruct (row_as_labels lib _ _) as [labelsIn|]; [|discriminate].
      destruct (shed_row lib _ _) as [shed|]; [|discriminate]. cbn [fst snd].
      destruct (NormalizeLabels lib labelsIn) as [normalized|]; [|discriminate].
      destruct (labels_max lib normalized.1) as [largest|]; [|discriminate].
      destruct (Train lib _ _ _ _ _) as [trained|]; [|discriminate].
      intros Heq. injection Heq as <- _. eauto.
  - unfold call. destruct (param_input_model cli); [|discriminate].
    intros Heq. injection Heq as <- _. eauto.
Qed.

(** X17. Training and testing in one run, or training in one run,
    passing the model on through [output_model] and [input_model], and
    testing in a second run: the predictions are the same, because the
    label mappings travel with the stump. *)
Theorem mlpackMain_model_passed_on
    (trainingData testingData : Mat T) (labelsIn labelsIgnored : option (list nat))
    (bucket_size bucket_size' : Z) (predictions1 output_model2 output_model3 : bool)
    events1 events2 events3 events1' events2' events3'
    (out1 out2 out3 : Outputs lib) (trained : DSModel lib) :
  mlpackMain lib
    (mkParams (Some trainingData) labelsIn None None bucket_size
       predictions1 true) events1 = (Returns out1, events1') ->
  output_model out1 = Some trained ->
  mlpackMain lib
    (mkParams None labelsIgnored (Some testingData) (Some trained) bucket_size'
       true output_model2) events2 = (Returns out2, events2') ->
  mlpackMain lib
    (mkParams (Some trainingData) labelsIn (Some testingData) None bucket_size
       true output_model3) events3 = (Returns out3, events3') ->
  predictions out2 = predictions out3 /\
  (output_model3 = true -> output_model out3 = Some trained).
Proof.
  intros Hrun1 Htrained Hrun2 Hrun3.
  apply mlpackMain_Returns_inv in Hrun1
    as (_ & m1 & ev10 & ev11 & Hm1 & _ & Hout1).
  apply mlpackMain_Returns_inv in Hrun2
    as (_ & m2 & ev20 & ev21 & Hm2 & Hc2 & _).
  apply mlpackMain_Returns_inv in Hrun3
    as (_ & m3 & ev30 & ev31 & Hm3 & Hc3 & Hout3).
  cbn [has_output_model] in Hout1, Hout3.
  assert (m1 = trained) as -> by congruence.
  assert (m2 = trained) as ->.
  { unfold obtain_model in Hm2. cbn [param_training param_input_model] in Hm2.
    apply call_Returns_inv in Hm2 as [Hm2 _]. congruence. }
  assert (m3 = trained) as ->.
  { destruct (obtain_model_value _
                (mkParams (Some trainingData) labelsIn (Some testingData) None
                   bucket_size true output_model3)
                ev10 ev30 ev11 trained eq_refl eq_refl eq_refl eq_refl Hm1)
      as (ev & Hm3').
    congruence. }
  split.
  - apply classify_test_Returns_inv in Hc2 as [_ Hc2], Hc3 as [_ Hc3].
    destruct (Hc2 testingData eq_refl) as (_ & pl2 & Hcl2 & Hrev2).
    destruct (Hc3 testingData eq_refl) as (_ & pl3 & Hcl3 & Hrev3).
    destruct (Hrev2 eq_refl) as (al2 & Hal2 & ->).
    destruct (Hrev3 eq_refl) as (al3 & Hal3 & ->).
    congruence.
  - intros ->. exact Hout3.
Qed.
End MainCompose.

(** X17, with the stand-in library: three training points with labels
    [0, 1, 0], two test points. *)
Lemma mlpackMain_model_passed_on_witness :
  let trainingData := mkMat 1 3 [1; 2; 3] in
  let testingData := mkMat 1 2 [4; 5] in
  let trained := mkDSModel (lib := toy_library) [] (0 : nat) in
  exists out2 out3 events2 events3,
    mlpackMain toy_library
      (mkParams None None (Some testingData) (Some trained) 6 true false) []
      = (Returns out2, events2) /\
    mlpackMain toy_library
      (mkParams (Some trainingData) (Some [0; 1; 0]) (Some testingData) None 6
         true false) []
      = (Returns out3, events3) /\
    predictions out2 = predictions out3.
Proof.
  intros trainingData testingData trained.
  eexists _, _, _, _. split; [reflexivity|]. split; [reflexivity|].
  refine (proj1 (mlpackMain_model_passed_on toy_library trainingData testingData
                   (Some [0; 1; 0]) None 6 6 false false false [] [] []
                   _ _ _ _ _ _ trained _ _ _ _)); reflexivity.
Defined.

(** ** DSModel::serialize *)

Section ModelSerialize.
Context {I T : Type} {lib : StumpLibrary T}.
Variable cd : ModelCodec I lib.

(** X18. [DSModel::serialize] writes the label mappings, then the stump,
    and nothing else; reading the archive back into any model restores
    both members and consumes exactly what was written, so that a model
    saved by one run is the model a later run loads. *)
Theorem DSModel_serialize_roundtrip (version version' : nat)
    (model target : DSModel lib) (rest : list I) :
  model_codec_roundtrip cd ->
  exists out,
    DSModel_serialize (archive := oarchive_ModelArchive cd) (mkOarchive [])
      version model = Ok (out, model) /\
    written out
      = save_mappings cd "mappings" (mappings model)
          ++ save_stump cd "stump" (stump model) /\
    DSModel_serialize (archive := iarchive_ModelArchive cd)
      (mkIarchive (written out ++ rest)) version' target
      = Ok (mkIarchive rest, model).
Proof.
  intros [Hmap Hstump]. eexists. split; [|split].
  - unfold DSModel_serialize. cbn. destruct model; reflexivity.
  - reflexivity.
  - unfold DSModel_serialize. cbn [ar_mappings ar_stump iarchive_ModelArchive
      pending written app].
    rewrite <- app_assoc, Hmap, bind_Ok. cbn [fst snd pending].
    rewrite Hstump, bind_Ok. cbn [fst snd]. destruct model; reflexivity.
Qed.
End ModelSerialize.

Lemma read_numbers_fmap (v : list nat) (rest : list model_item) :
  read_numbers (length v) ((MNumber <$> v) ++ rest) = Some (v, rest).
Proof.
  induction v as [|x v IH]; [reflexivity|].
  cbn. rewrite IH. reflexivity.
Qed.

Lemma toy_codec_roundtrip : model_codec_roundtrip toy_codec.
Proof.
  split.
  - intros name v rest. cbn. rewrite decide_True by reflexivity.
    apply read_numbers_fmap.
  - intros name s rest. cbn. rewrite decide_True by reflexivity. reflexivity.
Qed.

(** X18, for the stand-in model. *)
Lemma DSModel_serialize_roundtrip_witness :
  exists out,
    DSModel_serialize (archive := oarchive_ModelArchive toy_codec)
      (mkOarchive []) 0 toy_model = Ok (out, toy_model) /\
    written out
      = [MName "mappings"; MNumber 2; MNumber 7; MNumber 9;
         MName "stump"; MNumber 1] /\
    DSModel_serialize (archive := iarchive_ModelArchive toy_codec)
      (mkIarchive (written out ++ [])) 0
      (mkDSModel (lib := toy_library) [] (0 : nat))
      = Ok (mkIarchive [], toy_model).
Proof.
  exact (DSModel_serialize_roundtrip toy_codec 0 0 toy_model
           (mkDSModel (lib := toy_library) [] (0 : nat)) []
           toy_codec_roundtrip).
Defined.

(** ** How a run ends does not depend on the log *)

Section Endings.

(** Two sequences end the same way when their first parts do and their
    continuations do, whatever has been logged. *)
Lemma run_bind_ending {A B} (m m' : run A) (f f' : A -> run B)
    (events events' : list event) :
  (m events).1 = (m' events').1 ->
  (forall a events1 events1', (f a events1).1 = (f' a events1').1) ->
  ((m ≫= f) events).1 = ((m' ≫= f') events').1.
Proof.
  intros Hm Hf. unfold mbind, run_bind.
  destruct (m events) as [e1 l1], (m' events') as [e2 l2]. cbn [fst] in Hm.
  subst e2. destruct e1; [apply Hf|reflexivity..].
Qed.

Lemma when_ending (condition : bool) (action : run unit)
    (events events' : list event) :
  (action events).1 = (action events').1 ->
  (when condition action events).1 = (when condition action events').1.
Proof. intros Haction. destruct condition; [exact Haction|reflexivity]. Qed.

Lemma call_ending {A} (result : option A) (events events' : list event) :
  (call result events).1 = (call result events').1.
Proof. destruct result; reflexivity. Qed.
End Endings.

Section MainLabels.
Context {T : Type} (lib : StumpLibrary T).
Implicit Types (cli : Params lib) (model : DSModel lib) (events : list event).

(** The classification step reads the test set and whether predictions
    were asked for, and nothing else of the parameters or of the log. *)
Lemma classify_test_ending cli cli' model events events' :
  param_test cli' = param_test cli ->
  has_predictions cli' = has_predictions cli ->
  (classify_test lib cli model events).1
  = (classify_test lib cli' model events').1.
Proof.
  intros Htest Hpred. unfold classify_test. rewrite Htest, Hpred.
  destruct (param_test cli) as [testingData|]; [|reflexivity].
  apply run_bind_ending; [apply when_ending; reflexivity|]. intros [] ev1 ev1'.
  apply run_bind_ending; [reflexivity|]. intros [] ev2 ev2'.
  apply run_bind_ending; [apply call_ending|]. intros predictedLabels ev3 ev3'.
  apply run_bind_ending; [reflexivity|]. intros [] ev4 ev4'.
  destruct (has_predictions cli); [|reflexivity].
  apply run_bind_ending; [apply call_ending|]. reflexivity.
Qed.

(** The model obtained with the labels left out is the model obtained
    from the training set without its last row, with that row as
    labels. *)
Lemma obtain_model_last_row cli cli' (trainingData shed : Mat T)
    (last : list nat) events events' :
  param_training cli = Some trainingData -> param_labels cli = None ->
  param_training cli' = Some shed -> param_labels cli' = Some last ->
  param_bucket_size cli' = param_bucket_size cli ->
  row_as_labels lib trainingData (size_t_pred (n_rows trainingData)) = Some last ->
  shed_row lib trainingData (size_t_pred (n_rows trainingData)) = Some shed ->
  (obtain_model lib cli events).1 = (obtain_model lib cli' events').1.
Proof.
  intros Htr Hlb Htr' Hlb' Hbs Hrow Hshed. unfold obtain_model.
  rewrite Htr, Hlb, Htr', Hlb', Hbs.
  apply run_bind_ending.
  - unfold mbind, run_bind, mret, run_ret, call, emit.
    rewrite Hrow, Hshed. reflexivity.
  - intros data ev1 ev1'.
    apply run_bind_ending; [apply call_ending|]. intros normalized ev2 ev2'.
    apply run_bind_ending; [apply call_ending|]. intros largest ev3 ev3'.
    apply run_bind_ending; [reflexivity|]. intros [] ev4 ev4'.
    apply run_bind_ending; [apply call_ending|]. intros trained ev5 ev5'.
    apply run_bind_ending; [reflexivity|]. reflexivity.
Qed.

(** X19. Leaving out [labels] is the same as passing the last row of the
    training set as labels and the remaining rows as the training set:
    when Armadillo returns that row and the matrix without it, the two
    runs end the same way and with the same outputs, whatever was logged
    before. *)
Theorem mlpackMain_labels_from_last_row (trainingData shed : Mat T)
    (last : list nat) (test : option (Mat T)) (input_model : option (DSModel lib))
    (bucket_size : Z) (predictions output_model : bool) events events' :
  row_as_labels lib trainingData (size_t_pred (n_rows trainingData)) = Some last ->
  shed_row lib trainingData (size_t_pred (n_rows trainingData)) = Some shed ->
  (mlpackMain lib
     (mkParams (Some trainingData) None test input_model bucket_size
        predictions output_model) events).1
  = (mlpackMain lib
       (mkParams (Some shed) (Some last) test input_model bucket_size
          predictions output_model) events').1.
Proof.
  intros Hrow Hshed. unfold mlpackMain.
  cbn [param_training param_input_model has_predictions has_output_model].
  rewrite !(bool_decide_true (is_Some (Some _))) by eauto.
  apply run_bind_ending; [apply when_ending; reflexivity|]. intros [] ev1 ev1'.
  apply run_bind_ending; [apply when_ending; reflexivity|]. intros [] ev2 ev2'.
  apply run_bind_ending; [apply when_ending; reflexivity|]. intros [] ev3 ev3'.
  apply run_bind_ending.
  - apply (obtain_model_last_row _ _ trainingData shed last);
      reflexivity || assumption.
  - intros model ev4 ev4'.
    apply run_bind_ending; [apply classify_test_ending; reflexivity|].
    reflexivity.
Qed.
End MainLabels.

(** X19, with the stand-in library: three training points of one
    dimension with the labels [0, 1, 0] in the last row, and two test
    points. *)
Lemma mlpackMain_labels_from_last_row_witness :
  let trainingData := mkMat 2 3 [1; 0; 2; 1; 3; 0] in
  let test := Some (mkMat 1 2 [4; 5]) in
  (mlpackMain toy_library
     (mkParams (Some trainingData) None test None 6 true true) []).1
  = (mlpackMain toy_library
       (mkParams (Some (mkMat 1 3 [1; 2; 3])) (Some [0; 1; 0]) test None 6
          true true) []).1.
Proof.
  intros trainingData test.
  apply (mlpackMain_labels_from_last_row toy_library trainingData
           (mkMat 1 3 [1; 2; 3]) [0; 1; 0] test None 6 true true [] []);
    reflexivity.
Defined.
